(** * MixTape: the YouTube resolution service (services/youtube.js)

    A shallow embedding of the [YouTubeService] class: credential
    rotation, the two cache tiers, the duration parser, the two match
    scorers, the per-track resolver and the batch pipeline, followed by
    the properties of the written specification that were checked
    against it.

    Modelling conventions.
    - JavaScript strings are [string]s of 8-bit characters;
      [toLowerCase] and the case-insensitive comparison of the durable
      store act on the ASCII letters.
    - JavaScript numbers that hold durations, counters and indices are
      exact integers ([Z], [nat]).  The arithmetic of the scores is a
      parameter, the class [Number]: the scorers are written once and
      run on binary64 numbers, as in the engine, or on rationals.  The
      selection of the best candidate is proved for both, the closed
      form of a score on rationals.  Two scores that are equal as
      rationals may differ in the last bit in binary64 when they come
      from different durations; a tie on rationals is then a strict
      order for the engine.
    - The service object and the durable table it talks to form a record
      [State]; a method is a function from the state to its result, the
      new state and the list of [Event]s it caused, in order (HTTP
      requests, store queries, timers, calls of the progress callback).
      Console output is not modelled.
    - What the primary provider answers is a parameter, the class
      [Provider]; an exception is a value of type [Error], and
      [try]/[catch] is a case analysis on it. *)

From Stdlib Require Import ZArith QArith Floats Uint63 String Ascii DecimalString List
  Lia Bool.
From stdpp Require Import base option list gmap strings.
From Equations Require Import Equations.

Local Open Scope Z_scope.
Local Open Scope string_scope.

(** ** Strings *)

Module Str.

(** [c] is one of [A]..[Z]. *)
Definition isUpper (c : ascii) : bool :=
  (65 <=? nat_of_ascii c)%nat && (nat_of_ascii c <=? 90)%nat.

Definition lowerChar (c : ascii) : ascii :=
  if isUpper c then ascii_of_nat (nat_of_ascii c + 32) else c.

(** [String.prototype.toLowerCase]. *)
Fixpoint toLowerCase (s : string) : string :=
  match s with
  | EmptyString => EmptyString
  | String c s' => String (lowerChar c) (toLowerCase s')
  end.

(** [String.prototype.startsWith]. *)
Fixpoint startsWith (s term : string) {struct term} : bool :=
  match term, s with
  | EmptyString, _ => true
  | String _ _, EmptyString => false
  | String t term', String c s' =>
      if Ascii.eqb c t then startsWith s' term' else false
  end.

(** [String.prototype.includes]: [term] occurs in [s] as a substring. *)
Fixpoint includes (s term : string) : bool :=
  startsWith s term ||
  match s with
  | EmptyString => false
  | String _ s' => includes s' term
  end.

(** A JavaScript string is truthy when it is not empty. *)
Definition truthy (s : string) : bool :=
  match s with EmptyString => false | _ => true end.

(** [a || b] on values that are a string or [undefined]/[null]. *)
Definition orElse (a b : option string) : option string :=
  match a with
  | Some s => if truthy s then a else b
  | None => b
  end.


End Str.

(** ** Duration parsing *)

(** [\d]. *)
Definition isDigit (c : ascii) : bool :=
  (48 <=? nat_of_ascii c)%nat && (nat_of_ascii c <=? 57)%nat.

Definition digitValue (c : ascii) : Z := Z.of_nat (nat_of_ascii c) - 48.

(** The longest run of digits at the head of [s], read in base 10 on top
    of [acc], the number of digits read, and what follows the run. *)
Fixpoint takeDigits (s : string) (acc : Z) (n : nat) : Z * nat * string :=
  match s with
  | String c s' =>
      if isDigit c then takeDigits s' (10 * acc + digitValue c) (S n)
      else (acc, n, s)
  | EmptyString => (acc, n, s)
  end.

(** One optional component [(?:(\d+)X)?] of the pattern at the head of
    [s]: the captured number when one or more digits are followed by
    [unit], and the rest of the input.  When the group does not match,
    nothing is consumed and the capture is undefined. *)
Definition matchComponent (unit : ascii) (s : string) : option Z * string :=
  match takeDigits s 0 0%nat with
  | (v, S _, String c rest) =>
      if Ascii.eqb c unit then (Some v, rest) else (None, s)
  | _ => (None, s)
  end.

(** The three captures of [PT(?:(\d+)H)?(?:(\d+)M)?(?:(\d+)S)?] applied
    right after an occurrence of [PT]. *)
Definition matchAfterPT (s : string) : option Z * option Z * option Z :=
  let '(h, s1) := matchComponent "H" s in
  let '(m, s2) := matchComponent "M" s1 in
  let '(sec, _) := matchComponent "S" s2 in
  (h, m, sec).

(** [duration.match(/PT(?:(\d+)H)?(?:(\d+)M)?(?:(\d+)S)?/)]: the pattern
    is not anchored, so the match starts at the leftmost [PT] of the
    input; [None] when the input holds no [PT]. *)
Fixpoint durationMatch (duration : string)
  : option (option Z * option Z * option Z) :=
  match duration with
  | EmptyString => None
  | String c rest =>
      if Str.startsWith duration "PT"
      then Some (matchAfterPT (match rest with String _ r => r | _ => rest end))
      else durationMatch rest
  end.

(** [parseInt(match[i] || 0, 10)]. *)
Definition captureOrZero (g : option Z) : Z :=
  match g with Some v => v | None => 0 end.

Definition parseISO8601Duration (duration : string) : Z :=
  match durationMatch duration with
  | None => 0
  | Some (h, m, s) =>
      let hours := captureOrZero h in
      let minutes := captureOrZero m in
      let seconds := captureOrZero s in
      (hours * 3600 + minutes * 60 + seconds) * 1000
  end.

(** ** Data model *)

(** The unit returned by a resolution and kept in both cache tiers:
    [{ videoId, title, duration, thumbnailUrl, channelTitle }]. *)
Record MatchResult := mkMatchResult {
  videoId : string;
  title : string;
  duration : Z;
  thumbnailUrl : option string;
  channelTitle : string
}.

(** An item of the [videos] endpoint of the primary provider. *)
Module YT.
Record Thumbnail := mkThumbnail { url : option string }.
Record Thumbnails := mkThumbnails {
  medium : option Thumbnail;
  default : option Thumbnail
}.
Record Snippet := mkSnippet {
  title : string;
  thumbnails : option Thumbnails;
  channelTitle : string
}.
Record ContentDetails := mkContentDetails { duration : string }.
Record Video := mkVideo {
  id : string;
  contentDetails : ContentDetails;
  snippet : Snippet
}.

(** [thumbnails?.medium?.url]. *)
Definition mediumUrl (v : Video) : option string :=
  t ← thumbnails (snippet v); m ← medium t; url m.

(** [thumbnails?.default?.url]. *)
Definition defaultUrl (v : Video) : option string :=
  t ← thumbnails (snippet v); d ← default t; url d.
End YT.

(** An item of the search endpoint of a mirror. *)
Module Inv.
Record Video := mkVideo {
  videoId : string;
  title : string;
  lengthSeconds : Z;
  author : string
}.
End Inv.

(** ** Match scoring *)

Definition DURATION_TOLERANCE_MS : Z := 15000.

(** The numbers of the engine with the operations the scorers use.
    The instance [binary64] is what the engine computes with; the
    instance [exact] computes with rationals, without rounding. *)
Class Number := {
  num : Type;
  fromZ : Z -> num;
  plus : num -> num -> num;
  minus : num -> num -> num;
  times : num -> num -> num;
  over : num -> num -> num;
  above : num -> num -> bool
}.

Declare Scope js_scope.
Delimit Scope js_scope with js.
Infix "+" := plus : js_scope.
Infix "-" := minus : js_scope.
Infix "*" := times : js_scope.
Infix "/" := over : js_scope.
Infix ">?" := above (at level 70) : js_scope.

(** [a > b] on rationals. *)
Definition Qgtb (a b : Q) : bool := negb (Qle_bool a b).

Definition exact : Number :=
  {| num := Q;
     fromZ := inject_Z;
     plus := Qplus;
     minus := Qminus;
     times := Qmult;
     over := Qdiv;
     above := Qgtb |}.

(** An integer as a binary64 number, to nearest. *)
Definition doubleOfZ (z : Z) : float :=
  if (z <? 0)%Z
  then PrimFloat.opp (PrimFloat.of_uint63 (Uint63.of_Z (- z)))
  else PrimFloat.of_uint63 (Uint63.of_Z z).

Definition binary64 : Number :=
  {| num := float;
     fromZ := doubleOfZ;
     plus := PrimFloat.add;
     minus := PrimFloat.sub;
     times := PrimFloat.mul;
     over := PrimFloat.div;
     above := fun a b => PrimFloat.ltb b a |}.

Section Scoring.

Context {number : Number}.

(** [Array.prototype.forEach] whose callback updates a captured
    variable of type [S]. *)
Definition forEach {A S : Type} (l : list A) (f : A -> S -> S) (s : S) : S :=
  fold_left (fun acc a => f a acc) l s.

(** The score the body of the loop of [findBestMatch] gives to one video,
    together with its duration; [None] when the loop skips the video
    ([continue]). *)
Definition youtubeScore (video : YT.Video) (targetDurationMs : Z)
    (trackName artistName : string) : option (num * Z) :=
  let videoDurationMs :=
    parseISO8601Duration (YT.duration (YT.contentDetails video)) in
  let durationDiff := Z.abs (videoDurationMs - targetDurationMs) in
  if durationDiff >? DURATION_TOLERANCE_MS then None
  else
    let score :=
      (fromZ 100
       - (fromZ durationDiff / fromZ DURATION_TOLERANCE_MS) * fromZ 50)%js in
    let title := Str.toLowerCase (YT.title (YT.snippet video)) in
    let searchTerms :=
      [Str.toLowerCase trackName; Str.toLowerCase artistName;
       "official"; "audio"; "music video"] in
    let score :=
      forEach searchTerms
        (fun term score =>
           if Str.includes title term then (score + fromZ 10)%js else score)
        score in
    let badTerms :=
      ["cover"; "remix"; "live"; "karaoke"; "instrumental"; "lyrics"] in
    let score :=
      forEach badTerms
        (fun term score =>
           if Str.includes title term then (score - fromZ 20)%js else score)
        score in
    Some (score, videoDurationMs).

Definition youtubeMatch (video : YT.Video) (videoDurationMs : Z) : MatchResult :=
  {| videoId := YT.id video;
     title := YT.title (YT.snippet video);
     duration := videoDurationMs;
     thumbnailUrl := Str.orElse (YT.mediumUrl video) (YT.defaultUrl video);
     channelTitle := YT.channelTitle (YT.snippet video) |}.

(** The loop of [findBestMatch], from the values [bestMatch] and
    [bestScore] hold when it reaches [videos]. *)
Fixpoint findBestMatchFrom (videos : list YT.Video) (targetDurationMs : Z)
    (trackName artistName : string)
    (bestMatch : option MatchResult) (bestScore : num) : option MatchResult :=
  match videos with
  | [] => bestMatch
  | video :: rest =>
      match youtubeScore video targetDurationMs trackName artistName with
      | None =>
          findBestMatchFrom rest targetDurationMs trackName artistName
            bestMatch bestScore
      | Some (score, videoDurationMs) =>
          if (score >? bestScore)%js
          then findBestMatchFrom rest targetDurationMs trackName artistName
                 (Some (youtubeMatch video videoDurationMs)) score
          else findBestMatchFrom rest targetDurationMs trackName artistName
                 bestMatch bestScore
      end
  end.

Definition findBestMatch (videos : list YT.Video) (targetDurationMs : Z)
    (trackName artistName : string) : option MatchResult :=
  findBestMatchFrom videos targetDurationMs trackName artistName None
    (fromZ 0).

(** The score the body of the loop of [findBestMatchInvidious] gives to
    one video, together with its duration in milliseconds. *)
Definition invidiousScore (video : Inv.Video) (targetDurationMs : Z)
    (trackName artistName : string) : option (num * Z) :=
  let videoDurationMs := Inv.lengthSeconds video * 1000 in
  let durationDiff := Z.abs (videoDurationMs - targetDurationMs) in
  if durationDiff >? DURATION_TOLERANCE_MS then None
  else
    let score :=
      (fromZ 100
       - (fromZ durationDiff / fromZ DURATION_TOLERANCE_MS) * fromZ 50)%js in
    let title := Str.toLowerCase (Inv.title video) in
    let searchTerms :=
      [Str.toLowerCase trackName; Str.toLowerCase artistName;
       "official"; "audio"; "music video"] in
    let score :=
      forEach searchTerms
        (fun term score =>
           if Str.includes title term then (score + fromZ 10)%js else score)
        score in
    let badTerms :=
      ["cover"; "remix"; "live"; "karaoke"; "instrumental"; "lyrics"] in
    let score :=
      forEach badTerms
        (fun term score =>
           if Str.includes title term then (score - fromZ 20)%js else score)
        score in
    Some (score, videoDurationMs).

Definition invidiousMatch (video : Inv.Video) (videoDurationMs : Z) : MatchResult :=
  {| videoId := Inv.videoId video;
     title := Inv.title video;
     duration := videoDurationMs;
     thumbnailUrl :=
       Some ("https://i.ytimg.com/vi/" ++ Inv.videoId video ++ "/mqdefault.jpg");
     channelTitle := Inv.author video |}.

Fixpoint findBestMatchInvidiousFrom (videos : list Inv.Video)
    (targetDurationMs : Z) (trackName artistName : string)
    (bestMatch : option MatchResult) (bestScore : num) : option MatchResult :=
  match videos with
  | [] => bestMatch
  | video :: rest =>
      match invidiousScore video targetDurationMs trackName artistName with
      | None =>
          findBestMatchInvidiousFrom rest targetDurationMs trackName artistName
            bestMatch bestScore
      | Some (score, videoDurationMs) =>
          if (score >? bestScore)%js
          then findBestMatchInvidiousFrom rest targetDurationMs trackName
                 artistName (Some (invidiousMatch video videoDurationMs)) score
          else findBestMatchInvidiousFrom rest targetDurationMs trackName
                 artistName bestMatch bestScore
      end
  end.

Definition findBestMatchInvidious (videos : list Inv.Video)
    (targetDurationMs : Z) (trackName artistName : string)
    : option MatchResult :=
  findBestMatchInvidiousFrom videos targetDurationMs trackName artistName
    None (fromZ 0).

End Scoring.

(** ** The durable cache table *)

(** A row of the [youtube_cache] table. *)
Record CacheRow := mkCacheRow {
  track_name : string;
  artist_name : string;
  duration_ms : Z;
  video_id : string;
  video_title : string;
  video_duration : Z;
  thumbnail_url : option string;
  channel_title : string
}.

(** The [LIKE] operator of the store on character lists: [%] stands for
    any run of characters, [_] for any one character, and a backslash
    makes the character after it literal. *)
Fixpoint likeMatch (pattern : list ascii) : list ascii -> bool :=
  match pattern with
  | [] => fun value => match value with [] => true | _ => false end
  | p :: pattern' =>
      if Ascii.eqb p "%" then
        fix any (value : list ascii) : bool :=
          likeMatch pattern' value ||
          match value with [] => false | _ :: value' => any value' end
      else if Ascii.eqb p "_" then
        fun value =>
          match value with [] => false | _ :: value' => likeMatch pattern' value' end
      else if Ascii.eqb p "\" then
        match pattern' with
        | [] => fun value => match value with [] => true | _ => false end
        | q :: pattern'' =>
            fun value =>
              match value with
              | [] => false
              | c :: value' => Ascii.eqb c q && likeMatch pattern'' value'
              end
        end
      else
        fun value =>
          match value with
          | [] => false
          | c :: value' => Ascii.eqb c p && likeMatch pattern' value'
          end
  end.

(** The filter [.ilike(column, pattern)]: [LIKE] without regard to case. *)
Definition ilike (value pattern : string) : bool :=
  likeMatch (list_ascii_of_string (Str.toLowerCase pattern))
            (list_ascii_of_string (Str.toLowerCase value)).

(** ** Service state and effects *)

Record State := mkState {
  cache : gmap string MatchResult;
  currentKeyIndex : nat;
  apiKeys : list string;
  youtube_cache : list CacheRow;
  storeReachable : bool
}.

Definition setCache (f : gmap string MatchResult -> gmap string MatchResult)
    (st : State) : State :=
  mkState (f (cache st)) (currentKeyIndex st) (apiKeys st)
          (youtube_cache st) (storeReachable st).

Definition setCurrentKeyIndex (i : nat) (st : State) : State :=
  mkState (cache st) i (apiKeys st) (youtube_cache st) (storeReachable st).

Definition setTable (t : list CacheRow) (st : State) : State :=
  mkState (cache st) (currentKeyIndex st) (apiKeys st) t (storeReachable st).

Inductive Event :=
  | EvSelect (trackName artistName : string)
  | EvInsert (row : CacheRow)
  | EvSearch (key : option string) (query : string)
  | EvDetails (key : option string) (ids : string)
  | EvProgress (current total : Z)
  | EvSleep (ms : Z).

(** A method: result, new state, events caused. *)
Definition M (A : Type) : Type := State -> A * State * list Event.

Definition ret {A} (a : A) : M A := fun st => (a, st, []).

Definition bind {A B} (m : M A) (k : A -> M B) : M B :=
  fun st =>
    let '(a, st1, ev1) := m st in
    let '(b, st2, ev2) := k a st1 in
    (b, st2, (ev1 ++ ev2)%list).

Definition get : M State := fun st => (st, st, []).
Definition modify (f : State -> State) : M unit := fun st => (tt, f st, []).
Definition emit (e : Event) : M unit := fun st => (tt, st, [e]).

Declare Scope method_scope.
Delimit Scope method_scope with method.
Notation "'do' x <- m ; k" := (bind m (fun x => k))
  (at level 10, x name, m at level 100, k at level 200) : method_scope.
Notation "'run' m ; k" := (bind m (fun _ => k))
  (at level 10, m at level 100, k at level 200) : method_scope.
Local Open Scope method_scope.

(** ** Key pool *)

(** [process.env]. *)
Definition Environment := string -> option string.

Definition decimal (i : nat) : string :=
  NilZero.string_of_uint (Nat.to_uint i).

(** [loadApiKeys]: the numbered slots 1 to 10 that are set and not
    empty, else the single slot of the old format. *)
Definition loadApiKeys (env : Environment) : list string :=
  let keys :=
    forEach (seq 1 10)
      (fun i keys =>
         match env ("REACT_APP_YOUTUBE_API_KEY_" ++ decimal i) with
         | Some key => if Str.truthy key then (keys ++ [key])%list else keys
         | None => keys
         end) [] in
  match keys, env "REACT_APP_YOUTUBE_API_KEY" with
  | [], Some key => if Str.truthy key then (keys ++ [key])%list else keys
  | _, _ => keys
  end.

(** The constructor, with the durable table the process finds. *)
Definition newService (env : Environment) (table : list CacheRow)
    (reachable : bool) : State :=
  {| cache := ∅;
     currentKeyIndex := 0;
     apiKeys := loadApiKeys env;
     youtube_cache := table;
     storeReachable := reachable |}.

(** [getCurrentApiKey]; [None] is [null] or [undefined]. *)
Definition getCurrentApiKey : M (option string) :=
  do st <- get;
  if (length (apiKeys st) =? 0)%nat then ret None
  else ret (apiKeys st !! currentKeyIndex st).

Definition rotateApiKey : M bool :=
  do st <- get;
  if (length (apiKeys st) <=? 1)%nat then ret false
  else
    run modify (setCurrentKeyIndex
                  ((currentKeyIndex st + 1) mod length (apiKeys st))%nat);
    ret true.

(** ** Durable cache tier *)

Definition rowMatch (data : CacheRow) : MatchResult :=
  {| videoId := video_id data;
     title := video_title data;
     duration := video_duration data;
     thumbnailUrl := thumbnail_url data;
     channelTitle := channel_title data |}.

(** The rows [.ilike('artist_name', artistName).ilike('track_name',
    trackName)] keeps, in table order. *)
Definition selectRows (table : list CacheRow) (trackName artistName : string)
    : list CacheRow :=
  filter (fun r => ilike (artist_name r) artistName
                   && ilike (track_name r) trackName = true) table.

(** [checkDatabaseCache]: [.limit(1).single()] yields the first row, and
    an error when there is none; an error, like a store that cannot be
    reached, gives [null]. *)
Definition checkDatabaseCache (trackName artistName : string)
    : M (option MatchResult) :=
  do st <- get;
  run emit (EvSelect trackName artistName);
  if storeReachable st then
    match selectRows (youtube_cache st) trackName artistName with
    | data :: _ => ret (Some (rowMatch data))
    | [] => ret None
    end
  else ret None.

(** Modelled from the spec: the uniqueness constraint of the table is
    declared in the migrations, which are not part of the sources read
    here.  A row whose track and artist are already stored is refused
    and the table stays as it is (duplicate insert is a no-op). *)
Definition insertRow (table : list CacheRow) (row : CacheRow) : list CacheRow :=
  if existsb (fun r => String.eqb (track_name r) (track_name row)
                       && String.eqb (artist_name r) (artist_name row)) table
  then table
  else (table ++ [row])%list.

(** [saveToDatabaseCache]: every failure is swallowed. *)
Definition saveToDatabaseCache (trackName artistName : string) (durationMs : Z)
    (result : MatchResult) : M unit :=
  do st <- get;
  let row :=
    {| track_name := trackName;
       artist_name := artistName;
       duration_ms := durationMs;
       video_id := videoId result;
       video_title := title result;
       video_duration := duration result;
       thumbnail_url := thumbnailUrl result;
       channel_title := channelTitle result |} in
  run emit (EvInsert row);
  if storeReachable st
  then modify (setTable (insertRow (youtube_cache st) row))
  else ret tt.

(** ** Primary provider *)

(** What [fetch] on the search endpoint gives: no response at all, a
    response that is not [ok] with its status and the [reason] of the
    first error of its body when the body has one, or the [items] of an
    [ok] response as the list of their [id.videoId]. *)
Inductive SearchResponse :=
  | SearchUnreachable
  | SearchFailed (status : Z) (reason : option string)
  | SearchItems (items : option (list string)).

Inductive DetailsResponse :=
  | DetailsUnreachable
  | DetailsFailed (status : Z)
  | DetailsItems (items : list YT.Video).

(** The exceptions [searchWithYouTube] can raise. *)
Inductive Error :=
  | QuotaError
  | ApiError (status : Z)
  | DetailsError (status : Z)
  | NetworkError.

(** [error.quotaExceeded]. *)
Definition quotaExceeded (e : Error) : bool :=
  match e with QuotaError => true | _ => false end.

(** The result of one pass through the body of the retry loop of
    [searchTrack]: [return] with a value, or [continue]. *)
Inductive Pass :=
  | Return (result : option MatchResult)
  | Continue.

Module Track.
Record t := mk {
  name : string;
  artist : string;
  duration_ms : Z
}.
End Track.

(** An element of the list [searchTracks] returns: the track with
    [youtubeId], [youtubeTitle], [youtubeThumbnail] and [matched]. *)
Record ResolvedTrack := mkResolvedTrack {
  track : Track.t;
  youtubeId : option string;
  youtubeTitle : option string;
  youtubeThumbnail : option string;
  matched : bool
}.

(** The object pushed for [track] when [searchTrack] gave [match]. *)
Definition annotate (track : Track.t) (match_ : option MatchResult)
    : ResolvedTrack :=
  {| track := track;
     youtubeId := Str.orElse (videoId <$> match_) None;
     youtubeTitle := Str.orElse (title <$> match_) None;
     youtubeThumbnail := Str.orElse (match_ ≫= thumbnailUrl) None;
     matched := bool_decide (is_Some match_) |}.

(** The two endpoints of the primary provider, what [fetch] gives for a
    credential and a request. *)
Class Provider := {
  fetchSearch : option string -> string -> SearchResponse;
  fetchDetails : option string -> string -> DetailsResponse
}.

Section Resolver.

Context {number : Number} {provider : Provider}.

Definition searchWithYouTube (trackName artistName : string)
    (durationMs : Z) : M (Error + option MatchResult) :=
  do apiKey <- getCurrentApiKey;
  let query := artistName ++ " - " ++ trackName ++ " official audio" in
  run emit (EvSearch apiKey query);
  match fetchSearch apiKey query with
  | SearchUnreachable => ret (inl NetworkError)
  | SearchFailed status reason =>
      match reason with
      | Some r =>
          if String.eqb r "quotaExceeded" then ret (inl QuotaError)
          else ret (inl (ApiError status))
      | None => ret (inl (ApiError status))
      end
  | SearchItems None | SearchItems (Some []) => ret (inr None)
  | SearchItems (Some items) =>
      let videoIds := String.concat "," items in
      run emit (EvDetails apiKey videoIds);
      match fetchDetails apiKey videoIds with
      | DetailsUnreachable => ret (inl NetworkError)
      | DetailsFailed status => ret (inl (DetailsError status))
      | DetailsItems videos =>
          ret (inr (findBestMatch videos durationMs trackName artistName))
      end
  end.

(** The body of the [while] loop of [searchTrack]. *)
Definition searchTrackPass (trackName artistName : string) (durationMs : Z)
    (cacheKey : string) : M Pass :=
  do outcome <- searchWithYouTube trackName artistName durationMs;
  match outcome with
  | inr (Some result) =>
      run modify (setCache (<[cacheKey := result]>));
      run saveToDatabaseCache trackName artistName durationMs result;
      ret (Return (Some result))
  | inr None => ret (Return None)
  | inl error =>
      if quotaExceeded error then
        do rotated <- rotateApiKey;
        if rotated then ret Continue else ret (Return None)
      else ret (Return None)
  end.

(** The [while (attempts < maxAttempts)] loop of [searchTrack] and the
    [return null] that follows it. *)
Equations searchTrackLoop (trackName artistName : string) (durationMs : Z)
    (cacheKey : string) (maxAttempts attempts : nat) (st : State)
    : option MatchResult * State * list Event
    by wf (maxAttempts - attempts)%nat lt :=
  searchTrackLoop trackName artistName durationMs cacheKey
      maxAttempts attempts st with lt_dec attempts maxAttempts := {
    | right _ => (None, st, [])
    | left _ with searchTrackPass trackName artistName durationMs cacheKey st := {
      | (Return result, st1, ev1) => (result, st1, ev1)
      | (Continue, st1, ev1) =>
          let '(result, st2, ev2) :=
            searchTrackLoop trackName artistName durationMs cacheKey
              maxAttempts (S attempts) st1 in
          (result, st2, (ev1 ++ ev2)%list)
      }
    }.
Next Obligation. lia. Qed.

Definition cacheKeyOf (trackName artistName : string) : string :=
  Str.toLowerCase (artistName ++ " - " ++ trackName).

Definition searchTrack (trackName artistName : string) (durationMs : Z)
    : M (option MatchResult) :=
  let cacheKey := cacheKeyOf trackName artistName in
  do st <- get;
  match cache st !! cacheKey with
  | Some cached => ret (Some cached)
  | None =>
      do dbCached <- checkDatabaseCache trackName artistName;
      match dbCached with
      | Some found =>
          run modify (setCache (<[cacheKey := found]>));
          ret (Some found)
      | None =>
          do apiKey <- getCurrentApiKey;
          match apiKey with
          | None => ret None
          | Some key =>
              if Str.truthy key then
                do st <- get;
                let maxAttempts := length (apiKeys st) in
                searchTrackLoop trackName artistName durationMs cacheKey
                  maxAttempts 0
              else ret None
          end
      end
  end.

(** The [for] loop of [searchTracks] from index [i], [rest] being the
    tracks from [i] on; [onProgress] tells whether a callback was
    passed, and a call of it is the event [EvProgress]. *)
Fixpoint searchTracksFrom (total : nat) (onProgress : bool) (i : nat)
    (rest : list Track.t) (results : list ResolvedTrack)
    : M (list ResolvedTrack) :=
  match rest with
  | [] => ret results
  | track :: rest' =>
      run (if onProgress
           then emit (EvProgress (Z.of_nat i + 1) (Z.of_nat total))
           else ret tt);
      do match_ <- searchTrack (Track.name track) (Track.artist track)
                     (Track.duration_ms track);
      let results := (results ++ [annotate track match_])%list in
      run (if (Z.of_nat i <? Z.of_nat total - 1)%Z
           then emit (EvSleep 100)
           else ret tt);
      searchTracksFrom total onProgress (S i) rest' results
  end.

Definition searchTracks (tracks : list Track.t) (onProgress : bool)
    : M (list ResolvedTrack) :=
  searchTracksFrom (length tracks) onProgress 0 tracks [].

End Resolver.

(** ** Vocabulary of the statements *)

Definition resultOf {A} (r : A * State * list Event) : A := r.1.1.
Definition stateOf {A} (r : A * State * list Event) : State := r.1.2.
Definition eventsOf {A} (r : A * State * list Event) : list Event := r.2.

(** The cursor of the key pool points into the pool. *)
Definition cursorInRange (st : State) : Prop :=
  (0 < length (apiKeys st) -> currentKeyIndex st < length (apiKeys st))%nat.

(** Every configured key is a non-empty string. *)
Definition keysTruthy (st : State) : Prop :=
  Forall (fun key => Str.truthy key = true) (apiKeys st).

(** The operations of the key pool. *)
Inductive PoolOp := OpCurrent | OpRotate.

Definition runPoolOp (op : PoolOp) : M unit :=
  match op with
  | OpCurrent => do _ <- getCurrentApiKey; ret tt
  | OpRotate => do _ <- rotateApiKey; ret tt
  end.

Fixpoint runPoolOps (ops : list PoolOp) : M unit :=
  match ops with
  | [] => ret tt
  | op :: ops' => run runPoolOp op; runPoolOps ops'
  end.

(** The calls of the search endpoint among the events. *)
Definition isSearchAttempt (e : Event) : bool :=
  match e with EvSearch _ _ => true | _ => false end.

Definition searchAttempts (ev : list Event) : nat :=
  length (List.filter isSearchAttempt ev).

(** ** Fixtures *)

Module Fixture.

(** A provider on which every key is out of quota. *)
Definition quotaSearch (key : option string) (query : string) : SearchResponse :=
  SearchFailed 403 (Some "quotaExceeded").

Definition noDetails (key : option string) (ids : string) : DetailsResponse :=
  DetailsFailed 500.

Definition threeKeys : Environment := fun name =>
  if String.eqb name "REACT_APP_YOUTUBE_API_KEY_1" then Some "key-one"
  else if String.eqb name "REACT_APP_YOUTUBE_API_KEY_2" then Some "key-two"
  else if String.eqb name "REACT_APP_YOUTUBE_API_KEY_3" then Some "key-three"
  else None.

Definition oneKey : Environment := fun name =>
  if String.eqb name "REACT_APP_YOUTUBE_API_KEY" then Some "legacy-key"
  else None.

(** The two candidates of the scoring example of the specification, for
    a target of 200000 ms. *)
Definition officialAudio : YT.Video :=
  YT.mkVideo "vid-A" (YT.mkContentDetails "PT3M20S")
    (YT.mkSnippet "Artist - Track (Official Audio)" None "Artist").

Definition liveVersion : YT.Video :=
  YT.mkVideo "vid-B" (YT.mkContentDetails "PT3M25S")
    (YT.mkSnippet "Track (Live)" None "Somebody").

(** A candidate at the edge of the tolerance whose title holds every
    penalised term. *)
Definition allPenalties : YT.Video :=
  YT.mkVideo "vid-C" (YT.mkContentDetails "PT3M35S")
    (YT.mkSnippet "cover remix live karaoke instrumental lyrics" None "Nobody").

(** The candidates of the scoring example in the shape of a mirror. *)
Definition officialAudioMirror : Inv.Video :=
  Inv.mkVideo "vid-A" "Artist - Track (Official Audio)" 200 "Artist".

Definition liveVersionMirror : Inv.Video :=
  Inv.mkVideo "vid-B" "Track (Live)" 205 "Somebody".

(** A provider that answers every search with two ids and every
    detail request with the two candidates of the scoring example. *)
Definition foundSearch (key : option string) (query : string) : SearchResponse :=
  SearchItems (Some ["vid-B"; "vid-A"]).

Definition foundDetails (key : option string) (ids : string) : DetailsResponse :=
  DetailsItems [liveVersion; officialAudio].

Definition exhausted : Provider :=
  {| fetchSearch := quotaSearch; fetchDetails := noDetails |}.

Definition working : Provider :=
  {| fetchSearch := foundSearch; fetchDetails := foundDetails |}.

(** A row of the durable table. *)
Definition storedRow : CacheRow :=
  {| track_name := "Track";
     artist_name := "Artist";
     duration_ms := 200000;
     video_id := "vid-A";
     video_title := "Artist - Track (Official Audio)";
     video_duration := 200000;
     thumbnail_url := None;
     channel_title := "Artist" |}.

(** A provider that cannot be reached for the queries about ["Missing"]. *)
Definition flakySearch (key : option string) (query : string) : SearchResponse :=
  if Str.includes query "Missing" then SearchUnreachable
  else SearchItems (Some ["vid-B"; "vid-A"]).

Definition flaky : Provider :=
  {| fetchSearch := flakySearch; fetchDetails := foundDetails |}.

(** The batch of the order-preservation example. *)
Definition threeQueries : list Track.t :=
  [Track.mk "Track" "Artist" 200000;
   Track.mk "Missing" "Artist" 200000;
   Track.mk "Track (single)" "Artist" 201000].

(** A service that holds the two spellings of one query in its memory
    tier. *)
Definition warmService : State :=
  setCache (<["artist - track" := rowMatch storedRow]>)
    (newService threeKeys [] true).

Definition twoSpellings : list Track.t :=
  [Track.mk "Track" "Artist" 200000; Track.mk "TRACK" "ARTIST" 200000].

End Fixture.

(** ** Vocabulary of the scoring statements *)

(** Step 2 of the scoring: the score of the duration alone. *)
Definition baseScore {number : Number} (durationDiff : Z) : num :=
  (fromZ 100 - (fromZ durationDiff / fromZ DURATION_TOLERANCE_MS) * fromZ 50)%js.

(** What [findBestMatch] is to do with [videos], in terms of the order
    [>?] of the arithmetic: a result is the first of the candidates with
    the highest score, and its score is above 0; the result is [null]
    exactly when no candidate within the tolerance scores above 0, which
    covers the case where none is within the tolerance and the case
    where the only one within it does not score above 0. *)
Definition selectsBest (number : Number) (videos : list YT.Video)
    (target : Z) (trackName artistName : string) : Prop :=
  let score v := youtubeScore v target trackName artistName in
  let result := findBestMatch videos target trackName artistName in
  (forall m,
     result = Some m ->
     exists i v s d,
       videos !! i = Some v /\ score v = Some (s, d) /\
       m = youtubeMatch v d /\ (s >? fromZ 0)%js = true /\
       forall j v' s' d',
         videos !! j = Some v' -> score v' = Some (s', d') ->
         (s' >? s)%js = false /\ ((j < i)%nat -> (s >? s')%js = true)) /\
  (result = None <->
   forall j v s d,
     videos !! j = Some v -> score v = Some (s, d) ->
     (s >? fromZ 0)%js = false) /\
  ((forall j v, videos !! j = Some v -> score v = None) -> result = None) /\
  (forall v s d,
     score v = Some (s, d) -> (s >? fromZ 0)%js = false ->
     findBestMatch [v] target trackName artistName = None).

(** A binary64 number that is not NaN. *)
Definition isNumber (x : float) : Prop := PrimFloat.is_nan x = false.

(** The place of a binary64 number other than NaN in the order of
    [<]: its sign, then its exponent, then its mantissa. *)
Definition floatKey (f : spec_float) : Z * Z * Z :=
  match f with
  | S754_zero _ => (0, 0, 0)
  | S754_infinity false => (2, 0, 0)
  | S754_infinity true => (-2, 0, 0)
  | S754_nan => (0, 0, 0)
  | S754_finite false m e => (1, e, Z.pos m)
  | S754_finite true m e => (-1, - e, - Z.pos m)
  end.

Definition lexLt (a b : Z * Z * Z) : Prop :=
  let '(a1, a2, a3) := a in
  let '(b1, b2, b3) := b in
  a1 < b1 \/ (a1 = b1 /\ (a2 < b2 \/ (a2 = b2 /\ a3 < b3))).

(** [k] holds of [s] and of the next [n] numbers that [step] makes of
    it. *)
Fixpoint chainOk (n : nat) (step : float -> float) (k : float -> bool)
    (s : float) : bool :=
  k s && match n with
         | O => true
         | S n' => chainOk n' step k (step s)
         end.

(** No binary64 score of a candidate at distance [d] is NaN, whatever
    terms its title holds. *)
Definition scoresOkAt (d : Z) : bool :=
  chainOk 5 (fun s => PrimFloat.add s (doubleOfZ 10))
    (chainOk 6 (fun s => PrimFloat.sub s (doubleOfZ 20))
       (fun s => negb (PrimFloat.is_nan s)))
    (baseScore (number := binary64) d).

Fixpoint scoresOkFrom (fuel : nat) (d : Z) : bool :=
  match fuel with
  | O => true
  | S fuel' => scoresOkAt d && scoresOkFrom fuel' (d + 1)
  end.

(** Steps 3 and 4 of the scoring applied to a score: 10 more for every
    search term found in [title], then 20 less for every penalised term
    found. *)
Definition adjustForTitle {number : Number}
    (title trackName artistName : string)
    (score : num) : num :=
  forEach ["cover"; "remix"; "live"; "karaoke"; "instrumental"; "lyrics"]
    (fun term score =>
       if Str.includes title term then (score - fromZ 20)%js else score)
    (forEach [Str.toLowerCase trackName; Str.toLowerCase artistName;
              "official"; "audio"; "music video"]
       (fun term score =>
          if Str.includes title term then (score + fromZ 10)%js else score)
       score).

(** The number of [terms] that occur in [title]. *)
Definition countFound (title : string) (terms : list string) : nat :=
  length (List.filter (fun term => Str.includes title term) terms).

(** The distance of a video of the primary provider to the target. *)
Definition youtubeDiff (video : YT.Video) (targetDurationMs : Z) : Z :=
  Z.abs (parseISO8601Duration (YT.duration (YT.contentDetails video))
         - targetDurationMs).

(** The same video in the two provider shapes: same id, same title and
    the same duration, in ISO-8601 on one side and in seconds on the
    other. *)
Definition sameVideo (y : YT.Video) (i : Inv.Video) : Prop :=
  YT.id y = Inv.videoId i /\
  YT.title (YT.snippet y) = Inv.title i /\
  parseISO8601Duration (YT.duration (YT.contentDetails y))
    = Inv.lengthSeconds i * 1000.

(** What the two scorers are compared on: the video selected. *)
Definition sameMatch (m1 m2 : MatchResult) : Prop :=
  videoId m1 = videoId m2 /\ title m1 = title m2 /\ duration m1 = duration m2.

(** ** Vocabulary of the duration statements *)








(** ** Vocabulary of the batch statements *)

Section BatchVocabulary.

Context {number : Number} {provider : Provider}.

(** The list the batch is to return: every query, in order, annotated
    with what the resolver answers for it in the state the queries
    before it have left. *)
Fixpoint resolveAll (queries : list Track.t) (st : State) : list ResolvedTrack :=
  match queries with
  | [] => []
  | q :: later =>
      let out := searchTrack
                   (Track.name q) (Track.artist q) (Track.duration_ms q) st in
      annotate q (resultOf out) :: resolveAll later (stateOf out)
  end.

(** The events the batch is to cause: for every query, the call of the
    callback (when there is one) with the position of the query counted
    from 1 and the number of queries, then the events of its
    resolution, then, when another query follows, a pause of 100 ms. *)
Fixpoint pacedTrace (callback : bool) (total position : nat)
    (queries : list Track.t) (st : State) : list Event :=
  match queries with
  | [] => []
  | q :: later =>
      let out := searchTrack
                   (Track.name q) (Track.artist q) (Track.duration_ms q) st in
      ((if callback
        then [EvProgress (Z.of_nat position) (Z.of_nat total)]
        else [])
       ++ eventsOf out
       ++ (match later with [] => [] | _ :: _ => [EvSleep 100] end)
       ++ pacedTrace callback total (S position) later (stateOf out))%list
  end.

End BatchVocabulary.

Definition isSleep (e : Event) : bool :=
  match e with EvSleep _ => true | _ => false end.

Definition isProgress (e : Event) : bool :=
  match e with EvProgress _ _ => true | _ => false end.

(** The events of the pacing of the batch, as opposed to those of a
    resolution. *)
Definition isPacing (e : Event) : bool := isSleep e || isProgress e.

(** A list of events without any event of the pacing. *)
Definition quiet (ev : list Event) : Prop :=
  Forall (fun e => isPacing e = false) ev.

(** The entry of a query that found no video. *)
Definition unmatched (q : Track.t) : ResolvedTrack :=
  {| track := q;
     youtubeId := None;
     youtubeTitle := None;
     youtubeThumbnail := None;
     matched := false |}.




(** * The rest of the application

    The remaining methods of the resolver service, the playlist service
    (services/spotify.js), the mixtape store (services/supabase.js) and
    the handlers of the component (components/MixTape.jsx).

    Modelling conventions.
    - What [fetch] or the client of the store answers is a value of an
      inductive type with one constructor for an exception, one for an
      answer that reports an error, and one for the data; the endpoints
      are parameters (the classes [Mirrors] and [Spotify.Api]), the
      answers of the store are arguments.
    - What [Date.now()] gives is an argument of the method that reads
      it.
    - The component is the record of the state variables its handlers
      read or write; a handler is a function on the record, the setters
      it calls being applied together.  A number that is used as an
      index is an integer or [NaN].
    - A value that may be [null] or [undefined] is an [option]; [a || b]
      and the tests of truthiness are written out. *)

(** ** The rest of the resolver service *)

(** [clearCache]: [this.cache.clear()]. *)
Definition clearCache : M unit := modify (setCache (fun _ => ∅)).

(** A string, [null] or [undefined] is truthy when it is a string that
    is not empty. *)
Definition truthyString (s : option string) : bool :=
  match s with Some s => Str.truthy s | None => false end.

(** ** The fallback over the mirrors *)

Definition INVIDIOUS_INSTANCES : list string :=
  ["https://invidious.fdn.fr";
   "https://inv.riverside.rocks";
   "https://invidious.slipfox.xyz";
   "https://invidious.protokolla.fi";
   "https://iv.ggtyler.dev"].

(** What [fetch] on the search endpoint of a mirror gives: an exception
    (no answer within 5 s, or a body that is no JSON), a response that
    is not [ok], or the parsed body of an [ok] response, [None] when it
    is falsy. *)
Inductive MirrorResponse :=
  | MirrorThrows
  | MirrorFailed (status : Z)
  | MirrorResults (results : option (list Inv.Video)).

(** The search endpoint of the mirrors: the answer of an instance to a
    query (the URL is made of the two). *)
Class Mirrors := {
  fetchMirror : string -> string -> MirrorResponse
}.

(** A request sent to a mirror. *)
Inductive MirrorEvent :=
  | EvMirror (instance query : string).

Section Fallback.

Context {number : Number} {mirrors : Mirrors}.

(** The [for] loop of [searchWithInvidious] over the instances that are
    left, and the [return null] after it.  The second component is
    [this.currentInvidiousInstance]. *)
Fixpoint searchWithInvidiousFrom (instances : list string)
    (trackName artistName : string) (durationMs : Z)
    (currentInvidiousInstance : option string)
    : option MatchResult * option string * list MirrorEvent :=
  let query := artistName ++ " - " ++ trackName ++ " official audio" in
  match instances with
  | [] => (None, currentInvidiousInstance, [])
  | instance :: later =>
      let continue :=
        let '(result, current, ev) :=
          searchWithInvidiousFrom later trackName artistName durationMs
            currentInvidiousInstance in
        (result, current, EvMirror instance query :: ev) in
      match fetchMirror instance query with
      | MirrorThrows => continue
      | MirrorFailed _ => continue
      | MirrorResults None | MirrorResults (Some []) =>
          (None, currentInvidiousInstance, [EvMirror instance query])
      | MirrorResults (Some results) =>
          match findBestMatchInvidious results durationMs trackName artistName with
          | Some bestMatch =>
              (Some bestMatch, Some instance, [EvMirror instance query])
          | None => (None, currentInvidiousInstance, [EvMirror instance query])
          end
      end
  end.

Definition searchWithInvidious (trackName artistName : string)
    (durationMs : Z) (currentInvidiousInstance : option string)
    : option MatchResult * option string * list MirrorEvent :=
  searchWithInvidiousFrom INVIDIOUS_INSTANCES trackName artistName durationMs
    currentInvidiousInstance.

End Fallback.

(** * The playlist service *)

Module Spotify.

(* begin hide *)
Local Open Scope Z_scope.
(* end hide *)

(** The service object. *)
Record Service := mkService {
  accessToken : option string;
  tokenExpiry : option Z
}.

(** The constructor. *)
Definition newService : Service :=
  {| accessToken := None; tokenExpiry := None |}.

(** What the token endpoint gives: an exception of [fetch] with its
    message, a response that is not [ok], or the body of an [ok]
    response; [access_token] is [None] when the body has no such
    field. *)
Inductive TokenResponse :=
  | TokenThrows (message : string)
  | TokenFailed (status : Z) (statusText : string)
  | TokenOk (access_token : option string) (expires_in : Z).

(** An item of [tracks.items] of a playlist of the API. *)
Record ApiTrack := mkApiTrack {
  track_name : string;
  track_artists : list string;
  track_duration_ms : Z;
  track_album_images : list (option string)
}.

Record ApiPlaylist := mkApiPlaylist {
  api_id : string;
  api_name : string;
  api_description : option string;
  api_images : list (option string);
  api_items : list (option ApiTrack)
}.

Inductive PlaylistResponse :=
  | PlaylistThrows (message : string)
  | PlaylistFailed (status : Z) (statusText : string)
  | PlaylistOk (data : ApiPlaylist).

(** The two endpoints: the token for a client id and a secret, and the
    playlist for a token and a playlist id. *)
Class Api := {
  requestToken : string -> string -> TokenResponse;
  requestPlaylist : option string -> string -> PlaylistResponse
}.

(** The exceptions of the service, one for each message. *)
Inductive Error :=
  | CredentialsMissing
  | TokenError (status : Z) (statusText : string)
  | InvalidUrl
  | PlaylistNotFound
  | PlaylistPrivate
  | PlaylistError (status : Z) (statusText : string)
  | FetchError (message : string).

(** A status code in decimal. *)
Definition showStatus (status : Z) : string :=
  NilZero.string_of_int (Z.to_int status).

(** [error.message]. *)
Definition message (error : Error) : string :=
  match error with
  | CredentialsMissing =>
      "Spotify API credentials not configured. Please add REACT_APP_SPOTIFY_CLIENT_ID and REACT_APP_SPOTIFY_CLIENT_SECRET to your .env file."
  | TokenError status statusText =>
      "Failed to get access token: " ++ showStatus status ++ " " ++ statusText
  | InvalidUrl =>
      "Invalid Spotify playlist URL. Please paste a valid link from Spotify."
  | PlaylistNotFound =>
      "Playlist not found. Please check the URL and make sure the playlist is public."
  | PlaylistPrivate =>
      "This playlist is private. Please make it public or use a different playlist."
  | PlaylistError status statusText =>
      "Failed to fetch playlist: " ++ showStatus status ++ " " ++ statusText
  | FetchError message => message
  end.

Inductive Request :=
  | EvToken (clientId clientSecret : string)
  | EvPlaylist (token : option string) (playlistId : string).

(** A track of the playlist in the format of the application. *)
Record PlaylistTrack := mkPlaylistTrack {
  name : string;
  artist : string;
  duration_ms : Z;
  albumArt : option string
}.

Record Playlist := mkPlaylist {
  id : string;
  playlistName : string;
  description : string;
  image : option string;
  tracks : list PlaylistTrack;
  trackCount : Z
}.

(** A number or [null] is truthy when it is a number other than 0. *)
Definition truthyNumber (n : option Z) : bool :=
  match n with Some z => negb (z =? 0) | None => false end.

(** The token held is still good at the time [now]. *)
Definition tokenValid (now : Z) (service : Service) : bool :=
  truthyString (accessToken service) && truthyNumber (tokenExpiry service)
  && match tokenExpiry service with Some expiry => now <? expiry | None => false end.

(** [String.prototype.split] for a separator of one character. *)
Fixpoint split (sep : ascii) (s : string) : list string :=
  match s with
  | EmptyString => [EmptyString]
  | String c s' =>
      if Ascii.eqb c sep then EmptyString :: split sep s'
      else
        match split sep s' with
        | part :: parts => String c part :: parts
        | [] => [String c EmptyString]
        end
  end.

(** [[a-zA-Z0-9]]. *)
Definition isAlnum (c : ascii) : bool :=
  let n := nat_of_ascii c in
  ((97 <=? n)%nat && (n <=? 122)%nat)
  || ((65 <=? n)%nat && (n <=? 90)%nat)
  || ((48 <=? n)%nat && (n <=? 57)%nat).

(** The longest run of [[a-zA-Z0-9]] at the head of [s]. *)
Fixpoint takeAlnum (s : string) : string :=
  match s with
  | EmptyString => EmptyString
  | String c s' => if isAlnum c then String c (takeAlnum s') else EmptyString
  end.

(** The string without its first [n] characters. *)
Fixpoint drop (n : nat) (s : string) : string :=
  match n, s with
  | O, _ => s
  | S n', String _ s' => drop n' s'
  | S _, EmptyString => EmptyString
  end.

(** [url.match(/playlist\/([a-zA-Z0-9]+)/)]: the first group of the
    leftmost match, [None] when there is no match. *)
Fixpoint matchPlaylist (url : string) : option string :=
  let here :=
    if Str.startsWith url "playlist/"
    then
      let group := takeAlnum (drop 9 url) in
      if Str.truthy group then Some group else None
    else None in
  match here with
  | Some group => Some group
  | None =>
      match url with
      | EmptyString => None
      | String _ url' => matchPlaylist url'
      end
  end.

Definition extractPlaylistId (url : string) : option string :=
  if Str.startsWith url "spotify:playlist:" then split ":" url !! 2%nat
  else matchPlaylist url.

(** [a.join(', ')]. *)
Definition join (names : list string) : string := String.concat ", " names.

(** [images[0]?.url || null]. *)
Definition firstUrl (images : list (option string)) : option string :=
  match images with
  | Some url :: _ => if Str.truthy url then Some url else None
  | _ => None
  end.

Definition transformPlaylistData (spotifyData : ApiPlaylist) : Playlist :=
  let tracks :=
    (fun item =>
       {| name := track_name item;
          artist := join (track_artists item);
          duration_ms := track_duration_ms item;
          albumArt := firstUrl (track_album_images item) |})
    <$> omap (fun item => item) (api_items spotifyData) in
  {| id := api_id spotifyData;
     playlistName := api_name spotifyData;
     description :=
       match api_description spotifyData with
       | Some d => d
       | None => ""
       end;
     image := firstUrl (api_images spotifyData);
     tracks := tracks;
     trackCount := Z.of_nat (length tracks) |}.

Section Service.

Context {api : Api}.

(** [getAccessToken]: [now] is what [Date.now()] gives when the token
    held is checked, [received] what it gives once the answer of the
    token endpoint is there. *)
Definition getAccessToken (env : Environment) (now received : Z)
    (service : Service) : (Error + option string) * Service * list Request :=
  if tokenValid now service then (inr (accessToken service), service, [])
  else
    let clientId := env "REACT_APP_SPOTIFY_CLIENT_ID" in
    let clientSecret := env "REACT_APP_SPOTIFY_CLIENT_SECRET" in
    match clientId, clientSecret with
    | Some clientId, Some clientSecret =>
        if Str.truthy clientId && Str.truthy clientSecret then
          match requestToken clientId clientSecret with
          | TokenThrows message =>
              (inl (FetchError message), service, [EvToken clientId clientSecret])
          | TokenFailed status statusText =>
              (inl (TokenError status statusText), service,
               [EvToken clientId clientSecret])
          | TokenOk access_token expires_in =>
              (inr access_token,
               {| accessToken := access_token;
                  tokenExpiry := Some (received + (expires_in - 300) * 1000) |},
               [EvToken clientId clientSecret])
          end
        else (inl CredentialsMissing, service, [])
    | _, _ => (inl CredentialsMissing, service, [])
    end.

Definition fetchPlaylist (env : Environment) (now received : Z)
    (playlistId : string) (service : Service)
    : (Error + Playlist) * Service * list Request :=
  match getAccessToken env now received service with
  | (inl error, service, ev) => (inl error, service, ev)
  | (inr token, service, ev) =>
      let ev := (ev ++ [EvPlaylist token playlistId])%list in
      match requestPlaylist token playlistId with
      | PlaylistThrows message => (inl (FetchError message), service, ev)
      | PlaylistFailed status statusText =>
          if status =? 404 then (inl PlaylistNotFound, service, ev)
          else if status =? 403 then (inl PlaylistPrivate, service, ev)
          else (inl (PlaylistError status statusText), service, ev)
      | PlaylistOk data => (inr (transformPlaylistData data), service, ev)
      end
  end.

Definition getPlaylistFromUrl (env : Environment) (now received : Z)
    (url : string) (service : Service)
    : (Error + Playlist) * Service * list Request :=
  match extractPlaylistId url with
  | Some playlistId =>
      if Str.truthy playlistId
      then fetchPlaylist env now received playlistId service
      else (inl InvalidUrl, service, [])
  | None => (inl InvalidUrl, service, [])
  end.

End Service.

End Spotify.

(** * The mixtape store *)

Module Cassette.
Record t := mk {
  id : string;
  name : string;
  shell : string;
  inner : string;
  label : string
}.
End Cassette.

Module Background.
Record t := mk {
  id : string;
  color : string
}.
End Background.

Module Font.
Record t := mk {
  id : string;
  name : string;
  family : string
}.
End Font.

Module Supabase.

(** The argument of [createMixtape]. *)
Record MixtapeData := mkMixtapeData {
  spotifyPlaylistId : option string;
  playlistName : string;
  playlistDescription : string;
  playlistImage : option string;
  mixtapeTitle : string;
  senderName : option string;
  personalMessage : option string;
  cassetteColor : Cassette.t;
  backgroundColor : string;
  fontStyle : Font.t;
  tracks : list ResolvedTrack
}.

(** The object [createMixtape] inserts. *)
Record Insert := mkInsert {
  ins_id : string;
  ins_spotify_playlist_id : option string;
  ins_playlist_name : string;
  ins_playlist_description : string;
  ins_playlist_image : option string;
  ins_mixtape_title : string;
  ins_sender_name : option string;
  ins_personal_message : option string;
  ins_cassette_color : Cassette.t;
  ins_background_color : string;
  ins_font_style : Font.t;
  ins_tracks : list ResolvedTrack
}.

(** A row of the table [mixtapes] as a [select('*')] returns it. *)
Record Row := mkRow {
  id : string;
  spotify_playlist_id : option string;
  playlist_name : string;
  playlist_description : string;
  playlist_image : option string;
  mixtape_title : string;
  sender_name : option string;
  personal_message : option string;
  cassette_color : Cassette.t;
  background_color : string;
  font_style : Font.t;
  tracks_column : list ResolvedTrack;
  created_at : string;
  view_count : option Z;
  play_count : option Z
}.

(** The mixtape in the format of the application, as [loadMixtape]
    returns it; the fields that are those of the argument of
    [createMixtape] are grouped as [data]. *)
Record Mixtape := mkMixtape {
  mixtapeId : string;
  data : MixtapeData;
  createdAt : string;
  viewCount : option Z;
  playCount : option Z
}.

(** What the client answers to the insert of [createMixtape]. *)
Inductive InsertResponse :=
  | InsertThrows (message : string)
  | InsertError (message : string)
  | InsertOk.

(** What the client answers to the select of [loadMixtape]. *)
Inductive SelectResponse :=
  | SelectThrows (message : string)
  | SelectError (code message : string)
  | SelectRow (row : Row).

Definition insertOf (mixtapeId : string) (mixtapeData : MixtapeData) : Insert :=
  {| ins_id := mixtapeId;
     ins_spotify_playlist_id := spotifyPlaylistId mixtapeData;
     ins_playlist_name := playlistName mixtapeData;
     ins_playlist_description := playlistDescription mixtapeData;
     ins_playlist_image := playlistImage mixtapeData;
     ins_mixtape_title := mixtapeTitle mixtapeData;
     ins_sender_name := senderName mixtapeData;
     ins_personal_message := personalMessage mixtapeData;
     ins_cassette_color := cassetteColor mixtapeData;
     ins_background_color := backgroundColor mixtapeData;
     ins_font_style := fontStyle mixtapeData;
     ins_tracks := tracks mixtapeData |}.

(** The result [{ id, url, error }] of [createMixtape]; [mixtapeId] is
    what [generateMixtapeId] gave, [origin] is [window.location.origin]. *)
Record Created := mkCreated {
  created_id : option string;
  created_url : option string;
  created_error : option string
}.

Definition createMixtape (origin mixtapeId : string)
    (response : InsertResponse) : Created :=
  match response with
  | InsertThrows message | InsertError message =>
      {| created_id := None; created_url := None;
         created_error := Some message |}
  | InsertOk =>
      {| created_id := Some mixtapeId;
         created_url := Some (origin ++ "/#/mixtape/" ++ mixtapeId);
         created_error := None |}
  end.

(** The result [{ mixtape, error }] of [loadMixtape]. *)
Definition loadMixtape (response : SelectResponse)
    : option Mixtape * option string :=
  match response with
  | SelectThrows message => (None, Some message)
  | SelectError code message =>
      if String.eqb code "PGRST116" then (None, Some "Mixtape not found")
      else (None, Some message)
  | SelectRow row =>
      (Some
         {| mixtapeId := id row;
            data :=
              {| spotifyPlaylistId := spotify_playlist_id row;
                 playlistName := playlist_name row;
                 playlistDescription := playlist_description row;
                 playlistImage := playlist_image row;
                 mixtapeTitle := mixtape_title row;
                 senderName := sender_name row;
                 personalMessage := personal_message row;
                 cassetteColor := cassette_color row;
                 backgroundColor := background_color row;
                 fontStyle := font_style row;
                 tracks := tracks_column row |};
            createdAt := created_at row;
            viewCount := view_count row;
            playCount := play_count row |},
       None)
  end.

End Supabase.

(** * The component *)

Module MixTape.

(* begin hide *)
Local Open Scope Z_scope.
(* end hide *)

Definition CASSETTE_COLORS : list Cassette.t :=
  [Cassette.mk "ocean" "Ocean Blue" "#2C5F8D" "#87CEEB" "#E8F4F8";
   Cassette.mk "lavender" "Lavender" "#8B7BA8" "#B8A8D4" "#F3F0FF";
   Cassette.mk "mint" "Mint" "#4A9B7F" "#98D8C8" "#E8F5F1";
   Cassette.mk "peach" "Peach" "#D4997D" "#FFB69A" "#FFF4EE";
   Cassette.mk "sunset" "Sunset" "#D97941" "#FFB347" "#FFF3E0";
   Cassette.mk "terracotta" "Terracotta" "#B8634F" "#D4896B" "#FFF1EC";
   Cassette.mk "honey" "Honey" "#C8A870" "#E6C896" "#FFF8EC";
   Cassette.mk "burgundy" "Burgundy" "#6B2D3C" "#9A5064" "#F9EDF0";
   Cassette.mk "forest" "Forest" "#2D5016" "#7CB342" "#F1F8E9";
   Cassette.mk "espresso" "Espresso" "#3E2723" "#6D4C41" "#F5F0ED";
   Cassette.mk "smoke" "Smoke" "#1a1a1a" "#4A4A4A" "#F5F5F5";
   Cassette.mk "cream" "Cream" "#C9B8A3" "#E6D9C8" "#FFFBF5"].

Definition BACKGROUND_COLORS : list Background.t :=
  [Background.mk "parchment" "#F5F1E8";
   Background.mk "sage" "#B5C4A1";
   Background.mk "sky" "#C5D9E8";
   Background.mk "blush" "#F4E4E0";
   Background.mk "charcoal" "#545454"].

Definition FONT_STYLES : list Font.t :=
  [Font.mk "typewriter" "Typewriter" "Courier, monospace";
   Font.mk "handwritten" "Handwritten" "'Indie Flower', cursive";
   Font.mk "serif" "Serif" "Georgia, serif";
   Font.mk "modern" "Modern" "Arial, sans-serif";
   Font.mk "retro" "Retro" "'Bungee', cursive"].

Inductive View := landing | create | player.

(** The playlist the component holds. *)
Record Playlist := mkPlaylist {
  id : option string;
  name : string;
  description : string;
  image : option string;
  tracks : list ResolvedTrack
}.

(** A JavaScript number used as an index: an integer, or [NaN]. *)
Inductive Index :=
  | Idx (i : Z)
  | NaN.

(** The state of the component. *)
Record Component := mkComponent {
  view : View;
  playlistData : option Playlist;
  loading : bool;
  error : string;
  selectedColor : Cassette.t;
  selectedBg : Background.t;
  customShellColor : string;
  customInnerColor : string;
  customLabelColor : string;
  isCustomColor : bool;
  customBgColor : string;
  isCustomBg : bool;
  selectedFont : Font.t;
  mixtapeTitle : string;
  personalMessage : string;
  senderName : string;
  currentTrackIndex : Index;
  isPlaying : bool;
  shareableUrl : option string
}.

(** The state [useState] starts with. *)
Definition initial : Component :=
  {| view := landing;
     playlistData := None;
     loading := false;
     error := "";
     selectedColor := Cassette.mk "ocean" "Ocean Blue" "#2C5F8D" "#87CEEB" "#E8F4F8";
     selectedBg := Background.mk "parchment" "#F5F1E8";
     customShellColor := "#2C5F8D";
     customInnerColor := "#87CEEB";
     customLabelColor := "#E8F4F8";
     isCustomColor := false;
     customBgColor := "#F5F1E8";
     isCustomBg := false;
     selectedFont := Font.mk "typewriter" "Typewriter" "Courier, monospace";
     mixtapeTitle := "";
     personalMessage := "";
     senderName := "";
     currentTrackIndex := Idx 0;
     isPlaying := false;
     shareableUrl := None |}.

Definition getCurrentColor (s : Component) : Cassette.t :=
  if isCustomColor s then
    {| Cassette.id := "custom";
       Cassette.name := "Custom";
       Cassette.shell := customShellColor s;
       Cassette.inner := customInnerColor s;
       Cassette.label := customLabelColor s |}
  else selectedColor s.

Definition getCurrentBgColor (s : Component) : string :=
  if isCustomBg s then customBgColor s
  else Background.color (selectedBg s).

(** [s || null] and [s || ''] on a string. *)
Definition orNull (s : string) : option string :=
  if Str.truthy s then Some s else None.

Definition orEmpty (s : option string) : string :=
  match s with
  | Some s => s
  | None => ""
  end.

(** The [mixtapeData] that [handleCreateMixtape] prepares. *)
Definition mixtapeDataOf (s : Component) : Supabase.MixtapeData :=
  {| Supabase.spotifyPlaylistId :=
       Str.orElse (playlistData s ≫= id) None;
     Supabase.playlistName := orEmpty (name <$> playlistData s);
     Supabase.playlistDescription := orEmpty (description <$> playlistData s);
     Supabase.playlistImage := Str.orElse (playlistData s ≫= image) None;
     Supabase.mixtapeTitle := mixtapeTitle s;
     Supabase.senderName := orNull (senderName s);
     Supabase.personalMessage := orNull (personalMessage s);
     Supabase.cassetteColor := getCurrentColor s;
     Supabase.backgroundColor := getCurrentBgColor s;
     Supabase.fontStyle := selectedFont s;
     Supabase.tracks :=
       match playlistData s with
       | Some playlist => tracks playlist
       | None => []
       end |}.

(** The setters [handleCreateMixtape] and [loadSharedMixtape] end with. *)
Definition finish (view' : View) (error' : string) (url : option string)
    (s : Component) : Component :=
  {| view := view';
     playlistData := playlistData s;
     loading := false;
     error := error';
     selectedColor := selectedColor s;
     selectedBg := selectedBg s;
     customShellColor := customShellColor s;
     customInnerColor := customInnerColor s;
     customLabelColor := customLabelColor s;
     isCustomColor := isCustomColor s;
     customBgColor := customBgColor s;
     isCustomBg := isCustomBg s;
     selectedFont := selectedFont s;
     mixtapeTitle := mixtapeTitle s;
     personalMessage := personalMessage s;
     senderName := senderName s;
     currentTrackIndex := currentTrackIndex s;
     isPlaying := isPlaying s;
     shareableUrl := url |}.

(** [handleCreateMixtape]: the new state and the path it navigates to.
    [created] is what [createMixtape] returned for [mixtapeDataOf s]. *)
Definition handleCreateMixtape (created : Supabase.Created) (s : Component)
    : Component * option string :=
  match created with
  | {| Supabase.created_id := newId; Supabase.created_url := url;
       Supabase.created_error := saveError |} =>
      if truthyString saveError then
        (finish (view s) ("Failed to create mixtape: " ++ orEmpty saveError)
           (shareableUrl s) s, None)
      else
        (finish player "" url s,
         Some ("/mixtape/" ++ match newId with Some i => i | None => "null" end))
  end.

(** The setters of the success branch of [loadSharedMixtape]. *)
Definition restore (origin mixtapeId : string) (mixtape : Supabase.MixtapeData)
    (s : Component) : Component :=
  let custom := String.eqb (Cassette.id (Supabase.cassetteColor mixtape)) "custom" in
  let colorMatch :=
    List.find (fun c => String.eqb (Cassette.id c)
                     (Cassette.id (Supabase.cassetteColor mixtape)))
         CASSETTE_COLORS in
  let bgMatch :=
    List.find (fun b => String.eqb (Background.color b)
                     (Supabase.backgroundColor mixtape))
         BACKGROUND_COLORS in
  let fontMatch :=
    List.find (fun f => String.eqb (Font.id f) (Font.id (Supabase.fontStyle mixtape)))
         FONT_STYLES in
  {| view := player;
     playlistData :=
       Some {| id := Supabase.spotifyPlaylistId mixtape;
               name := Supabase.playlistName mixtape;
               description := Supabase.playlistDescription mixtape;
               image := Supabase.playlistImage mixtape;
               tracks := Supabase.tracks mixtape |};
     loading := false;
     error := "";
     selectedColor :=
       if custom then selectedColor s
       else match colorMatch with
            | Some c => c
            | None => selectedColor s
            end;
     selectedBg :=
       match bgMatch with
       | Some b => b
       | None => selectedBg s
       end;
     customShellColor :=
       if custom then Cassette.shell (Supabase.cassetteColor mixtape)
       else customShellColor s;
     customInnerColor :=
       if custom then Cassette.inner (Supabase.cassetteColor mixtape)
       else customInnerColor s;
     customLabelColor :=
       if custom then Cassette.label (Supabase.cassetteColor mixtape)
       else customLabelColor s;
     isCustomColor := if custom then true else isCustomColor s;
     customBgColor :=
       match bgMatch with
       | Some _ => customBgColor s
       | None => Supabase.backgroundColor mixtape
       end;
     isCustomBg :=
       match bgMatch with
       | Some _ => false
       | None => true
       end;
     selectedFont :=
       match fontMatch with
       | Some f => f
       | None => selectedFont s
       end;
     mixtapeTitle := Supabase.mixtapeTitle mixtape;
     personalMessage :=
       orEmpty (Str.orElse (Supabase.personalMessage mixtape) None);
     senderName := orEmpty (Str.orElse (Supabase.senderName mixtape) None);
     currentTrackIndex := currentTrackIndex s;
     isPlaying := isPlaying s;
     shareableUrl := Some (origin ++ "/#/mixtape/" ++ mixtapeId) |}.

(** [loadSharedMixtape], the effect of the route parameter [mixtapeId];
    [response] is what the store answers to [loadMixtape].  A [mixtape]
    that is [null] without an error makes the first setter throw, which
    the [catch] turns into the last message. *)
Definition loadSharedMixtape (origin : string) (mixtapeId : option string)
    (response : Supabase.SelectResponse) (s : Component) : Component :=
  match mixtapeId with
  | None => s
  | Some mixtapeId =>
      if Str.truthy mixtapeId then
        let '(mixtape, loadError) := Supabase.loadMixtape response in
        if truthyString loadError then
          finish landing
            (if String.eqb (orEmpty loadError) "Mixtape not found"
             then "This mixtape does not exist or has been removed."
             else "Failed to load mixtape: " ++ orEmpty loadError)
            (shareableUrl s) s
        else
          match mixtape with
          | Some mixtape => restore origin mixtapeId (Supabase.data mixtape) s
          | None =>
              finish landing
                "An unexpected error occurred while loading this mixtape."
                (shareableUrl s) s
          end
      else s
  end.

(** ** The player *)

(** [a + k] and [a % n] on an index. *)
Definition plus (a : Index) (k : Z) : Index :=
  match a with
  | Idx i => Idx (i + k)
  | NaN => NaN
  end.

Definition remainder (a : Index) (n : Z) : Index :=
  match a with
  | Idx i => if n =? 0 then NaN else Idx (Z.rem i n)
  | NaN => NaN
  end.

(** [tracks[index]?.youtubeId] is truthy. *)
Definition playable (tracks : list ResolvedTrack) (index : Index) : bool :=
  match index with
  | Idx i =>
      if i <? 0 then false
      else
        match tracks !! Z.to_nat i with
        | Some track => truthyString (youtubeId track)
        | None => false
        end
  | NaN => false
  end.

(** The step of [handleNext] and the step of [handlePrevious] for a list
    of [n] tracks. *)
Definition next (n : Z) (index : Index) : Index :=
  remainder (plus index 1) n.

Definition previous (n : Z) (index : Index) : Index :=
  match index with
  | Idx 0 => Idx (n - 1)
  | _ => plus index (-1)
  end.

(** The [while] loop of [handleNext] and of [handlePrevious]:
    [remaining] is [tracks.length - attempts]. *)
Fixpoint skip (step : Index -> Index) (tracks : list ResolvedTrack)
    (remaining : nat) (index : Index) : Index :=
  if playable tracks index then index
  else
    match remaining with
    | O => index
    | S remaining' => skip step tracks remaining' (step index)
    end.

Definition setPlayer (index : Index) (playing : bool) (s : Component)
    : Component :=
  {| view := view s;
     playlistData := playlistData s;
     loading := loading s;
     error := error s;
     selectedColor := selectedColor s;
     selectedBg := selectedBg s;
     customShellColor := customShellColor s;
     customInnerColor := customInnerColor s;
     customLabelColor := customLabelColor s;
     isCustomColor := isCustomColor s;
     customBgColor := customBgColor s;
     isCustomBg := isCustomBg s;
     selectedFont := selectedFont s;
     mixtapeTitle := mixtapeTitle s;
     personalMessage := personalMessage s;
     senderName := senderName s;
     currentTrackIndex := index;
     isPlaying := playing;
     shareableUrl := shareableUrl s |}.

Definition handleNext (s : Component) : Component :=
  match playlistData s with
  | None => s
  | Some playlist =>
      let n := Z.of_nat (length (tracks playlist)) in
      let nextIndex := next n (currentTrackIndex s) in
      setPlayer (skip (next n) (tracks playlist) (length (tracks playlist))
                   nextIndex)
                false s
  end.

Definition handlePrevious (s : Component) : Component :=
  match playlistData s with
  | None => s
  | Some playlist =>
      let n := Z.of_nat (length (tracks playlist)) in
      let prevIndex := previous n (currentTrackIndex s) in
      setPlayer (skip (previous n) (tracks playlist) (length (tracks playlist))
                   prevIndex)
                false s
  end.



(** ** Importing a playlist *)

(** The query of a track of the playlist. *)
Definition toQuery (t : Spotify.PlaylistTrack) : Track.t :=
  Track.mk (Spotify.name t) (Spotify.artist t) (Spotify.duration_ms t).

Section PlaylistImport.

Context {number : Number} {provider : Provider} {api : Spotify.Api}.

(** [fetchPlaylistData]: the component, the two services, and the
    requests and events caused.  The progress shown while the tracks
    are matched is the sequence of the events [EvProgress]. *)
Definition fetchPlaylistData (env : Environment) (now received : Z)
    (url : string) (s : Component) (service : Spotify.Service) (st : State)
    : Component * Spotify.Service * State * list Spotify.Request * list Event :=
  match Spotify.getPlaylistFromUrl env now received url service with
  | (inl err, service', requests) =>
      let message :=
        if Str.truthy (Spotify.message err) then Spotify.message err
        else "Could not load playlist. Please check the URL and try again." in
      (finish (view s) message (shareableUrl s) s, service', st, requests, [])
  | (inr playlist, service', requests) =>
      let '(tracksWithYouTube, st', ev) :=
        searchTracks (toQuery <$> Spotify.tracks playlist) true st in
      ({| view := create;
          playlistData :=
            Some {| id := Some (Spotify.id playlist);
                    name := Spotify.playlistName playlist;
                    description := Spotify.description playlist;
                    image := Spotify.image playlist;
                    tracks := tracksWithYouTube |};
          loading := false;
          error := "";
          selectedColor := selectedColor s;
          selectedBg := selectedBg s;
          customShellColor := customShellColor s;
          customInnerColor := customInnerColor s;
          customLabelColor := customLabelColor s;
          isCustomColor := isCustomColor s;
          customBgColor := customBgColor s;
          isCustomBg := isCustomBg s;
          selectedFont := selectedFont s;
          mixtapeTitle := Spotify.playlistName playlist;
          personalMessage := personalMessage s;
          senderName := senderName s;
          currentTrackIndex := currentTrackIndex s;
          isPlaying := isPlaying s;
          shareableUrl := shareableUrl s |},
       service', st', requests, ev)
  end.

End PlaylistImport.

End MixTape.

(** * Vocabulary of the further statements *)

(** The query sent to the providers for a track. *)
Definition queryOf (trackName artistName : string) : string :=
  artistName ++ " - " ++ trackName ++ " official audio".

(** The numbered slot [i] of the environment, when it is set and not
    empty. *)
Definition slot (env : Environment) (i : nat) : option string :=
  match env ("REACT_APP_YOUTUBE_API_KEY_" ++ decimal i) with
  | Some key => if Str.truthy key then Some key else None
  | None => None
  end.

(** The usable numbered slots, in the order of their numbers. *)
Definition numberedKeys (env : Environment) : list string :=
  omap (slot env) (seq 1 10).

(** The slot of the old format, when it is set and not empty. *)
Definition legacyKey (env : Environment) : list string :=
  match env "REACT_APP_YOUTUBE_API_KEY" with
  | Some key => if Str.truthy key then [key] else []
  | None => []
  end.

(** The search endpoint refuses a request for lack of quota. *)
Definition quotaRefusal (r : SearchResponse) : Prop :=
  exists status, r = SearchFailed status (Some "quotaExceeded").

(** The service after a list of queries has been resolved one after the
    other. *)
Fixpoint serviceAfter {number : Number} {provider : Provider}
    (queries : list Track.t) (st : State) : State :=
  match queries with
  | [] => st
  | q :: later =>
      serviceAfter later
        (stateOf (searchTrack (Track.name q) (Track.artist q)
                    (Track.duration_ms q) st))
  end.

(** [st'] has the pool and the store connection of [st], and its cursor
    is in range when that of [st] is. *)
Definition keepsPool (st st' : State) : Prop :=
  apiKeys st' = apiKeys st /\
  storeReachable st' = storeReachable st /\
  (cursorInRange st -> cursorInRange st').

(** Both tiers of [st'] hold what those of [st] hold: every entry of the
    memory tier is there unchanged, and the durable table starts with
    the rows it had. *)
Definition keepsEntries (st st' : State) : Prop :=
  cache st ⊆ cache st' /\
  youtube_cache st `prefix_of` youtube_cache st'.

(** A name without a backslash, the escape character of [LIKE]. *)
Definition plain (s : string) : Prop :=
  ~ In "\"%char (list_ascii_of_string s).

(** Neither tier holds the query. *)
Definition missesBoth (trackName artistName : string) (st : State) : Prop :=
  cache st !! cacheKeyOf trackName artistName = None /\
  resultOf (checkDatabaseCache trackName artistName st) = None.

(** Two services with the same memory tier and the same key pool; their
    durable tables may differ. *)
Definition sameService (st1 st2 : State) : Prop :=
  cache st1 = cache st2 /\
  currentKeyIndex st1 = currentKeyIndex st2 /\
  apiKeys st1 = apiKeys st2.

(** A mirror that gives no list of results: no answer, or an answer that
    is not [ok]. *)
Definition mirrorDown (r : MirrorResponse) : Prop :=
  match r with MirrorResults _ => False | _ => True end.

(** The requests sent to the instances [instances] for a query, in
    order. *)
Definition mirrorRequests (instances : list string) (trackName artistName : string)
    : list MirrorEvent :=
  (fun instance => EvMirror instance (queryOf trackName artistName)) <$> instances.

(** Every character of [s] is one of [[a-zA-Z0-9]]. *)
Fixpoint allAlnum (s : string) : bool :=
  match s with
  | EmptyString => true
  | String c s' => Spotify.isAlnum c && allAlnum s'
  end.

(** [s] does not go on with a character of [[a-zA-Z0-9]]. *)
Definition headNotAlnum (s : string) : Prop :=
  match s with
  | EmptyString => True
  | String c _ => Spotify.isAlnum c = false
  end.

(** The buttons of the player. *)
Inductive Button := Next | Previous.

Definition press (s : MixTape.Component) (b : Button) : MixTape.Component :=
  match b with
  | Next => MixTape.handleNext s
  | Previous => MixTape.handlePrevious s
  end.

(** The component holds [tracks] and its current index is [i], an index
    of the list. *)
Definition playing (s : MixTape.Component) (tracks : list ResolvedTrack)
    (i : Z) : Prop :=
  (exists playlist,
     MixTape.playlistData s = Some playlist /\
     MixTape.tracks playlist = tracks) /\
  MixTape.currentTrackIndex s = MixTape.Idx i /\
  0 <= i < Z.of_nat (length tracks).

(** The track at the index [i] modulo the number of tracks can be
    played. *)
Definition playableAt (tracks : list ResolvedTrack) (i : Z) : bool :=
  MixTape.playable tracks (MixTape.Idx (i mod Z.of_nat (length tracks))).

(** The presets the component has selected are entries of the lists of
    presets, as they are at the start and after every choice in the
    editor. *)
Definition presetsSelected (s : MixTape.Component) : Prop :=
  In (MixTape.selectedColor s) MixTape.CASSETTE_COLORS /\
  In (MixTape.selectedFont s) MixTape.FONT_STYLES.

(** The row holds, column by column, what was inserted. *)
Definition stored (row : Supabase.Row) (inserted : Supabase.Insert) : Prop :=
  Supabase.id row = Supabase.ins_id inserted /\
  Supabase.spotify_playlist_id row = Supabase.ins_spotify_playlist_id inserted /\
  Supabase.playlist_name row = Supabase.ins_playlist_name inserted /\
  Supabase.playlist_description row = Supabase.ins_playlist_description inserted /\
  Supabase.playlist_image row = Supabase.ins_playlist_image inserted /\
  Supabase.mixtape_title row = Supabase.ins_mixtape_title inserted /\
  Supabase.sender_name row = Supabase.ins_sender_name inserted /\
  Supabase.personal_message row = Supabase.ins_personal_message inserted /\
  Supabase.cassette_color row = Supabase.ins_cassette_color inserted /\
  Supabase.background_color row = Supabase.ins_background_color inserted /\
  Supabase.font_style row = Supabase.ins_font_style inserted /\
  Supabase.tracks_column row = Supabase.ins_tracks inserted.

(** What the component shows of a mixtape. *)
Record Shown := mkShown {
  shownColor : Cassette.t;
  shownBackground : string;
  shownFont : Font.t;
  shownTitle : string;
  shownSender : string;
  shownMessage : string;
  shownTracks : list ResolvedTrack
}.

Definition shown (s : MixTape.Component) : Shown :=
  {| shownColor := MixTape.getCurrentColor s;
     shownBackground := MixTape.getCurrentBgColor s;
     shownFont := MixTape.selectedFont s;
     shownTitle := MixTape.mixtapeTitle s;
     shownSender := MixTape.senderName s;
     shownMessage := MixTape.personalMessage s;
     shownTracks :=
       match MixTape.playlistData s with
       | Some playlist => MixTape.tracks playlist
       | None => []
       end |}.

(** The answer of the store holds no row. *)
Definition noRow (response : Supabase.SelectResponse) : Prop :=
  match response with Supabase.SelectRow _ => False | _ => True end.

(** * Samples *)

Module Sample.

(** An environment without any key. *)
Definition noKeys : Environment := fun _ => None.

(** A provider whose first key is out of quota and whose other keys
    answer like [Fixture.working]. *)
Definition firstKeySpent (key : option string) (query : string) : SearchResponse :=
  match key with
  | Some key =>
      if String.eqb key "key-one" then SearchFailed 403 (Some "quotaExceeded")
      else SearchItems (Some ["vid-B"; "vid-A"])
  | None => SearchFailed 400 None
  end.

Definition oneKeySpent : Provider :=
  {| fetchSearch := firstKeySpent; fetchDetails := Fixture.foundDetails |}.

(** The match of the scoring example. *)
Definition officialAudioMatch : MatchResult :=
  {| videoId := "vid-A";
     title := "Artist - Track (Official Audio)";
     duration := 200000;
     thumbnailUrl := None;
     channelTitle := "Artist" |}.

(** Mirrors of which the first gives no answer, the second an answer
    that is not [ok], and the third the two candidates of the scoring
    example. *)
Definition thirdMirrorUp : Mirrors :=
  {| fetchMirror := fun instance query =>
       if String.eqb instance "https://invidious.fdn.fr" then MirrorThrows
       else if String.eqb instance "https://inv.riverside.rocks"
            then MirrorFailed 502
            else MirrorResults
                   (Some [Fixture.liveVersionMirror; Fixture.officialAudioMirror]) |}.

Definition mirrorsDown : Mirrors :=
  {| fetchMirror := fun instance query => MirrorFailed 503 |}.

(** The playlist service with credentials, and an API that grants a
    token for an hour. *)
Definition credentials : Environment := fun name =>
  if String.eqb name "REACT_APP_SPOTIFY_CLIENT_ID" then Some "client"
  else if String.eqb name "REACT_APP_SPOTIFY_CLIENT_SECRET" then Some "secret"
  else None.

Definition hourToken : Spotify.Api :=
  {| Spotify.requestToken := fun clientId clientSecret =>
       Spotify.TokenOk (Some "token-1") 3600;
     Spotify.requestPlaylist := fun token playlistId =>
       Spotify.PlaylistFailed 404 "Not Found" |}.

(** An API that returns a playlist of two songs around a deleted one. *)
Definition twoSongs : Spotify.Api :=
  {| Spotify.requestToken := fun clientId clientSecret =>
       Spotify.TokenOk (Some "token-1") 3600;
     Spotify.requestPlaylist := fun token playlistId =>
       Spotify.PlaylistOk
         {| Spotify.api_id := playlistId;
            Spotify.api_name := "Road trip";
            Spotify.api_description := None;
            Spotify.api_images := [];
            Spotify.api_items :=
              [Some (Spotify.mkApiTrack "Track" ["Artist"] 200000 []);
               None;
               Some (Spotify.mkApiTrack "Missing" ["Artist"; "Guest"] 200000
                       [Some "https://i.scdn.co/image/1"])] |} |}.

(** A playlist of three tracks of which the second has no video, one
    without any video, and one without any track. *)
Definition threeTracks : list ResolvedTrack :=
  [annotate (Track.mk "Track" "Artist" 200000) (Some officialAudioMatch);
   unmatched (Track.mk "Missing" "Artist" 200000);
   annotate (Track.mk "Track (single)" "Artist" 201000) (Some officialAudioMatch)].

Definition noVideos : list ResolvedTrack :=
  [unmatched (Track.mk "Missing" "Artist" 200000);
   unmatched (Track.mk "Gone" "Artist" 180000)].

(** The component in the player view on the first track of [tracks]. *)
Definition playerOf (tracks : list ResolvedTrack) : MixTape.Component :=
  {| MixTape.view := MixTape.player;
     MixTape.playlistData :=
       Some {| MixTape.id := Some "37i9dQZF1DXcBWIGoYBM5M";
               MixTape.name := "Road trip";
               MixTape.description := "";
               MixTape.image := None;
               MixTape.tracks := tracks |};
     MixTape.loading := false;
     MixTape.error := "";
     MixTape.selectedColor := MixTape.selectedColor MixTape.initial;
     MixTape.selectedBg := MixTape.selectedBg MixTape.initial;
     MixTape.customShellColor := "#2C5F8D";
     MixTape.customInnerColor := "#87CEEB";
     MixTape.customLabelColor := "#E8F4F8";
     MixTape.isCustomColor := false;
     MixTape.customBgColor := "#102030";
     MixTape.isCustomBg := true;
     MixTape.selectedFont := MixTape.selectedFont MixTape.initial;
     MixTape.mixtapeTitle := "Road trip";
     MixTape.personalMessage := "";
     MixTape.senderName := "Sam";
     MixTape.currentTrackIndex := MixTape.Idx 0;
     MixTape.isPlaying := false;
     MixTape.shareableUrl := None |}.

(** The same with the custom cassette colours chosen. *)
Definition customColours : MixTape.Component :=
  MixTape.restore "https://mixtape.love" "m1"
    {| Supabase.spotifyPlaylistId := None;
       Supabase.playlistName := "";
       Supabase.playlistDescription := "";
       Supabase.playlistImage := None;
       Supabase.mixtapeTitle := "Other";
       Supabase.senderName := None;
       Supabase.personalMessage := None;
       Supabase.cassetteColor := Cassette.mk "custom" "Custom" "#111111" "#222222" "#333333";
       Supabase.backgroundColor := "#F5F1E8";
       Supabase.fontStyle := Font.mk "serif" "Serif" "Georgia, serif";
       Supabase.tracks := [] |}
    MixTape.initial.

(** The row the store holds for an insert. *)
Definition rowOf (inserted : Supabase.Insert) : Supabase.Row :=
  {| Supabase.id := Supabase.ins_id inserted;
     Supabase.spotify_playlist_id := Supabase.ins_spotify_playlist_id inserted;
     Supabase.playlist_name := Supabase.ins_playlist_name inserted;
     Supabase.playlist_description := Supabase.ins_playlist_description inserted;
     Supabase.playlist_image := Supabase.ins_playlist_image inserted;
     Supabase.mixtape_title := Supabase.ins_mixtape_title inserted;
     Supabase.sender_name := Supabase.ins_sender_name inserted;
     Supabase.personal_message := Supabase.ins_personal_message inserted;
     Supabase.cassette_color := Supabase.ins_cassette_color inserted;
     Supabase.background_color := Supabase.ins_background_color inserted;
     Supabase.font_style := Supabase.ins_font_style inserted;
     Supabase.tracks_column := Supabase.ins_tracks inserted;
     Supabase.created_at := "2025-01-01T00:00:00Z";
     Supabase.view_count := Some 0;
     Supabase.play_count := Some 0 |}.

End Sample.
(** * Properties *)

Ltac unfold_method :=
  unfold bind, get, ret, modify, emit in *; simpl in *.

(** ** Key pool *)

Lemma getCurrentApiKey_state st :
  stateOf (getCurrentApiKey st) = st /\ eventsOf (getCurrentApiKey st) = [].
Proof.
  unfold getCurrentApiKey. unfold_method.
  destruct (length (apiKeys st) =? 0)%nat; auto.
Qed.

Lemma rotateApiKey_eq st :
  rotateApiKey st =
    if (1 <? length (apiKeys st))%nat
    then (true,
          setCurrentKeyIndex
            ((currentKeyIndex st + 1) mod length (apiKeys st))%nat st, [])
    else (false, st, []).
Proof.
  unfold rotateApiKey. unfold_method.
  destruct (Nat.leb_spec (length (apiKeys st)) 1),
           (Nat.ltb_spec 1 (length (apiKeys st))); try lia; reflexivity.
Qed.

Lemma rotateApiKey_keys st : apiKeys (stateOf (rotateApiKey st)) = apiKeys st.
Proof. rewrite rotateApiKey_eq. destruct (_ <? _)%nat; reflexivity. Qed.

Lemma rotateApiKey_inRange st :
  cursorInRange st -> cursorInRange (stateOf (rotateApiKey st)).
Proof.
  intros H. rewrite rotateApiKey_eq.
  destruct (Nat.ltb_spec 1 (length (apiKeys st))); [|exact H].
  unfold cursorInRange, stateOf; simpl. intros _.
  apply Nat.mod_upper_bound. lia.
Qed.

Lemma runPoolOp_inRange op st :
  cursorInRange st -> cursorInRange (stateOf (runPoolOp op st)).
Proof.
  intros H. destruct op; unfold runPoolOp, bind, ret.
  - pose proof (getCurrentApiKey_state st) as [Hs _].
    destruct (getCurrentApiKey st) as [[k st1] ev]. unfold stateOf in *.
    simpl in *. now subst.
  - pose proof (rotateApiKey_inRange st H) as Hr.
    destruct (rotateApiKey st) as [[k st1] ev]. exact Hr.
Qed.

Lemma runPoolOps_inRange ops : forall st,
  cursorInRange st -> cursorInRange (stateOf (runPoolOps ops st)).
Proof.
  induction ops as [|op ops IH]; intros st H; [exact H|].
  simpl. unfold bind.
  pose proof (runPoolOp_inRange op st H) as H1.
  destruct (runPoolOp op st) as [[u st1] ev1].
  specialize (IH st1 H1).
  destruct (runPoolOps ops st1) as [[u2 st2] ev2]. exact IH.
Qed.

Lemma newService_inRange env table reachable :
  cursorInRange (newService env table reachable).
Proof. unfold cursorInRange; simpl; auto. Qed.

(** C6: from the state the constructor builds, after any sequence of
    [getCurrentApiKey] and [rotateApiKey] calls the cursor is below the
    number of keys whenever there is a key; [rotateApiKey] moves the
    cursor to the next position modulo the number of keys and answers
    [true] when there are two keys or more, and answers [false] without
    touching the state when there is at most one. *)
Theorem keypool_cursor_invariant :
  (forall env table reachable ops,
     let st := stateOf (runPoolOps ops (newService env table reachable)) in
     (0 < length (apiKeys st))%nat ->
     (0 <= currentKeyIndex st < length (apiKeys st))%nat) /\
  (forall st,
     (1 < length (apiKeys st))%nat ->
     resultOf (rotateApiKey st) = true /\
     currentKeyIndex (stateOf (rotateApiKey st)) =
       ((currentKeyIndex st + 1) mod length (apiKeys st))%nat /\
     apiKeys (stateOf (rotateApiKey st)) = apiKeys st) /\
  (forall st,
     (length (apiKeys st) <= 1)%nat ->
     resultOf (rotateApiKey st) = false /\ stateOf (rotateApiKey st) = st).
Proof.
  split; [|split].
  - intros env table reachable ops st Hpos. split; [lia|].
    apply (runPoolOps_inRange ops _ (newService_inRange env table reachable)).
    exact Hpos.
  - intros st Hn. rewrite rotateApiKey_eq.
    destruct (Nat.ltb_spec 1 (length (apiKeys st))); [|lia]. auto.
  - intros st Hn. rewrite rotateApiKey_eq.
    destruct (Nat.ltb_spec 1 (length (apiKeys st))); [lia|]. auto.
Qed.

(** The constructor only keeps keys that are set and not empty. *)
Lemma loadApiKeys_truthy env :
  Forall (fun key => Str.truthy key = true) (loadApiKeys env).
Proof.
  unfold loadApiKeys, forEach.
  set (push := fun (acc : list string) (i : nat) =>
         match env ("REACT_APP_YOUTUBE_API_KEY_" ++ decimal i) with
         | Some key => if Str.truthy key then (acc ++ [key])%list else acc
         | None => acc
         end).
  assert (Hfold : forall slots acc,
             Forall (fun key => Str.truthy key = true) acc ->
             Forall (fun key => Str.truthy key = true) (fold_left push slots acc)).
  { induction slots as [|i slots IH]; intros acc Hacc; [exact Hacc|].
    simpl. apply IH. unfold push.
    destruct (env _) as [key|]; [|exact Hacc].
    destruct (Str.truthy key) eqn:Hkey; [|exact Hacc].
    apply Forall_app. split; [exact Hacc|]. repeat constructor. exact Hkey. }
  specialize (Hfold (seq 1 10) [] ltac:(constructor)).
  destruct (fold_left push (seq 1 10) []) as [|k ks]; [|exact Hfold].
  destruct (env "REACT_APP_YOUTUBE_API_KEY") as [key|]; [|constructor].
  destruct (Str.truthy key) eqn:Hkey; repeat constructor. exact Hkey.
Qed.

Lemma newService_keysTruthy env table reachable :
  keysTruthy (newService env table reachable).
Proof. apply loadApiKeys_truthy. Qed.

Lemma keypool_cursor_invariant_witness :
  let st :=
    stateOf (runPoolOps [OpRotate; OpCurrent; OpRotate; OpRotate; OpRotate]
               (newService Fixture.threeKeys [] true)) in
  (0 <= currentKeyIndex st < length (apiKeys st))%nat /\
  resultOf (rotateApiKey st) = true /\
  resultOf (rotateApiKey (newService Fixture.oneKey [] true)) = false.
Proof.
  intros st.
  destruct keypool_cursor_invariant as (Hrange & Hmany & Hone).
  split; [|split].
  - apply (Hrange Fixture.threeKeys [] true
             [OpRotate; OpCurrent; OpRotate; OpRotate; OpRotate]).
    vm_compute. lia.
  - apply (Hmany st). vm_compute. lia.
  - apply (Hone (newService Fixture.oneKey [] true)). vm_compute. lia.
Defined.

(** ** The resolver *)

Section ResolverFacts.

Context {number : Number} {provider : Provider}.


Lemma searchTrackLoop_eq t a d key maxAttempts attempts st :
  searchTrackLoop t a d key maxAttempts attempts st =
    if (attempts <? maxAttempts)%nat then
      match searchTrackPass t a d key st with
      | (Return result, st1, ev1) => (result, st1, ev1)
      | (Continue, st1, ev1) =>
          let '(result, st2, ev2) :=
            searchTrackLoop t a d key maxAttempts (S attempts) st1 in
          (result, st2, (ev1 ++ ev2)%list)
      end
    else (None, st, []).
Proof.
  simp searchTrackLoop.
  destruct (lt_dec attempts maxAttempts) as [Hlt|Hge]; simpl.
  - destruct (Nat.ltb_spec attempts maxAttempts); [|lia].
    destruct (searchTrackPass t a d key st) as [[[r|] st1] ev1]; reflexivity.
  - destruct (Nat.ltb_spec attempts maxAttempts); [lia|]. reflexivity.
Qed.

Lemma searchWithYouTube_state t a d st :
  stateOf (searchWithYouTube t a d st) = st.
Proof.
  unfold searchWithYouTube, bind.
  pose proof (getCurrentApiKey_state st) as [Hs _].
  destruct (getCurrentApiKey st) as [[apiKey st1] ev1].
  unfold stateOf in *; simpl in Hs; subst st1. unfold emit, ret; simpl.
  destruct (fetchSearch apiKey _) as [|status [reason|]|[[|item items]|]];
    simpl; try reflexivity.
  - destruct (String.eqb reason "quotaExceeded"); reflexivity.
  - destruct (fetchDetails apiKey _); reflexivity.
Qed.

(** The save to the durable table leaves the service object alone. *)
Lemma saveToDatabaseCache_service t a d r st :
  let st' := stateOf (saveToDatabaseCache t a d r st) in
  cache st' = cache st /\ currentKeyIndex st' = currentKeyIndex st /\
  apiKeys st' = apiKeys st /\ storeReachable st' = storeReachable st.
Proof.
  unfold saveToDatabaseCache. unfold_method.
  destruct (storeReachable st) eqn:E; simpl; rewrite ?E; auto.
Qed.

Lemma searchTrackPass_eq t a d key st :
  searchTrackPass t a d key st =
    match searchWithYouTube t a d st with
    | (inr (Some result), _, ev) =>
        let saved :=
          saveToDatabaseCache t a d result (setCache (<[key := result]>) st) in
        (Return (Some result), stateOf saved, (ev ++ eventsOf saved)%list)
    | (inr None, _, ev) => (Return None, st, ev)
    | (inl error, _, ev) =>
        if quotaExceeded error && (1 <? length (apiKeys st))%nat
        then (Continue,
              setCurrentKeyIndex
                ((currentKeyIndex st + 1) mod length (apiKeys st))%nat st, ev)
        else (Return None, st, ev)
    end.
Proof.
  unfold searchTrackPass, bind.
  pose proof (searchWithYouTube_state t a d st) as Hst.
  destruct (searchWithYouTube t a d st) as [[outcome st1] ev].
  unfold stateOf in Hst; simpl in Hst; subst st1.
  destruct outcome as [error|[result|]].
  - destruct (quotaExceeded error); simpl.
    + rewrite rotateApiKey_eq.
      destruct (1 <? length (apiKeys st))%nat; simpl;
        rewrite ?app_nil_r; reflexivity.
    + rewrite app_nil_r. reflexivity.
  - unfold modify, ret. simpl.
    destruct (saveToDatabaseCache t a d result _) as [[u st2] ev2].
    unfold stateOf, eventsOf. simpl. rewrite app_nil_r. reflexivity.
  - unfold ret. simpl. rewrite app_nil_r. reflexivity.
Qed.

Lemma searchTrackPass_keys t a d key st :
  apiKeys (stateOf (searchTrackPass t a d key st)) = apiKeys st.
Proof.
  rewrite searchTrackPass_eq.
  destruct (searchWithYouTube t a d st) as [[[error|[result|]] st1] ev];
    simpl; try reflexivity.
  - destruct (_ && _); reflexivity.
  - unfold stateOf at 1. simpl.
    destruct (saveToDatabaseCache_service t a d result
                (setCache (<[key := result]>) st)) as (_ & _ & Hk & _).
    exact Hk.
Qed.

(** A pass that returns a match has put it in the memory tier. *)
Lemma searchTrackPass_cached t a d key st r :
  resultOf (searchTrackPass t a d key st) = Return (Some r) ->
  cache (stateOf (searchTrackPass t a d key st)) !! key = Some r.
Proof.
  rewrite searchTrackPass_eq.
  destruct (searchWithYouTube t a d st) as [[[error|[result|]] st1] ev];
    simpl.
  - destruct (_ && _); discriminate.
  - intros [= ->].
    destruct (saveToDatabaseCache_service t a d r
                (setCache (<[key := r]>) st)) as [Hc _].
    unfold stateOf in *. simpl in *. rewrite Hc. apply lookup_insert_eq.
  - discriminate.
Qed.

Lemma searchTrackLoop_cached t a d key maxAttempts r :
  forall n attempts st,
    (maxAttempts - attempts = n)%nat ->
    resultOf (searchTrackLoop t a d key maxAttempts attempts st) = Some r ->
    cache (stateOf (searchTrackLoop t a d key maxAttempts attempts st)) !! key
      = Some r.
Proof.
  induction n as [|n IH]; intros attempts st Hn;
    rewrite searchTrackLoop_eq;
    destruct (Nat.ltb_spec attempts maxAttempts); try lia;
    try discriminate.
  pose proof (searchTrackPass_cached t a d key st) as Hpass.
  destruct (searchTrackPass t a d key st) as [[[result|] st1] ev1].
  - unfold resultOf, stateOf in *. simpl in *.
    intros ->. now apply Hpass.
  - specialize (IH (S attempts) st1 ltac:(lia)).
    destruct (searchTrackLoop t a d key maxAttempts (S attempts) st1)
      as [[result st2] ev2].
    exact IH.
Qed.

Lemma checkDatabaseCache_state t a st :
  stateOf (checkDatabaseCache t a st) = st /\
  eventsOf (checkDatabaseCache t a st) = [EvSelect t a].
Proof.
  unfold checkDatabaseCache. unfold_method.
  destruct (storeReachable st); [destruct (selectRows _ _ _)|]; auto.
Qed.

(** A hit in the memory tier answers at once, with no effect. *)
Lemma searchTrack_memory_hit t a d st r :
  cache st !! cacheKeyOf t a = Some r ->
  searchTrack t a d st = (Some r, st, []).
Proof.
  intros H. unfold searchTrack, bind, get. simpl.
  rewrite H. reflexivity.
Qed.

(** A miss in the memory tier and a hit in the durable tier: the row is
    copied to the memory tier and returned. *)
Lemma searchTrack_durable_hit t a d st r :
  cache st !! cacheKeyOf t a = None ->
  resultOf (checkDatabaseCache t a st) = Some r ->
  searchTrack t a d st =
    (Some r, setCache (<[cacheKeyOf t a := r]>) st, [EvSelect t a]).
Proof.
  intros Hmem Hdb. unfold searchTrack, bind, get. simpl.
  rewrite Hmem.
  destruct (checkDatabaseCache_state t a st) as [Hs He].
  destruct (checkDatabaseCache t a st) as [[found st1] ev1].
  unfold resultOf, stateOf, eventsOf in *. simpl in *. subst.
  reflexivity.
Qed.

(** A miss in both tiers: the outcome is that of the retry loop started
    at attempt 0, when the pool has a current key. *)
Lemma searchTrack_miss t a d st key :
  cache st !! cacheKeyOf t a = None ->
  resultOf (checkDatabaseCache t a st) = None ->
  (0 < length (apiKeys st))%nat ->
  apiKeys st !! currentKeyIndex st = Some key ->
  Str.truthy key = true ->
  searchTrack t a d st =
    let '(result, st', ev) :=
      searchTrackLoop t a d (cacheKeyOf t a) (length (apiKeys st)) 0 st in
    (result, st', EvSelect t a :: ev).
Proof.
  intros Hmem Hdb Hlen Hkey Htruthy.
  unfold searchTrack, bind, get. simpl.
  rewrite Hmem.
  destruct (checkDatabaseCache_state t a st) as [Hs He].
  destruct (checkDatabaseCache t a st) as [[found st1] ev1].
  unfold resultOf, stateOf, eventsOf in *. simpl in *. subst.
  unfold getCurrentApiKey, bind, get. simpl.
  destruct (Nat.eqb_spec (length (apiKeys st)) 0); [lia|].
  unfold ret. simpl. rewrite Hkey, Htruthy.
  destruct (searchTrackLoop _ _ _ _ _ _ _) as [[result st2] ev2].
  reflexivity.
Qed.

(** Write-through to the memory tier: whatever [searchTrack] returns is
    stored there under the key of the query. *)
Lemma searchTrack_some_cached t a d st r :
  resultOf (searchTrack t a d st) = Some r ->
  cache (stateOf (searchTrack t a d st)) !! cacheKeyOf t a = Some r.
Proof.
  destruct (cache st !! cacheKeyOf t a) as [cached|] eqn:Hmem.
  { rewrite (searchTrack_memory_hit _ _ _ _ _ Hmem).
    unfold resultOf, stateOf. simpl. now intros [= <-]. }
  destruct (resultOf (checkDatabaseCache t a st)) as [found|] eqn:Hdb.
  { rewrite (searchTrack_durable_hit _ _ _ _ _ Hmem Hdb).
    unfold resultOf, stateOf. simpl. intros [= <-].
    apply lookup_insert_eq. }
  unfold searchTrack, bind, get. simpl. rewrite Hmem.
  destruct (checkDatabaseCache_state t a st) as [Hs He].
  destruct (checkDatabaseCache t a st) as [[found st1] ev1].
  unfold resultOf, stateOf, eventsOf in Hdb, Hs, He. simpl in *. subst.
  destruct (getCurrentApiKey_state st) as [Hs _].
  destruct (getCurrentApiKey st) as [[apiKey st1] ev1].
  unfold stateOf in Hs. simpl in Hs. subst st1.
  destruct apiKey as [key|]; [|discriminate].
  destruct (Str.truthy key); [|discriminate].
  pose proof (searchTrackLoop_cached t a d (cacheKeyOf t a)
                (length (apiKeys st)) r _ 0%nat st eq_refl) as Hloop.
  destruct (searchTrackLoop _ _ _ _ _ _ _) as [[result st2] ev2].
  exact Hloop.
Qed.

(** The resolver leaves the keys alone and keeps the cursor in range. *)
Lemma searchTrackPass_pool t a d key st :
  let st' := stateOf (searchTrackPass t a d key st) in
  apiKeys st' = apiKeys st /\ (cursorInRange st -> cursorInRange st').
Proof.
  simpl. split; [apply searchTrackPass_keys|].
  rewrite searchTrackPass_eq.
  destruct (searchWithYouTube t a d st) as [[[error|[result|]] st1] ev];
    simpl; auto.
  - destruct (quotaExceeded error); simpl; auto.
    destruct (Nat.ltb_spec 1 (length (apiKeys st))); auto.
    intros _. unfold cursorInRange, stateOf. simpl. intros _.
    apply Nat.mod_upper_bound. lia.
  - unfold stateOf at 1. simpl.
    destruct (saveToDatabaseCache_service t a d result
                (setCache (<[key := result]>) st)) as (_ & Hi & Hk & _).
    unfold cursorInRange. rewrite Hi, Hk. simpl. auto.
Qed.

Lemma searchTrackLoop_pool t a d key maxAttempts :
  forall n attempts st,
    (maxAttempts - attempts = n)%nat ->
    let st' := stateOf (searchTrackLoop t a d key maxAttempts attempts st) in
    apiKeys st' = apiKeys st /\ (cursorInRange st -> cursorInRange st').
Proof.
  induction n as [|n IH]; intros attempts st Hn; simpl;
    rewrite searchTrackLoop_eq;
    destruct (Nat.ltb_spec attempts maxAttempts); try lia;
    try (split; [reflexivity|auto]).
  pose proof (searchTrackPass_pool t a d key st) as Hpass.
  destruct (searchTrackPass t a d key st) as [[[result|] st1] ev1].
  - exact Hpass.
  - specialize (IH (S attempts) st1 ltac:(lia)).
    destruct (searchTrackLoop t a d key maxAttempts (S attempts) st1)
      as [[result st2] ev2].
    unfold stateOf in *. simpl in *.
    destruct Hpass as [Hk1 Hr1], IH as [Hk2 Hr2].
    split; [congruence|auto].
Qed.

Lemma searchTrack_pool t a d st :
  let st' := stateOf (searchTrack t a d st) in
  apiKeys st' = apiKeys st /\ (cursorInRange st -> cursorInRange st').
Proof.
  simpl. unfold searchTrack, bind, get. simpl.
  destruct (cache st !! cacheKeyOf t a) as [cached|]; [split; auto|].
  destruct (checkDatabaseCache_state t a st) as [Hs He].
  destruct (checkDatabaseCache t a st) as [[found st1] ev1].
  unfold stateOf, eventsOf in Hs, He. simpl in *. subst.
  destruct found as [found|]; [split; auto|].
  destruct (getCurrentApiKey_state st) as [Hs He].
  destruct (getCurrentApiKey st) as [[apiKey st1] ev1].
  unfold stateOf, eventsOf in Hs, He. simpl in *. subst.
  destruct apiKey as [key|]; [|split; auto].
  destruct (Str.truthy key); [|split; auto].
  pose proof (searchTrackLoop_pool t a d (cacheKeyOf t a)
                (length (apiKeys st)) _ 0%nat st eq_refl) as Hloop.
  destruct (searchTrackLoop _ _ _ _ _ _ _) as [[result st2] ev2].
  exact Hloop.
Qed.

(** *** Rotation when every key is out of quota *)

Section QuotaExhausted.

(** Every call of the search endpoint is refused for lack of quota. *)
Hypothesis allQuota : forall key query,
  exists status, fetchSearch key query = SearchFailed status (Some "quotaExceeded").

Lemma searchWithYouTube_quota t a d st :
  (0 < length (apiKeys st))%nat ->
  searchWithYouTube t a d st =
    (inl QuotaError, st,
     [EvSearch (apiKeys st !! currentKeyIndex st)
               (a ++ " - " ++ t ++ " official audio")]).
Proof.
  intros Hlen.
  unfold searchWithYouTube, getCurrentApiKey, bind, get. simpl.
  destruct (Nat.eqb_spec (length (apiKeys st)) 0); [lia|].
  unfold ret, emit. simpl.
  destruct (allQuota (apiKeys st !! currentKeyIndex st)
              (a ++ " - " ++ t ++ " official audio")) as [status ->].
  reflexivity.
Qed.

Lemma searchTrackPass_quota t a d key st :
  (0 < length (apiKeys st))%nat ->
  searchTrackPass t a d key st =
    let ev := [EvSearch (apiKeys st !! currentKeyIndex st)
                        (a ++ " - " ++ t ++ " official audio")] in
    if (1 <? length (apiKeys st))%nat
    then (Continue,
          setCurrentKeyIndex
            ((currentKeyIndex st + 1) mod length (apiKeys st))%nat st, ev)
    else (Return None, st, ev).
Proof.
  intros Hlen. rewrite searchTrackPass_eq, searchWithYouTube_quota by exact Hlen.
  reflexivity.
Qed.

Lemma searchTrackLoop_quota t a d key N :
  (1 < N)%nat ->
  forall n attempts st,
    (N - attempts = n)%nat ->
    length (apiKeys st) = N ->
    (currentKeyIndex st < N)%nat ->
    let out := searchTrackLoop t a d key N attempts st in
    resultOf out = None /\
    eventsOf out =
      map (fun j => EvSearch (apiKeys st !! ((currentKeyIndex st + j) mod N)%nat)
                             (a ++ " - " ++ t ++ " official audio"))
          (seq 0 n).
Proof.
  intros HN. induction n as [|n IH]; intros attempts st Hn Hlen Hc out;
    subst out; rewrite searchTrackLoop_eq;
    destruct (Nat.ltb_spec attempts N); try lia.
  - split; reflexivity.
  - rewrite searchTrackPass_quota by lia. simpl. rewrite Hlen.
    destruct (Nat.ltb_spec 1 N); [|lia].
    specialize (IH (S attempts)
                  (setCurrentKeyIndex ((currentKeyIndex st + 1) mod N)%nat st)
                  ltac:(lia) Hlen
                  ltac:(simpl; apply Nat.mod_upper_bound; lia)).
    destruct (searchTrackLoop t a d key N (S attempts) _) as [[result st2] ev2].
    unfold resultOf, eventsOf in *. simpl in *.
    destruct IH as [-> ->]. split; [reflexivity|].
    rewrite Nat.add_0_r, (Nat.mod_small _ _ Hc). f_equal.
    rewrite <- seq_shift, map_map. apply map_ext. intros j.
    do 2 f_equal. rewrite Nat.Div0.add_mod_idemp_l. f_equal. lia.
Qed.

(** C2: with [N >= 1] keys that are all out of quota, a [searchTrack]
    call that misses both cache tiers makes exactly [N] calls of the
    search endpoint, one with the key at each position of the pool
    starting from the cursor, and returns [null]; with one key
    [rotateApiKey] answers [false] and there is one call. *)
Theorem rotation_exhaustion t a d st N :
  length (apiKeys st) = N ->
  (1 <= N)%nat ->
  cursorInRange st ->
  keysTruthy st ->
  cache st !! cacheKeyOf t a = None ->
  resultOf (checkDatabaseCache t a st) = None ->
  let out := searchTrack t a d st in
  let c := currentKeyIndex st in
  resultOf out = None /\
  searchAttempts (eventsOf out) = N /\
  eventsOf out =
    EvSelect t a ::
    map (fun j => EvSearch (apiKeys st !! ((c + j) mod N)%nat)
                           (a ++ " - " ++ t ++ " official audio"))
        (seq 0 N) /\
  NoDup (map (fun j => ((c + j) mod N)%nat) (seq 0 N)) /\
  (N = 1%nat ->
   resultOf (rotateApiKey st) = false /\ searchAttempts (eventsOf out) = 1%nat).
Proof.
  intros Hlen HN Hrange Htruthy Hmem Hdb out c.
  assert (Hc : (c < N)%nat) by (unfold cursorInRange in Hrange; subst c; lia).
  destruct (apiKeys st !! c) as [key|] eqn:Hkey;
    [|apply lookup_ge_None in Hkey; lia].
  assert (Hkt : Str.truthy key = true).
  { unfold keysTruthy in Htruthy. rewrite Forall_forall in Htruthy.
    apply Htruthy. eapply list_elem_of_lookup_2, Hkey. }
  assert (Hev : resultOf out = None /\
                eventsOf out =
                  EvSelect t a ::
                  map (fun j => EvSearch (apiKeys st !! ((c + j) mod N)%nat)
                                         (a ++ " - " ++ t ++ " official audio"))
                      (seq 0 N)).
  { subst out. rewrite (searchTrack_miss t a d st key) by (auto; lia).
    rewrite Hlen.
    destruct (Nat.eq_dec N 1%nat) as [->|Hne].
    - rewrite searchTrackLoop_eq. simpl.
      rewrite searchTrackPass_quota by lia. simpl. rewrite Hlen. simpl.
      unfold resultOf, eventsOf. simpl. split; [reflexivity|].
      replace c with 0%nat by lia. fold c. replace c with 0%nat by lia.
      reflexivity.
    - pose proof (searchTrackLoop_quota t a d (cacheKeyOf t a) N ltac:(lia)
                    N 0%nat st ltac:(lia) Hlen Hc) as Hloop.
      destruct (searchTrackLoop t a d (cacheKeyOf t a) N 0 st)
        as [[result st2] ev2].
      unfold resultOf, eventsOf in *. simpl in *.
      destruct Hloop as [-> ->]. split; reflexivity. }
  destruct Hev as [Hres Hev].
  assert (Hcount : searchAttempts (eventsOf out) = N).
  { rewrite Hev. unfold searchAttempts. simpl.
    transitivity (length (seq 0 N)); [|apply length_seq].
    generalize (seq 0 N). clear. intros l.
    induction l as [|j l IH]; simpl; [reflexivity|now rewrite IH]. }
  split; [exact Hres|]. split; [exact Hcount|]. split; [exact Hev|]. split.
  - apply NoDup_ListNoDup.
    apply List.NoDup_map_NoDup_ForallPairs; [|apply List.seq_NoDup].
    intros j1 j2 H1 H2 Heq.
    apply in_seq in H1. apply in_seq in H2.
    pose proof (Nat.div_mod_eq (c + j1) N). pose proof (Nat.div_mod_eq (c + j2) N).
    assert ((c + j1) / N = (c + j2) / N)%nat by nia. nia.
  - intros ->. split; [|exact Hcount].
    rewrite rotateApiKey_eq, Hlen. reflexivity.
Qed.


End QuotaExhausted.

(** *** A resolution causes no event of the pacing *)

Lemma quiet_app ev1 ev2 : quiet ev1 -> quiet ev2 -> quiet (ev1 ++ ev2)%list.
Proof. unfold quiet. intros. now apply Forall_app. Qed.

Lemma searchWithYouTube_quiet t a d st :
  quiet (eventsOf (searchWithYouTube t a d st)).
Proof.
  unfold searchWithYouTube, bind.
  pose proof (getCurrentApiKey_state st) as [_ He].
  destruct (getCurrentApiKey st) as [[apiKey st1] ev1].
  unfold eventsOf in *; simpl in He; subst ev1. unfold emit, ret; simpl.
  destruct (fetchSearch apiKey _) as [|status [reason|]|[[|item items]|]];
    simpl; try (repeat constructor).
  - destruct (String.eqb reason "quotaExceeded"); repeat constructor.
  - destruct (fetchDetails apiKey _); repeat constructor.
Qed.

Lemma saveToDatabaseCache_quiet t a d r st :
  quiet (eventsOf (saveToDatabaseCache t a d r st)).
Proof.
  unfold saveToDatabaseCache. unfold_method.
  destruct (storeReachable st); repeat constructor.
Qed.

Lemma searchTrackPass_quiet t a d key st :
  quiet (eventsOf (searchTrackPass t a d key st)).
Proof.
  rewrite searchTrackPass_eq.
  pose proof (searchWithYouTube_quiet t a d st) as Hq.
  destruct (searchWithYouTube t a d st) as [[[error|[result|]] st1] ev];
    unfold eventsOf in *; simpl in *.
  - destruct (_ && _); exact Hq.
  - apply quiet_app; [exact Hq|apply saveToDatabaseCache_quiet].
  - exact Hq.
Qed.

Lemma searchTrackLoop_quiet t a d key maxAttempts :
  forall n attempts st,
    (maxAttempts - attempts = n)%nat ->
    quiet (eventsOf (searchTrackLoop t a d key maxAttempts attempts st)).
Proof.
  induction n as [|n IH]; intros attempts st Hn;
    rewrite searchTrackLoop_eq;
    destruct (Nat.ltb_spec attempts maxAttempts); try lia;
    try (now constructor).
  pose proof (searchTrackPass_quiet t a d key st) as Hpass.
  destruct (searchTrackPass t a d key st) as [[[result|] st1] ev1].
  - exact Hpass.
  - specialize (IH (S attempts) st1 ltac:(lia)).
    destruct (searchTrackLoop t a d key maxAttempts (S attempts) st1)
      as [[result st2] ev2].
    unfold eventsOf in *. simpl in *. now apply quiet_app.
Qed.

Lemma searchTrack_quiet t a d st : quiet (eventsOf (searchTrack t a d st)).
Proof.
  unfold searchTrack, bind, get. simpl.
  destruct (cache st !! cacheKeyOf t a) as [cached|]; [now constructor|].
  destruct (checkDatabaseCache_state t a st) as [Hs He].
  destruct (checkDatabaseCache t a st) as [[found st1] ev1].
  unfold stateOf, eventsOf in Hs, He. simpl in *. subst.
  destruct found as [found|]; [repeat constructor|].
  destruct (getCurrentApiKey_state st) as [Hs He].
  destruct (getCurrentApiKey st) as [[apiKey st1] ev1].
  unfold stateOf, eventsOf in Hs, He. simpl in *. subst.
  destruct apiKey as [key|]; [|repeat constructor].
  destruct (Str.truthy key); [|repeat constructor].
  pose proof (searchTrackLoop_quiet t a d (cacheKeyOf t a)
                (length (apiKeys st)) _ 0%nat st eq_refl) as Hloop.
  destruct (searchTrackLoop _ _ _ _ _ _ _) as [[result st2] ev2].
  unfold eventsOf in *. simpl in *.
  constructor; [reflexivity|exact Hloop].
Qed.

(** *** A provider that gives nothing *)






End ResolverFacts.

Lemma rotation_exhaustion_witness :
  let st := newService Fixture.threeKeys [] true in
  let out :=
    searchTrack (number := exact) (provider := Fixture.exhausted)
      "Track" "Artist" 200000 st in
  resultOf out = None /\ searchAttempts (eventsOf out) = 3%nat.
Proof.
  intros st out.
  assert (Hq : forall key query, exists status,
             Fixture.quotaSearch key query =
               SearchFailed status (Some "quotaExceeded")).
  { intros key query. exists 403. reflexivity. }
  assert (Hrange : cursorInRange st).
  { intros _. vm_compute. lia. }
  assert (Htruthy : keysTruthy st).
  { vm_compute. repeat constructor. }
  destruct (rotation_exhaustion (number := exact) (provider := Fixture.exhausted) Hq
              "Track" "Artist" 200000 st 3%nat
              eq_refl ltac:(lia) Hrange Htruthy eq_refl eq_refl)
    as (Hres & Hcount & _).
  split; [exact Hres|exact Hcount].
Defined.

(** ** Cache keys *)









(** C10: the key of the memory tier does not determine the pair of
    artist and track: artist ["A - B"] with track ["C"] and artist ["A"]
    with track ["B - C"] have the key ["a - b - c"], and once the first
    has been resolved to a match, the second is answered with that
    match from the memory tier, without any request. *)
Theorem cache_key_collision :
  ("A - B", "C") <> ("A", "B - C") /\
  cacheKeyOf "C" "A - B" = "a - b - c" /\
  cacheKeyOf "B - C" "A" = "a - b - c" /\
  forall (number : Number) (provider : Provider) d d' st entry,
    let first := searchTrack "C" "A - B" d st in
    resultOf first = Some entry ->
    searchTrack "B - C" "A" d' (stateOf first) =
      (Some entry, stateOf first, []).
Proof.
  split; [discriminate|]. split; [reflexivity|]. split; [reflexivity|].
  intros number provider d d' st entry first Hfirst.
  apply searchTrack_memory_hit.
  change (cacheKeyOf "B - C" "A") with (cacheKeyOf "C" "A - B").
  now apply searchTrack_some_cached.
Qed.

Lemma cache_key_collision_witness :
  let st := newService Fixture.oneKey [] true in
  let first := searchTrack (number := exact) (provider := Fixture.working)
                 "C" "A - B" 200000 st in
  exists entry,
    resultOf first = Some entry /\
    searchTrack (number := exact) (provider := Fixture.working)
      "B - C" "A" 1000 (stateOf first) = (Some entry, stateOf first, []).
Proof.
  intros st first. eexists. split.
  - vm_compute. reflexivity.
  - apply (proj2 (proj2 (proj2 cache_key_collision))).
    vm_compute. reflexivity.
Defined.

(** ** Match scoring *)

Lemma Qgtb_true a b : Qgtb a b = true <-> (b < a)%Q.
Proof.
  unfold Qgtb. rewrite negb_true_iff.
  split.
  - intros H. apply Qnot_le_lt. intros Hle.
    apply Qle_bool_iff in Hle. congruence.
  - intros H. destruct (Qle_bool a b) eqn:E; [|reflexivity].
    apply Qle_bool_iff in E. exfalso. exact (Qlt_not_le _ _ H E).
Qed.

Lemma Qgtb_false a b : Qgtb a b = false <-> (a <= b)%Q.
Proof.
  unfold Qgtb. rewrite negb_false_iff. apply Qle_bool_iff.
Qed.

(** [>] on rationals is a strict weak order. *)
Lemma Qgtb_asym a b : Qgtb a b = true -> Qgtb b a = false.
Proof.
  rewrite Qgtb_true, Qgtb_false. apply Qlt_le_weak.
Qed.

Lemma Qgtb_cotrans a b c :
  Qgtb a c = true -> Qgtb a b = true \/ Qgtb b c = true.
Proof.
  rewrite !Qgtb_true. intros Hca.
  destruct (Qlt_le_dec b a) as [Hba|Hab]; [now left|right].
  eapply Qlt_le_trans; eauto.
Qed.

Section Selection.

Context {number : Number}.

(** The numbers that occur as scores, on which [>] is a strict weak
    order: all of them for rationals, all but NaN for binary64. *)
Variable ok : num -> Prop.

Hypothesis above_asym : forall a b,
  ok a -> ok b -> (a >? b)%js = true -> (b >? a)%js = false.

Hypothesis above_cotrans : forall a b c,
  ok a -> ok b -> ok c ->
  (a >? c)%js = true -> (a >? b)%js = true \/ (b >? c)%js = true.

Variable target : Z.
Variables trackName artistName : string.

Hypothesis score_ok : forall v s d,
  youtubeScore v target trackName artistName = Some (s, d) -> ok s.

Lemma above_irrefl a : ok a -> (a >? a)%js = false.
Proof.
  intros Ha. destruct (a >? a)%js eqn:E; [|reflexivity].
  now rewrite (above_asym a a Ha Ha E) in E.
Qed.

Lemma above_trans a b c :
  ok a -> ok b -> ok c ->
  (a >? b)%js = true -> (b >? c)%js = true -> (a >? c)%js = true.
Proof.
  intros Ha Hb Hc Hab Hbc.
  destruct (above_cotrans a c b Ha Hc Hb Hab) as [H|H]; [exact H|].
  now rewrite (above_asym b c Hb Hc Hbc) in H.
Qed.

(** What is not above the lower of two numbers is below the higher. *)
Lemma above_below a b c :
  ok a -> ok b -> ok c ->
  (a >? b)%js = false -> (c >? b)%js = true -> (c >? a)%js = true.
Proof.
  intros Ha Hb Hc Hab Hcb.
  destruct (above_cotrans c a b Hc Ha Hb Hcb) as [H|H]; [exact H|congruence].
Qed.

(** The loop of [findBestMatch] from any point: either no video of the
    rest beats the running best, which is returned, or the result is the
    first of the videos of the rest with the highest score, and that
    score beats the running best. *)
Lemma findBestMatchFrom_spec :
  forall videos bestMatch bestScore,
    ok bestScore ->
    let result :=
      findBestMatchFrom videos target trackName artistName bestMatch bestScore in
    (result = bestMatch /\
     forall j v s d,
       videos !! j = Some v ->
       youtubeScore v target trackName artistName = Some (s, d) ->
       (s >? bestScore)%js = false) \/
    (exists i v s d,
       videos !! i = Some v /\
       youtubeScore v target trackName artistName = Some (s, d) /\
       result = Some (youtubeMatch v d) /\
       (s >? bestScore)%js = true /\
       forall j v' s' d',
         videos !! j = Some v' ->
         youtubeScore v' target trackName artistName = Some (s', d') ->
         (s' >? s)%js = false /\ ((j < i)%nat -> (s >? s')%js = true)).
Proof.
  induction videos as [|video rest IH]; intros bestMatch bestScore Hbest; simpl.
  { left. split; [reflexivity|]. intros j v s d Hj. discriminate. }
  destruct (youtubeScore video target trackName artistName)
    as [[score dur]|] eqn:Hscore.
  2: { (* the video is skipped *)
    destruct (IH bestMatch bestScore Hbest)
      as [[Hres Hall]|(i & v & s & d & Hi & Hv & Hres & Hgt & Hall)].
    - left. split; [exact Hres|].
      intros [|j] v s d Hj Hv; simpl in Hj; [|eapply Hall; eauto].
      injection Hj as <-. congruence.
    - right. exists (S i), v, s, d. repeat split; try assumption.
      + destruct j as [|j]; simpl in *; [|eapply Hall; eauto].
        injection H as <-. congruence.
      + intros Hji. destruct j as [|j]; simpl in *;
          [|eapply Hall; eauto; lia].
        injection H as <-. congruence. }
  assert (Hok : ok score) by (eapply score_ok; eauto).
  destruct (score >? bestScore)%js eqn:Hgt.
  - (* the video becomes the running best *)
    destruct (IH (Some (youtubeMatch video dur)) score Hok)
      as [[Hres Hall]|(i & v & s & d & Hi & Hv & Hres & Hlt & Hall)].
    + right. exists 0%nat, video, score, dur.
      repeat split; try assumption; try reflexivity.
      * destruct j as [|j]; simpl in *; [|eapply Hall; eauto].
        injection H as <-. rewrite Hscore in H0. injection H0 as <- <-.
        now apply above_irrefl.
      * lia.
    + assert (Hs : ok s) by (eapply score_ok; eauto).
      right. exists (S i), v, s, d. repeat split; try assumption.
      * apply (above_trans s score bestScore); assumption.
      * destruct j as [|j]; simpl in *; [|eapply Hall; eauto].
        injection H as <-. rewrite Hscore in H0. injection H0 as <- <-.
        now apply above_asym.
      * intros Hji. destruct j as [|j]; simpl in *;
          [|eapply Hall; eauto; lia].
        injection H as <-. rewrite Hscore in H0. injection H0 as <- <-.
        exact Hlt.
  - (* the running best stays *)
    destruct (IH bestMatch bestScore Hbest)
      as [[Hres Hall]|(i & v & s & d & Hi & Hv & Hres & Hlt & Hall)].
    + left. split; [exact Hres|].
      intros [|j] v s d Hj Hv; simpl in Hj; [|eapply Hall; eauto].
      injection Hj as <-. rewrite Hscore in Hv. injection Hv as <- <-.
      exact Hgt.
    + assert (Hs : ok s) by (eapply score_ok; eauto).
      assert (Hbelow : (s >? score)%js = true)
        by (apply (above_below score bestScore s); assumption).
      right. exists (S i), v, s, d. repeat split; try assumption.
      * destruct j as [|j]; simpl in *; [|eapply Hall; eauto].
        injection H as <-. rewrite Hscore in H0. injection H0 as <- <-.
        now apply above_asym.
      * intros Hji. destruct j as [|j]; simpl in *;
          [|eapply Hall; eauto; lia].
        injection H as <-. rewrite Hscore in H0. injection H0 as <- <-.
        exact Hbelow.
Qed.

(** In an arithmetic whose [>] is a strict weak order on the scores,
    [findBestMatch] selects the best candidate. *)
Lemma selectsBest_ordered videos :
  ok (fromZ 0) ->
  selectsBest number videos target trackName artistName.
Proof.
  intros Hzero. unfold selectsBest.
  set (score := fun v => youtubeScore v target trackName artistName).
  set (result := findBestMatch videos target trackName artistName).
  assert (Hnone : forall vs,
             (forall j v s d,
                vs !! j = Some v ->
                youtubeScore v target trackName artistName = Some (s, d) ->
                (s >? fromZ 0)%js = false) ->
             findBestMatch vs target trackName artistName = None).
  { intros vs Hall. unfold findBestMatch.
    destruct (findBestMatchFrom_spec vs None (fromZ 0) Hzero)
      as [[Hres _]|(i & v & s & d & Hi & Hv & _ & Hgt & _)]; [exact Hres|].
    rewrite (Hall _ _ _ _ Hi Hv) in Hgt. discriminate. }
  pose proof (findBestMatchFrom_spec videos None (fromZ 0) Hzero) as Hspec.
  fold (findBestMatch videos target trackName artistName) in Hspec.
  fold result in Hspec. simpl in Hspec.
  split; [|split; [|split]].
  - intros m Hm.
    destruct Hspec as [[Hres _]|(i & v & s & d & Hi & Hv & Hres & Hgt & Hall)];
      [congruence|].
    exists i, v, s, d. repeat split; try assumption; try congruence.
    + eapply Hall; eauto.
    + eapply Hall; eauto.
  - split.
    + intros Hres'.
      destruct Hspec as [[_ Hall]|(i & v & s & d & _ & _ & Hres & _)];
        [exact Hall|congruence].
    + apply Hnone.
  - intros Hall. apply Hnone. intros j v s d Hj Hv.
    unfold score in Hall. rewrite (Hall _ _ Hj) in Hv. discriminate.
  - intros v s d Hv Hle. apply Hnone. intros j v' s' d' Hj Hv'.
    destruct j as [|j]; simpl in Hj; [|discriminate].
    injection Hj as <-. unfold score in Hv. rewrite Hv in Hv'.
    injection Hv' as <- <-. exact Hle.
Qed.

End Selection.

(** *** The tolerance *)

Section Tolerance.

Context {number : Number}.

Lemma youtubeScore_excluded video target trackName artistName :
  DURATION_TOLERANCE_MS < youtubeDiff video target ->
  youtubeScore video target trackName artistName = None.
Proof.
  intros H. unfold youtubeScore. fold (youtubeDiff video target).
  destruct (Z.gtb_spec (youtubeDiff video target) DURATION_TOLERANCE_MS);
    [reflexivity|lia].
Qed.

(** A video within the tolerance is scored, from the score of its
    duration. *)
Lemma youtubeScore_included video target trackName artistName :
  youtubeDiff video target <= DURATION_TOLERANCE_MS ->
  youtubeScore video target trackName artistName =
    Some (adjustForTitle (Str.toLowerCase (YT.title (YT.snippet video)))
            trackName artistName (baseScore (youtubeDiff video target)),
          parseISO8601Duration (YT.duration (YT.contentDetails video))).
Proof.
  intros H. unfold youtubeScore. fold (youtubeDiff video target).
  destruct (Z.gtb_spec (youtubeDiff video target) DURATION_TOLERANCE_MS);
    [lia|reflexivity].
Qed.

(** A video the loop skips does not change its result. *)
Lemma findBestMatchFrom_skip target trackName artistName video after :
  youtubeScore video target trackName artistName = None ->
  forall before bestMatch bestScore,
    findBestMatchFrom (before ++ video :: after)%list target trackName
      artistName bestMatch bestScore =
    findBestMatchFrom (before ++ after)%list target trackName artistName
      bestMatch bestScore.
Proof.
  intros Hskip. induction before as [|v before IH]; intros bm bs; simpl.
  - rewrite Hskip. reflexivity.
  - destruct (youtubeScore v target trackName artistName) as [[s d]|];
      [destruct (s >? bs)%js|]; apply IH.
Qed.

End Tolerance.

(** *** The order of binary64 *)

Lemma SFltb_key x y :
  x <> S754_nan -> y <> S754_nan ->
  (SFltb x y = true <-> lexLt (floatKey x) (floatKey y)).
Proof.
  intros Hx Hy. unfold SFltb.
  destruct x as [sx|[]| |[] mx ex], y as [sy|[]| |[] my ey];
    try contradiction; simpl; try (split; [discriminate|lia]);
    try (split; [lia|reflexivity]); try (split; [reflexivity|lia]).
  all: rewrite Pos.compare_cont_spec; simpl;
    destruct (Z.compare_spec ex ey); destruct (Pos.compare_spec mx my);
    simpl; split; try discriminate; try reflexivity; try lia.
Qed.

Lemma isNumber_spec x : isNumber x -> Prim2SF x <> S754_nan.
Proof.
  unfold isNumber, PrimFloat.is_nan. rewrite FloatAxioms.eqb_spec.
  intros H Hnan. rewrite Hnan in H. discriminate.
Qed.

Lemma ltb_key x y :
  isNumber x -> isNumber y ->
  (PrimFloat.ltb x y = true <->
   lexLt (floatKey (Prim2SF x)) (floatKey (Prim2SF y))).
Proof.
  intros Hx Hy. rewrite FloatAxioms.ltb_spec.
  apply SFltb_key; now apply isNumber_spec.
Qed.

(** [>] is a strict weak order on the binary64 numbers other than NaN. *)
Lemma double_above_asym (a b : float) :
  isNumber a -> isNumber b ->
  PrimFloat.ltb b a = true -> PrimFloat.ltb a b = false.
Proof.
  intros Ha Hb Hba. apply (ltb_key b a Hb Ha) in Hba.
  destruct (PrimFloat.ltb a b) eqn:Hab; [|reflexivity].
  apply (ltb_key a b Ha Hb) in Hab. exfalso.
  destruct (floatKey (Prim2SF a)) as [[a1 a2] a3],
           (floatKey (Prim2SF b)) as [[b1 b2] b3].
  simpl in *. lia.
Qed.

Lemma double_above_cotrans (a b c : float) :
  isNumber a -> isNumber b -> isNumber c ->
  PrimFloat.ltb c a = true ->
  PrimFloat.ltb b a = true \/ PrimFloat.ltb c b = true.
Proof.
  intros Ha Hb Hc Hca. apply (ltb_key c a Hc Ha) in Hca.
  rewrite (ltb_key b a Hb Ha), (ltb_key c b Hc Hb).
  destruct (floatKey (Prim2SF a)) as [[a1 a2] a3],
           (floatKey (Prim2SF b)) as [[b1 b2] b3],
           (floatKey (Prim2SF c)) as [[c1 c2] c3].
  simpl in *. lia.
Qed.

(** *** No binary64 score is NaN *)

(** A step applied for every term found is applied as many times as
    terms are found. *)
Lemma forEach_iter {S : Type} title (step : S -> S) terms : forall score,
  forEach terms
    (fun term score => if Str.includes title term then step score else score)
    score
  = Nat.iter (countFound title terms) step score.
Proof.
  unfold forEach, countFound.
  induction terms as [|term terms IH]; intros score; simpl; [reflexivity|].
  destruct (Str.includes title term); simpl; rewrite IH; [|reflexivity].
  now rewrite <- Nat.iter_succ_r.
Qed.

Lemma countFound_le title terms : (countFound title terms <= length terms)%nat.
Proof. unfold countFound. apply List.filter_length_le. Qed.

Lemma chainOk_iter step k : forall n s,
  chainOk n step k s = true ->
  forall i, (i <= n)%nat -> k (Nat.iter i step s) = true.
Proof.
  induction n as [|n IH]; intros s Hchain i Hi; simpl in Hchain;
    apply andb_true_iff in Hchain as [Hs Hrest].
  - replace i with 0%nat by lia. exact Hs.
  - destruct i as [|i]; [exact Hs|].
    rewrite Nat.iter_succ_r. apply IH; [exact Hrest|lia].
Qed.

Lemma scoresOkFrom_at : forall fuel d0,
  scoresOkFrom fuel d0 = true ->
  forall d, d0 <= d < d0 + Z.of_nat fuel -> scoresOkAt d = true.
Proof.
  induction fuel as [|fuel IH]; intros d0 Hall d Hd; [lia|].
  simpl in Hall. apply andb_true_iff in Hall as [Hhere Hrest].
  destruct (Z.eq_dec d d0) as [->|Hne]; [exact Hhere|].
  apply (IH (d0 + 1) Hrest). lia.
Qed.

(** Checked by running the scorer on the 15001 distances within the
    tolerance, with every number of terms a title can hold. *)
Lemma scoresOk_all :
  scoresOkFrom (Z.to_nat (DURATION_TOLERANCE_MS + 1)) 0 = true.
Proof. vm_compute. reflexivity. Qed.

Lemma youtubeScore_isNumber video target trackName artistName s d :
  youtubeScore (number := binary64) video target trackName artistName
    = Some (s, d) ->
  isNumber s.
Proof.
  intros Hscore.
  destruct (Z_lt_le_dec DURATION_TOLERANCE_MS (youtubeDiff video target))
    as [Hfar|Hnear].
  { rewrite youtubeScore_excluded in Hscore by exact Hfar. discriminate. }
  rewrite youtubeScore_included in Hscore by exact Hnear.
  set (title := Str.toLowerCase (YT.title (YT.snippet video))) in *.
  assert (Hs : s = adjustForTitle (number := binary64) title trackName
                     artistName (baseScore (youtubeDiff video target)))
    by congruence.
  subst s. unfold adjustForTitle.
  rewrite (forEach_iter title
             (fun s => @minus binary64 s (@fromZ binary64 20))),
          (forEach_iter title
             (fun s => @plus binary64 s (@fromZ binary64 10))).
  assert (Hat : scoresOkAt (youtubeDiff video target) = true).
  { apply (scoresOkFrom_at _ 0 scoresOk_all).
    rewrite Z2Nat.id by (unfold DURATION_TOLERANCE_MS; lia).
    unfold youtubeDiff in *. lia. }
  unfold scoresOkAt in Hat.
  pose proof (chainOk_iter _ _ _ _ Hat _
                (countFound_le title
                   [Str.toLowerCase trackName; Str.toLowerCase artistName;
                    "official"; "audio"; "music video"])) as Hgood.
  pose proof (chainOk_iter _ _ _ _ Hgood _
                (countFound_le title
                   ["cover"; "remix"; "live"; "karaoke"; "instrumental";
                    "lyrics"])) as Hbad.
  apply negb_true_iff in Hbad. exact Hbad.
Qed.

(** C1: [findBestMatch] returns the first of the candidates with the
    highest score, and that score is above 0; it returns [null] exactly
    when no candidate within the tolerance scores above 0, so in
    particular when no candidate is within the tolerance, and when the
    only candidate within the tolerance does not score above 0.  This
    holds with the binary64 numbers of the engine and with rationals. *)
Theorem best_match_selection videos target trackName artistName :
  selectsBest binary64 videos target trackName artistName /\
  selectsBest exact videos target trackName artistName.
Proof.
  split.
  - apply (selectsBest_ordered (number := binary64) isNumber).
    + intros a b. apply double_above_asym.
    + intros a b c. apply double_above_cotrans.
    + intros v s d. apply youtubeScore_isNumber.
    + reflexivity.
  - apply (selectsBest_ordered (number := exact) (fun _ => True)).
    + intros a b _ _. apply Qgtb_asym.
    + intros a b c _ _ _. apply Qgtb_cotrans.
    + auto.
    + exact I.
Qed.

Lemma best_match_selection_witness :
  (exists i v s d,
     [Fixture.liveVersion; Fixture.officialAudio] !! i = Some v /\
     youtubeScore (number := binary64) v 200000 "Track" "Artist"
       = Some (s, d) /\
     videoId (youtubeMatch v d) = "vid-A" /\
     PrimFloat.ltb (doubleOfZ 0) s = true) /\
  findBestMatch (number := binary64) [Fixture.allPenalties] 200000
    "Track" "Artist" = None.
Proof.
  split.
  - destruct (proj1 (proj1 (best_match_selection
                              [Fixture.liveVersion; Fixture.officialAudio]
                              200000 "Track" "Artist"))
                _ eq_refl)
      as (i & v & s & d & Hi & Hv & Hm & Hs & _).
    exists i, v, s, d. rewrite <- Hm. auto.
  - eapply (proj2 (proj2 (proj2 (proj1 (best_match_selection
                       [] 200000 "Track" "Artist"))))).
    + vm_compute. reflexivity.
    + vm_compute. reflexivity.
Defined.

(** Where rounding matters: two candidates whose scores are equal as
    rationals, 29993/300, and one bit apart in binary64.  On rationals
    the first of the two is kept; the engine keeps the one whose score
    came out higher, whatever its position. *)
Example rounding_separates_a_tie :
  let near := YT.mkVideo "near" (YT.mkContentDetails "PT10S")
                (YT.mkSnippet "zzz" None "channel") in
  let far := YT.mkVideo "far" (YT.mkContentDetails "PT13S")
               (YT.mkSnippet "official zzz" None "channel") in
  videoId <$> findBestMatch (number := exact) [far; near] 9993 "Track" "Artist"
    = Some "far" /\
  videoId <$> findBestMatch (number := binary64) [far; near] 9993
                "Track" "Artist" = Some "near" /\
  videoId <$> findBestMatch (number := binary64) [near; far] 9993
                "Track" "Artist" = Some "near".
Proof. repeat split; vm_compute; reflexivity. Qed.

(** On rationals: the result is the first candidate of the highest
    score, a score above 0, and [null] when no score is above 0. *)
Corollary best_match_selection_exact videos target trackName artistName :
  let score v := youtubeScore (number := exact) v target trackName artistName in
  let result := findBestMatch (number := exact) videos target trackName artistName in
  (forall m,
     result = Some m ->
     exists i v s d,
       videos !! i = Some v /\ score v = Some (s, d) /\
       m = youtubeMatch v d /\ (0 < s)%Q /\
       forall j v' s' d',
         videos !! j = Some v' -> score v' = Some (s', d') ->
         (s' <= s)%Q /\ ((j < i)%nat -> (s' < s)%Q)) /\
  (result = None <->
   forall j v s d,
     videos !! j = Some v -> score v = Some (s, d) -> (s <= 0)%Q).
Proof.
  intros score result.
  destruct (findBestMatchFrom_spec (number := exact) (fun _ => True)
              (fun a b _ _ => Qgtb_asym a b)
              (fun a b c _ _ _ => Qgtb_cotrans a b c)
              target trackName artistName (fun _ _ _ _ => I)
              videos None (fromZ 0) I)
    as [[Hres Hall]|(i & v & s & d & Hi & Hv & Hres & Hgt & Hall)];
    fold (findBestMatch (number := exact) videos target trackName artistName)
      in Hres; fold result in Hres.
  - split; [intros m Hm; congruence|].
    split; [|intros _; exact Hres].
    intros _ j v s d Hj Hv. apply Qgtb_false. eapply Hall; eauto.
  - split.
    + intros m Hm. exists i, v, s, d.
      repeat split; try assumption; try congruence.
      * now apply Qgtb_true in Hgt.
      * apply Qgtb_false. eapply Hall; eauto.
      * intros Hji. apply Qgtb_true. eapply Hall; eauto.
    + split; [congruence|].
      intros Hall'. exfalso. apply Qgtb_true in Hgt.
      exact (Qlt_not_le _ _ Hgt (Hall' _ _ _ _ Hi Hv)).
Qed.

(** On rationals, a step applied for every term found adds up. *)
Lemma forEach_terms title (step : Q -> Q) (delta : Q) terms :
  (forall score, step score == score + delta)%Q ->
  forall score,
    (forEach terms
       (fun term score => if Str.includes title term then step score else score)
       score
     == score + delta * inject_Z (Z.of_nat (countFound title terms)))%Q.
Proof.
  intros Hstep. unfold forEach, countFound.
  induction terms as [|term terms IH]; intros score; simpl.
  - ring.
  - destruct (Str.includes title term); simpl.
    + rewrite IH, Hstep, Nat2Z.inj_succ. unfold Z.succ.
      rewrite inject_Z_plus. ring.
    + apply IH.
Qed.

(** On rationals the adjustment for the title is 10 times the number of
    search terms found minus 20 times the number of penalised terms
    found. *)
Lemma adjustForTitle_exact title trackName artistName (score : Q) :
  (adjustForTitle (number := exact) title trackName artistName score
   == score
      + 10 * inject_Z (Z.of_nat
               (countFound title
                  [Str.toLowerCase trackName; Str.toLowerCase artistName;
                   "official"; "audio"; "music video"]))
      - 20 * inject_Z (Z.of_nat
               (countFound title
                  ["cover"; "remix"; "live"; "karaoke"; "instrumental";
                   "lyrics"])))%Q.
Proof.
  unfold adjustForTitle.
  pose proof (forEach_terms title (fun s => Qminus s (inject_Z 20)) (-20)
    ["cover"; "remix"; "live"; "karaoke"; "instrumental"; "lyrics"]
    ltac:(intros s; unfold Qminus; reflexivity)) as Hbad.
  pose proof (forEach_terms title (fun s => Qplus s (inject_Z 10)) 10
    [Str.toLowerCase trackName; Str.toLowerCase artistName;
     "official"; "audio"; "music video"]
    ltac:(intros s; reflexivity)) as Hgood.
  etransitivity; [apply Hbad|].
  etransitivity; [apply Qplus_comp; [apply Hgood|reflexivity]|].
  ring.
Qed.

(** C5: in any arithmetic a candidate more than 15000 ms away from the
    target gets no score, and the result is the same as without it,
    while a candidate within 15000 ms is scored, starting from
    [100 - (diff / 15000) * 50]; that is 50 at a distance of exactly
    15000 ms and 100 at distance 0, on rationals and in binary64 alike,
    and on rationals the score is this plus 10 for every search term
    and minus 20 for every penalised term in the title. *)
Theorem tolerance_boundary video target trackName artistName :
  let diff := youtubeDiff video target in
  let title := Str.toLowerCase (YT.title (YT.snippet video)) in
  let bonus :=
    countFound title
      [Str.toLowerCase trackName; Str.toLowerCase artistName;
       "official"; "audio"; "music video"] in
  let penalty :=
    countFound title
      ["cover"; "remix"; "live"; "karaoke"; "instrumental"; "lyrics"] in
  (15000 < diff ->
   forall number : Number,
     youtubeScore video target trackName artistName = None /\
     forall before after,
       findBestMatch (before ++ video :: after)%list target trackName
         artistName
       = findBestMatch (before ++ after)%list target trackName artistName) /\
  (diff <= 15000 ->
   (forall number : Number,
      youtubeScore video target trackName artistName =
        Some (adjustForTitle title trackName artistName (baseScore diff),
              parseISO8601Duration (YT.duration (YT.contentDetails video)))) /\
   (adjustForTitle (number := exact) title trackName artistName (baseScore diff)
    == baseScore (number := exact) diff + 10 * inject_Z (Z.of_nat bonus)
       - 20 * inject_Z (Z.of_nat penalty))%Q) /\
  (diff = 15000 ->
   (baseScore (number := exact) diff == 50)%Q /\
   baseScore (number := binary64) diff = 50%float) /\
  (baseScore (number := exact) 15000 == 50)%Q /\
  (baseScore (number := exact) 0 == 100)%Q /\
  baseScore (number := binary64) 15000 = 50%float /\
  baseScore (number := binary64) 0 = 100%float.
Proof.
  intros diff title bonus penalty.
  split; [|split; [|split; [|repeat split; reflexivity]]].
  - intros Hfar number.
    assert (Hnone : youtubeScore video target trackName artistName = None)
      by (apply youtubeScore_excluded; exact Hfar).
    split; [exact Hnone|]. intros before after.
    apply findBestMatchFrom_skip, Hnone.
  - intros Hnear. split.
    + intros number. apply youtubeScore_included. exact Hnear.
    + apply adjustForTitle_exact.
  - intros ->. split; reflexivity.
Qed.

(** The scoring example of the specification, in binary64: the official
    audio scores 140 and wins over the live version. *)
Example scoring_example_binary64 :
  fst <$> youtubeScore (number := binary64) Fixture.officialAudio 200000
            "Track" "Artist" = Some 140%float /\
  videoId <$> findBestMatch (number := binary64)
                [Fixture.liveVersion; Fixture.officialAudio] 200000
                "Track" "Artist" = Some "vid-A".
Proof. split; reflexivity. Qed.

Lemma tolerance_boundary_witness :
  youtubeScore (number := binary64) Fixture.officialAudio 184999
    "Track" "Artist" = None /\
  (exists s d,
     youtubeScore (number := exact) Fixture.officialAudio 185000
       "Track" "Artist" = Some (s, d) /\
     (s == 90)%Q) /\
  baseScore (number := binary64) (youtubeDiff Fixture.officialAudio 185000)
    = 50%float.
Proof.
  split; [|split].
  - apply (proj1 (tolerance_boundary Fixture.officialAudio 184999
                    "Track" "Artist")).
    vm_compute. reflexivity.
  - destruct (proj1 (proj2 (tolerance_boundary Fixture.officialAudio 185000
                              "Track" "Artist")))
      as (Hs & Heq).
    + vm_compute. discriminate.
    + eexists _, _. split; [apply (Hs exact)|].
      rewrite Heq. vm_compute. reflexivity.
  - apply (proj1 (proj2 (proj2 (tolerance_boundary Fixture.officialAudio
                                  185000 "Track" "Artist")))).
    vm_compute. reflexivity.
Defined.

(** ** The two scorers *)

Section TwoScorers.

Context {number : Number}.

Lemma scores_agree y i target trackName artistName :
  sameVideo y i ->
  youtubeScore y target trackName artistName =
  invidiousScore i target trackName artistName.
Proof.
  intros (_ & Htitle & Hdur). unfold youtubeScore, invidiousScore.
  rewrite Htitle, Hdur. reflexivity.
Qed.

Lemma findBestMatchFrom_agree target trackName artistName ys is_ :
  Forall2 sameVideo ys is_ ->
  forall bm1 bm2 bestScore,
    option_Forall2 sameMatch bm1 bm2 ->
    option_Forall2 sameMatch
      (findBestMatchFrom ys target trackName artistName bm1 bestScore)
      (findBestMatchInvidiousFrom is_ target trackName artistName bm2 bestScore).
Proof.
  induction 1 as [|y i ys is_ Hsame _ IH]; intros bm1 bm2 bestScore Hbm; simpl.
  - exact Hbm.
  - rewrite <- (scores_agree y i target trackName artistName Hsame).
    destruct (youtubeScore y target trackName artistName) as [[s d]|];
      [|now apply IH].
    destruct (s >? bestScore)%js; [|now apply IH].
    apply IH. constructor.
    destruct Hsame as (Hid & Htitle & _).
    unfold sameMatch. simpl. auto.
Qed.

(** C8: on the same candidates in the two provider shapes, the scorer of
    the mirrors gives every candidate the score the scorer of the
    primary provider gives it, and selects the same video, in any
    arithmetic. *)
Theorem scorer_equivalence ys is_ target trackName artistName :
  Forall2 sameVideo ys is_ ->
  Forall2 (fun y i => youtubeScore y target trackName artistName =
                      invidiousScore i target trackName artistName) ys is_ /\
  videoId <$> findBestMatch ys target trackName artistName =
    videoId <$> findBestMatchInvidious is_ target trackName artistName /\
  title <$> findBestMatch ys target trackName artistName =
    title <$> findBestMatchInvidious is_ target trackName artistName /\
  duration <$> findBestMatch ys target trackName artistName =
    duration <$> findBestMatchInvidious is_ target trackName artistName.
Proof.
  intros Hsame. split.
  - eapply Forall2_impl; [exact Hsame|].
    intros y i Hyi. now apply scores_agree.
  - pose proof (findBestMatchFrom_agree target trackName artistName ys is_
                  Hsame None None (fromZ 0) ltac:(constructor)) as H.
    unfold findBestMatch, findBestMatchInvidious.
    destruct H as [m1 m2 (Hid & Htitle & Hdur)|]; simpl;
      [rewrite Hid, Htitle, Hdur|]; auto.
Qed.

End TwoScorers.

Lemma scorer_equivalence_witness :
  videoId <$> findBestMatch (number := binary64)
                [Fixture.liveVersion; Fixture.officialAudio]
                200000 "Track" "Artist" =
  videoId <$> findBestMatchInvidious (number := binary64)
                [Fixture.liveVersionMirror; Fixture.officialAudioMirror]
                200000 "Track" "Artist".
Proof.
  apply (scorer_equivalence (number := binary64)
           [Fixture.liveVersion; Fixture.officialAudio]
           [Fixture.liveVersionMirror; Fixture.officialAudioMirror]).
  repeat constructor.
Defined.

(** ** Duration parsing *)

#[local] Arguments String.append !s1 s2 : simpl nomatch.
















(** ** The batch pipeline *)

Section BatchFacts.

Context {number : Number} {provider : Provider}.


(** One turn of the loop of [searchTracks]. *)
Lemma searchTracksFrom_cons total onProgress i q later results st :
  searchTracksFrom total onProgress i (q :: later) results st =
    let out := searchTrack (Track.name q) (Track.artist q)
                 (Track.duration_ms q) st in
    let '(final, st', ev) :=
      searchTracksFrom total onProgress (S i) later
        (results ++ [annotate q (resultOf out)])%list (stateOf out) in
    (final, st',
     ((if onProgress
       then [EvProgress (Z.of_nat i + 1) (Z.of_nat total)] else [])
      ++ eventsOf out
      ++ (if (Z.of_nat i <? Z.of_nat total - 1)%Z then [EvSleep 100] else [])
      ++ ev)%list).
Proof.
  simpl. unfold bind.
  destruct (searchTrack (Track.name q) (Track.artist q) (Track.duration_ms q) st)
    as [[m st1] ev1] eqn:Hout.
  destruct onProgress; unfold emit, ret; simpl; rewrite Hout;
    unfold resultOf, stateOf, eventsOf; simpl;
    destruct (Z.of_nat i <? Z.of_nat total - 1)%Z; simpl;
    destruct (searchTracksFrom total _ (S i) later _ st1) as [[final st2] ev2];
    simpl; rewrite ?app_nil_r; reflexivity.
Qed.

Lemma searchTracksFrom_result total onProgress : forall later i results st,
  resultOf (searchTracksFrom total onProgress i later results st) =
    (results ++ resolveAll later st)%list.
Proof.
  induction later as [|q later IH]; intros i results st.
  - simpl. unfold ret, resultOf. simpl. now rewrite app_nil_r.
  - rewrite searchTracksFrom_cons. simpl.
    specialize (IH (S i)
      (results ++ [annotate q (resultOf (searchTrack (Track.name q)
                     (Track.artist q) (Track.duration_ms q) st))])%list
      (stateOf (searchTrack (Track.name q) (Track.artist q)
                  (Track.duration_ms q) st))).
    destruct (searchTracksFrom total onProgress (S i) later _ _)
      as [[final st2] ev2].
    unfold resultOf in IH at 1. simpl in IH. unfold resultOf at 1. simpl.
    rewrite IH, <- app_assoc. reflexivity.
Qed.

Lemma searchTracksFrom_events total onProgress : forall later i results st,
  (i + length later = total)%nat ->
  eventsOf (searchTracksFrom total onProgress i later results st) =
    pacedTrace onProgress total (S i) later st.
Proof.
  induction later as [|q later IH]; intros i results st Hlen.
  - reflexivity.
  - rewrite searchTracksFrom_cons. simpl in *.
    specialize (IH (S i)
      (results ++ [annotate q (resultOf (searchTrack (Track.name q)
                     (Track.artist q) (Track.duration_ms q) st))])%list
      (stateOf (searchTrack (Track.name q) (Track.artist q)
                  (Track.duration_ms q) st)) ltac:(lia)).
    destruct (searchTracksFrom total onProgress (S i) later _ _)
      as [[final st2] ev2].
    unfold eventsOf in IH at 1. simpl in IH. unfold eventsOf at 1. simpl.
    rewrite IH. replace (Z.of_nat i + 1)%Z with (Z.pos (Pos.of_succ_nat i)) by lia.
    f_equal. f_equal. f_equal.
    destruct later as [|q' later]; simpl in *.
    + destruct (Z.ltb_spec (Z.of_nat i) (Z.of_nat total - 1)); [lia|reflexivity].
    + destruct (Z.ltb_spec (Z.of_nat i) (Z.of_nat total - 1)); [reflexivity|lia].
Qed.

Lemma resolveAll_length : forall queries st,
  length (resolveAll queries st) = length queries.
Proof.
  induction queries as [|q later IH]; intros st; simpl; [reflexivity|].
  now rewrite IH.
Qed.



Lemma filter_quiet ev :
  quiet ev -> List.filter isSleep ev = [] /\ List.filter isProgress ev = [].
Proof.
  induction 1 as [|e ev He _ [IH1 IH2]]; [auto|]. simpl.
  unfold isPacing in He. apply orb_false_iff in He as [-> ->]. auto.
Qed.

Lemma pacedTrace_progress callback total : forall queries position st,
  List.filter isProgress (pacedTrace callback total position queries st) =
    if callback
    then map (fun i => EvProgress (Z.of_nat i) (Z.of_nat total))
             (seq position (length queries))
    else [].
Proof.
  induction queries as [|q later IH]; intros position st; simpl.
  - now destruct callback.
  - rewrite !List.filter_app, IH.
    destruct (filter_quiet _ (searchTrack_quiet
                (Track.name q) (Track.artist q) (Track.duration_ms q) st))
      as [_ ->].
    destruct callback, later; reflexivity.
Qed.

Lemma pacedTrace_sleeps callback total : forall queries position st,
  List.filter isSleep (pacedTrace callback total position queries st) =
    repeat (EvSleep 100) (length queries - 1).
Proof.
  induction queries as [|q later IH]; intros position st; simpl.
  - reflexivity.
  - rewrite !List.filter_app, IH.
    destruct (filter_quiet _ (searchTrack_quiet
                (Track.name q) (Track.artist q) (Track.duration_ms q) st))
      as [-> _].
    rewrite Nat.sub_0_r.
    destruct callback, later; simpl; rewrite ?Nat.sub_0_r; reflexivity.
Qed.

(** When every query is in the memory tier, the batch causes the events
    of the pacing and no other. *)
Lemma pacedTrace_cached callback total : forall queries position st,
  Forall (fun q => is_Some (cache st !! cacheKeyOf (Track.name q) (Track.artist q)))
         queries ->
  Forall (fun e => isPacing e = true)
         (pacedTrace callback total position queries st).
Proof.
  induction queries as [|q later IH]; intros position st Hall; simpl.
  - constructor.
  - apply Forall_cons in Hall as [[entry Hq] Hlater].
    rewrite (searchTrack_memory_hit _ _ _ _ _ Hq).
    unfold eventsOf, stateOf. simpl.
    apply Forall_app. split; [destruct callback; repeat constructor|].
    apply Forall_app. split; [destruct later; repeat constructor|].
    now apply IH.
Qed.

(** C9: the batch calls the callback before it resolves a query, with
    the position of the query counted from 1 and the number of queries,
    and pauses for 100 ms after every query but the last; a resolution
    causes none of these events, so there is one call per query and one
    pause less than there are queries whatever the tiers hold, also when
    every query is answered from the memory tier. *)
Theorem batch_pacing tracks onProgress st :
  let out := searchTracks tracks onProgress st in
  let n := length tracks in
  eventsOf out = pacedTrace onProgress n 1 tracks st /\
  List.filter isProgress (eventsOf out) =
    (if onProgress
     then map (fun i => EvProgress (Z.of_nat i) (Z.of_nat n)) (seq 1 n)
     else []) /\
  List.filter isSleep (eventsOf out) = repeat (EvSleep 100) (n - 1) /\
  (Forall (fun q => is_Some (cache st !! cacheKeyOf (Track.name q)
                                              (Track.artist q))) tracks ->
   Forall (fun e => isPacing e = true) (eventsOf out)).
Proof.
  intros out n.
  assert (Hev : eventsOf out = pacedTrace onProgress n 1 tracks st).
  { subst out n. unfold searchTracks.
    now rewrite searchTracksFrom_events. }
  rewrite Hev. split; [reflexivity|]. split; [|split].
  - apply pacedTrace_progress.
  - apply pacedTrace_sleeps.
  - apply pacedTrace_cached.
Qed.

End BatchFacts.


(** The order-preservation example: the second of three queries fails
    and the other two are matched. *)
Example batch_three_queries :
  let out := searchTracks (number := exact) (provider := Fixture.flaky)
               Fixture.threeQueries true (newService Fixture.oneKey [] true) in
  map matched (resultOf out) = [true; false; true] /\
  map youtubeId (resultOf out) = [Some "vid-A"; None; Some "vid-A"] /\
  map track (resultOf out) = Fixture.threeQueries.
Proof. vm_compute. auto. Qed.

Lemma batch_pacing_witness :
  let out := searchTracks (number := exact) (provider := Fixture.exhausted)
               Fixture.twoSpellings true Fixture.warmService in
  Forall (fun e => isPacing e = true) (eventsOf out) /\
  List.filter isSleep (eventsOf out) = [EvSleep 100].
Proof.
  intros out.
  destruct (batch_pacing (number := exact) (provider := Fixture.exhausted)
              Fixture.twoSpellings true Fixture.warmService)
    as (_ & _ & Hsleep & Hcached).
  split; [|exact Hsleep].
  apply Hcached.
  repeat (apply Forall_cons; split; [eexists; vm_compute; reflexivity|]).
  constructor.
Defined.

(** The pause is there between two queries answered from the memory
    tier. *)
Example batch_cached_trace :
  eventsOf (searchTracks (number := exact) (provider := Fixture.exhausted)
              Fixture.twoSpellings true Fixture.warmService) =
    [EvProgress 1 2; EvSleep 100; EvProgress 2 2].
Proof. vm_compute. reflexivity. Qed.

(** * Further properties *)

#[local] Arguments String.append : simpl never.
#[local] Arguments String.concat : simpl never.

(** ** The key pool *)

Lemma loadApiKeys_numbered env (l : list nat) : forall keys,
  forEach l
    (fun i keys =>
       match env ("REACT_APP_YOUTUBE_API_KEY_" ++ decimal i) with
       | Some key => if Str.truthy key then (keys ++ [key])%list else keys
       | None => keys
       end) keys
  = (keys ++ omap (slot env) l)%list.
Proof.
  unfold forEach, slot.
  induction l as [|i l IH]; intros keys; simpl.
  - now rewrite app_nil_r.
  - rewrite IH.
    destruct (env _) as [key|]; [destruct (Str.truthy key)|]; simpl;
      rewrite <- ?app_assoc; reflexivity.
Qed.

Lemma numberedKeys_bound env (l : list nat) :
  (length (omap (slot env) l) <= length l)%nat /\
  Forall (fun key => Str.truthy key = true) (omap (slot env) l).
Proof.
  induction l as [|i l [IHl IHt]]; simpl; [split; [lia|constructor]|].
  change (list_omap nat string (slot env) l) with (omap (slot env) l).
  destruct (slot env i) as [key|] eqn:E; simpl; [|split; [lia|exact IHt]].
  split; [lia|]. constructor; [|exact IHt].
  unfold slot in E. destruct (env _) as [key'|]; [|discriminate].
  destruct (Str.truthy key') eqn:Hk; [|discriminate]. congruence.
Qed.

(** X1: [loadApiKeys] gives the numbered slots 1 to 10 that are set and
    not empty, in the order of their numbers; the slot of the old format
    is read only when none of them is usable.  The pool has at most 10
    keys and none is empty. *)
Theorem loadApiKeys_slots env :
  loadApiKeys env =
    (match numberedKeys env with
     | [] => legacyKey env
     | keys => keys
     end) /\
  (length (loadApiKeys env) <= 10)%nat /\
  Forall (fun key => Str.truthy key = true) (loadApiKeys env).
Proof.
  assert (Heq : loadApiKeys env =
                match numberedKeys env with
                | [] => legacyKey env
                | keys => keys
                end).
  { unfold loadApiKeys. rewrite loadApiKeys_numbered, app_nil_l.
    fold (numberedKeys env). unfold legacyKey.
    destruct (numberedKeys env) as [|key keys]; [|reflexivity].
    destruct (env "REACT_APP_YOUTUBE_API_KEY") as [key|]; [|reflexivity].
    destruct (Str.truthy key); reflexivity. }
  split; [exact Heq|]. rewrite Heq.
  destruct (numberedKeys_bound env (seq 1 10)) as [Hlen Htruthy].
  fold (numberedKeys env) in Hlen, Htruthy.
  destruct (numberedKeys env) as [|key keys] eqn:E.
  - unfold legacyKey.
    destruct (env "REACT_APP_YOUTUBE_API_KEY") as [key|];
      [destruct (Str.truthy key) eqn:Hk|]; simpl; split; try lia;
      repeat constructor; exact Hk.
  - split; [exact Hlen|exact Htruthy].
Qed.

(** ** The resolver *)

Section ResolverMore.

Context {number : Number} {provider : Provider}.

(** One call of [searchWithYouTube] is one call of the search
    endpoint. *)
Lemma searchWithYouTube_once t a d st :
  searchAttempts (eventsOf (searchWithYouTube t a d st)) = 1%nat.
Proof.
  unfold searchWithYouTube, bind.
  pose proof (getCurrentApiKey_state st) as [_ He].
  destruct (getCurrentApiKey st) as [[apiKey st1] ev1].
  unfold eventsOf in *; simpl in He; subst ev1. unfold emit, ret; simpl.
  destruct (fetchSearch apiKey _) as [|status [reason|]|[[|item items]|]];
    simpl; try reflexivity.
  - destruct (String.eqb reason "quotaExceeded"); reflexivity.
  - destruct (fetchDetails apiKey _); reflexivity.
Qed.

Lemma searchWithYouTube_refused t a d st :
  (0 < length (apiKeys st))%nat ->
  quotaRefusal (fetchSearch (apiKeys st !! currentKeyIndex st) (queryOf t a)) ->
  searchWithYouTube t a d st =
    (inl QuotaError, st,
     [EvSearch (apiKeys st !! currentKeyIndex st) (queryOf t a)]).
Proof.
  intros Hlen [status Hq].
  unfold searchWithYouTube, getCurrentApiKey, bind, get. simpl.
  destruct (Nat.eqb_spec (length (apiKeys st)) 0); [lia|].
  unfold ret, emit. simpl. unfold queryOf in Hq. rewrite Hq. reflexivity.
Qed.

Lemma searchWithYouTube_found t a d st item items videos :
  (0 < length (apiKeys st))%nat ->
  let key := apiKeys st !! currentKeyIndex st in
  fetchSearch key (queryOf t a) = SearchItems (Some (item :: items)) ->
  fetchDetails key (String.concat "," (item :: items)) = DetailsItems videos ->
  searchWithYouTube t a d st =
    (inr (findBestMatch videos d t a), st,
     [EvSearch key (queryOf t a);
      EvDetails key (String.concat "," (item :: items))]).
Proof.
  intros Hlen key Hs Hd.
  unfold searchWithYouTube, getCurrentApiKey, bind, get. simpl.
  destruct (Nat.eqb_spec (length (apiKeys st)) 0); [lia|].
  unfold ret, emit. simpl. fold key. unfold queryOf in Hs. rewrite Hs.
  simpl. rewrite Hd. reflexivity.
Qed.

(** With no key in the pool a query that is in neither tier is answered
    [null] after the query of the store, and nothing else happens. *)
Lemma searchTrack_no_keys t a d st :
  apiKeys st = [] ->
  missesBoth t a st ->
  searchTrack t a d st = (None, st, [EvSelect t a]).
Proof.
  intros Hkeys [Hmem Hdb].
  unfold searchTrack, bind, get. simpl. rewrite Hmem.
  destruct (checkDatabaseCache_state t a st) as [Hs He].
  destruct (checkDatabaseCache t a st) as [[found st1] ev1].
  unfold resultOf, stateOf, eventsOf in *. simpl in *. subst.
  unfold getCurrentApiKey, bind, get. simpl. rewrite Hkeys. reflexivity.
Qed.

Lemma searchTracksFrom_state total onProgress : forall later i results st,
  stateOf (searchTracksFrom total onProgress i later results st) =
    serviceAfter later st.
Proof.
  induction later as [|q later IH]; intros i results st.
  - reflexivity.
  - rewrite searchTracksFrom_cons. simpl.
    specialize (IH (S i)
      (results ++ [annotate q (resultOf (searchTrack (Track.name q)
                     (Track.artist q) (Track.duration_ms q) st))])%list
      (stateOf (searchTrack (Track.name q) (Track.artist q)
                  (Track.duration_ms q) st))).
    destruct (searchTracksFrom total onProgress (S i) later _ _)
      as [[final st2] ev2].
    exact IH.
Qed.

Lemma searchAttempts_app ev1 ev2 :
  searchAttempts (ev1 ++ ev2) = (searchAttempts ev1 + searchAttempts ev2)%nat.
Proof.
  unfold searchAttempts. now rewrite List.filter_app, length_app.
Qed.

(** X2: with no key configured, a batch of queries that are in neither
    tier comes back with every entry unmatched, in the order of the
    queries; the service is left as it was and the search endpoint is
    never called. *)
Theorem batch_without_keys tracks onProgress st :
  apiKeys st = [] ->
  Forall (fun q => missesBoth (Track.name q) (Track.artist q) st) tracks ->
  let out := searchTracks tracks onProgress st in
  resultOf out = unmatched <$> tracks /\
  stateOf out = st /\
  searchAttempts (eventsOf out) = 0%nat.
Proof.
  intros Hkeys Hmiss out. subst out. unfold searchTracks.
  rewrite searchTracksFrom_result, searchTracksFrom_state,
    searchTracksFrom_events by reflexivity.
  simpl. generalize 1%nat as position. generalize (length tracks) as total.
  induction Hmiss as [|q later Hq Hlater IH]; intros total position; simpl.
  - auto.
  - rewrite (searchTrack_no_keys _ _ _ _ Hkeys Hq).
    unfold resultOf, stateOf, eventsOf. simpl.
    destruct (IH total (S position)) as (Hr & Hs & He).
    split; [now rewrite Hr|]. split; [exact Hs|].
    change (EvSelect ?x ?y :: ?l)%list with ([EvSelect x y] ++ l)%list.
    rewrite !searchAttempts_app, He.
    destruct onProgress, later; reflexivity.
Qed.

(** X3: a query that is in neither tier, for which the provider raises
    an error other than the lack of quota or finds no video, is answered
    [null] after one call of the search endpoint: the key is not
    rotated, nothing is stored, and asking again repeats the same
    requests. *)
Theorem no_retry_without_quota t a d st key :
  missesBoth t a st ->
  (0 < length (apiKeys st))%nat ->
  apiKeys st !! currentKeyIndex st = Some key ->
  Str.truthy key = true ->
  resultOf (searchWithYouTube t a d st) <> inl QuotaError ->
  (forall result, resultOf (searchWithYouTube t a d st) <> inr (Some result)) ->
  let out := searchTrack t a d st in
  out = (None, st, EvSelect t a :: eventsOf (searchWithYouTube t a d st)) /\
  searchAttempts (eventsOf out) = 1%nat /\
  searchTrack t a d (stateOf out) = out.
Proof.
  intros [Hmem Hdb] Hlen Hkey Htruthy Hquota Hnone out.
  assert (Hout : out = (None, st,
                        EvSelect t a :: eventsOf (searchWithYouTube t a d st))).
  { subst out. rewrite (searchTrack_miss t a d st key) by assumption.
    rewrite searchTrackLoop_eq.
    destruct (Nat.ltb_spec 0 (length (apiKeys st))); [|lia].
    rewrite searchTrackPass_eq.
    destruct (searchWithYouTube t a d st) as [[[error|[result|]] st1] ev];
      unfold resultOf, eventsOf in *; simpl in *.
    - destruct error; simpl; try reflexivity. now destruct Hquota.
    - now destruct (Hnone result).
    - reflexivity. }
  split; [exact Hout|]. rewrite Hout. unfold eventsOf, stateOf. simpl.
  split; [|exact Hout].
  change (EvSelect t a :: ?ev) with ([EvSelect t a] ++ ev)%list.
  rewrite searchAttempts_app. apply searchWithYouTube_once.
Qed.

(** The retry loop when the keys from the cursor on are out of quota up
    to one that finds a match. *)
Lemma searchTrackLoop_rotates t a d key N m item items videos : forall k attempts st,
  length (apiKeys st) = N ->
  (currentKeyIndex st < N)%nat ->
  (attempts + k < N)%nat ->
  let c := currentKeyIndex st in
  (forall j, (j < k)%nat ->
     quotaRefusal (fetchSearch (apiKeys st !! ((c + j) mod N)%nat) (queryOf t a))) ->
  let working := apiKeys st !! ((c + k) mod N)%nat in
  fetchSearch working (queryOf t a) = SearchItems (Some (item :: items)) ->
  fetchDetails working (String.concat "," (item :: items)) = DetailsItems videos ->
  findBestMatch videos d t a = Some m ->
  let out := searchTrackLoop t a d key N attempts st in
  resultOf out = Some m /\
  searchAttempts (eventsOf out) = S k /\
  currentKeyIndex (stateOf out) = ((c + k) mod N)%nat /\
  cache (stateOf out) = <[key := m]> (cache st).
Proof.
  induction k as [|k IH]; intros attempts st Hlen Hc Hk c Hquota working Hs Hd Hm out;
    subst out; rewrite searchTrackLoop_eq;
    destruct (Nat.ltb_spec attempts N); try lia;
    rewrite searchTrackPass_eq.
  - assert (Hw : ((c + 0) mod N = currentKeyIndex st)%nat)
      by (subst c; rewrite Nat.add_0_r; apply Nat.mod_small; lia).
    subst working. rewrite Hw in *. clear Hw.
    rewrite (searchWithYouTube_found t a d st item items videos) by (auto; lia).
    rewrite Hm. simpl.
    destruct (saveToDatabaseCache_service t a d m
                (setCache (<[key := m]>) st)) as (Hcache & Hcur & _).
    unfold resultOf, stateOf, eventsOf in *. simpl in *.
    split; [reflexivity|]. split; [|split; [exact Hcur|exact Hcache]].
    change (?e1 :: ?e2 :: ?ev)%list with ([e1; e2] ++ ev)%list.
    rewrite searchAttempts_app.
    assert (Hsave : searchAttempts
                      (saveToDatabaseCache t a d m (setCache (<[key := m]>) st)).2
                    = 0%nat).
    { unfold saveToDatabaseCache. unfold_method.
      destruct (storeReachable st); reflexivity. }
    rewrite Hsave. reflexivity.
  - rewrite searchWithYouTube_refused; [|lia|].
    2:{ specialize (Hquota 0%nat ltac:(lia)). subst c.
        rewrite Nat.add_0_r, Nat.mod_small in Hquota by lia. exact Hquota. }
    simpl. rewrite Hlen.
    destruct (Nat.ltb_spec 1 N); [|lia].
    set (st1 := setCurrentKeyIndex ((currentKeyIndex st + 1) mod N)%nat st).
    assert (Hshift : forall j,
              ((currentKeyIndex st1 + j) mod N = (c + S j) mod N)%nat).
    { intros j. subst st1 c. simpl.
      rewrite Nat.Div0.add_mod_idemp_l. f_equal. lia. }
    specialize (IH (S attempts) st1 Hlen
                  ltac:(subst st1; simpl; apply Nat.mod_upper_bound; lia)
                  ltac:(lia)).
    simpl in IH. rewrite Hshift in IH.
    specialize (IH ltac:(intros j Hj; rewrite Hshift; apply Hquota; lia) Hs Hd Hm).
    destruct (searchTrackLoop t a d key N (S attempts) st1) as [[result st2] ev2].
    unfold resultOf, stateOf, eventsOf in *. simpl in *.
    destruct IH as (-> & Hev & Hcur & Hcache).
    split; [reflexivity|]. split; [|split; [exact Hcur|exact Hcache]].
    unfold searchAttempts in *. simpl. now rewrite Hev.
Qed.

(** X4: when the keys from the cursor on are refused for lack of quota
    up to a key that finds a match, the query costs one call of the
    search endpoint for every refused key and one for the key that
    works; the cursor stays on that key, and the match is returned and
    put in the memory tier. *)
Theorem rotation_reaches_working_key t a d st N k m item items videos :
  length (apiKeys st) = N ->
  cursorInRange st ->
  keysTruthy st ->
  missesBoth t a st ->
  (k < N)%nat ->
  let c := currentKeyIndex st in
  (forall j, (j < k)%nat ->
     quotaRefusal (fetchSearch (apiKeys st !! ((c + j) mod N)%nat) (queryOf t a))) ->
  let working := apiKeys st !! ((c + k) mod N)%nat in
  fetchSearch working (queryOf t a) = SearchItems (Some (item :: items)) ->
  fetchDetails working (String.concat "," (item :: items)) = DetailsItems videos ->
  findBestMatch videos d t a = Some m ->
  let out := searchTrack t a d st in
  resultOf out = Some m /\
  searchAttempts (eventsOf out) = S k /\
  currentKeyIndex (stateOf out) = ((c + k) mod N)%nat /\
  cache (stateOf out) = <[cacheKeyOf t a := m]> (cache st).
Proof.
  intros Hlen Hrange Htruthy [Hmem Hdb] Hk c Hquota working Hs Hd Hm out.
  assert (Hc : (c < N)%nat) by (unfold cursorInRange in Hrange; subst c; lia).
  destruct (apiKeys st !! c) as [key|] eqn:Hkey;
    [|apply lookup_ge_None in Hkey; lia].
  assert (Hkt : Str.truthy key = true).
  { unfold keysTruthy in Htruthy. rewrite Forall_forall in Htruthy.
    apply Htruthy. eapply list_elem_of_lookup_2, Hkey. }
  subst out. rewrite (searchTrack_miss t a d st key) by (auto; lia).
  rewrite Hlen.
  pose proof (searchTrackLoop_rotates t a d (cacheKeyOf t a) N m item items
                videos k 0%nat st Hlen Hc ltac:(lia) Hquota Hs Hd Hm) as Hloop.
  destruct (searchTrackLoop t a d (cacheKeyOf t a) N 0 st) as [[result st2] ev2].
  unfold resultOf, stateOf, eventsOf in *. simpl in *.
  destruct Hloop as (-> & Hev & Hcur & Hcache).
  repeat split; assumption.
Qed.

(** *** What a resolution leaves in place *)

Lemma keepsEntries_refl st : keepsEntries st st.
Proof. split; reflexivity. Qed.

Lemma keepsEntries_trans st1 st2 st3 :
  keepsEntries st1 st2 -> keepsEntries st2 st3 -> keepsEntries st1 st3.
Proof. intros [Hc1 Ht1] [Hc2 Ht2]. split; etrans; eassumption. Qed.

Lemma keepsPool_refl st : keepsPool st st.
Proof. repeat split; auto. Qed.

Lemma keepsPool_trans st1 st2 st3 :
  keepsPool st1 st2 -> keepsPool st2 st3 -> keepsPool st1 st3.
Proof.
  intros (Hk1 & Hr1 & Hc1) (Hk2 & Hr2 & Hc2).
  repeat split; [congruence|congruence|auto].
Qed.

(** The row [saveToDatabaseCache] writes. *)
Lemma saveToDatabaseCache_table t a d r st :
  youtube_cache (stateOf (saveToDatabaseCache t a d r st)) =
    if storeReachable st
    then insertRow (youtube_cache st)
           {| track_name := t; artist_name := a; duration_ms := d;
              video_id := videoId r; video_title := title r;
              video_duration := duration r; thumbnail_url := thumbnailUrl r;
              channel_title := channelTitle r |}
    else youtube_cache st.
Proof.
  unfold saveToDatabaseCache. unfold_method.
  destruct (storeReachable st); reflexivity.
Qed.

Lemma insertRow_prefix table row : table `prefix_of` insertRow table row.
Proof.
  unfold insertRow. destruct (existsb _ _); [reflexivity|].
  now apply prefix_app_r.
Qed.

(** One pass of the retry loop for a key the memory tier does not hold:
    both tiers keep what they had, and a pass that asks for another one
    has changed neither. *)
Lemma searchTrackPass_entries t a d key st :
  cache st !! key = None ->
  let out := searchTrackPass t a d key st in
  keepsEntries st (stateOf out) /\
  storeReachable (stateOf out) = storeReachable st /\
  (resultOf out = Continue ->
   cache (stateOf out) = cache st /\
   youtube_cache (stateOf out) = youtube_cache st) /\
  (forall m, resultOf out = Return (Some m) ->
   youtube_cache (stateOf out) =
     if storeReachable st
     then insertRow (youtube_cache st)
            {| track_name := t; artist_name := a; duration_ms := d;
               video_id := videoId m; video_title := title m;
               video_duration := duration m; thumbnail_url := thumbnailUrl m;
               channel_title := channelTitle m |}
     else youtube_cache st).
Proof.
  intros Hmem. simpl. rewrite searchTrackPass_eq.
  destruct (searchWithYouTube t a d st) as [[[error|[result|]] st1] ev];
    simpl.
  - destruct (_ && _); unfold stateOf, resultOf; simpl;
      (split; [split; reflexivity|]); (split; [reflexivity|]);
      split; auto; discriminate.
  - pose proof (saveToDatabaseCache_table t a d result
                  (setCache (<[key := result]>) st)) as Htable.
    destruct (saveToDatabaseCache_service t a d result
                (setCache (<[key := result]>) st)) as (Hc & _ & _ & Hr).
    unfold stateOf, resultOf in *. simpl in *.
    split; [split|split; [exact Hr|split; [discriminate|]]].
    + rewrite Hc. now apply insert_subseteq.
    + rewrite Htable. destruct (storeReachable st); [|reflexivity].
      apply insertRow_prefix.
    + intros m [= <-]. exact Htable.
  - unfold stateOf, resultOf; simpl.
    split; [apply keepsEntries_refl|]. split; [reflexivity|].
    split; discriminate.
Qed.

Lemma searchTrackLoop_entries t a d key maxAttempts :
  forall n attempts st,
    (maxAttempts - attempts = n)%nat ->
    cache st !! key = None ->
    let out := searchTrackLoop t a d key maxAttempts attempts st in
    keepsEntries st (stateOf out) /\
    storeReachable (stateOf out) = storeReachable st /\
    (forall m, resultOf out = Some m ->
     youtube_cache (stateOf out) =
       if storeReachable st
       then insertRow (youtube_cache st)
              {| track_name := t; artist_name := a; duration_ms := d;
                 video_id := videoId m; video_title := title m;
                 video_duration := duration m; thumbnail_url := thumbnailUrl m;
                 channel_title := channelTitle m |}
       else youtube_cache st).
Proof.
  induction n as [|n IH]; intros attempts st Hn Hmem; simpl;
    rewrite searchTrackLoop_eq;
    destruct (Nat.ltb_spec attempts maxAttempts); try lia;
    try (split; [apply keepsEntries_refl|split; [reflexivity|discriminate]]).
  pose proof (searchTrackPass_entries t a d key st Hmem) as Hpass.
  destruct (searchTrackPass t a d key st) as [[[result|] st1] ev1];
    unfold stateOf, resultOf in *; simpl in *.
  - destruct Hpass as (He & Hr & _ & Hsaved).
    split; [exact He|]. split; [exact Hr|].
    intros m ->. now apply Hsaved.
  - destruct Hpass as (He & Hr & Hsame & _).
    destruct (Hsame eq_refl) as [Hc Ht].
    specialize (IH (S attempts) st1 ltac:(lia) ltac:(now rewrite Hc)).
    destruct (searchTrackLoop t a d key maxAttempts (S attempts) st1)
      as [[result st2] ev2].
    simpl in *. destruct IH as (He2 & Hr2 & Hsaved).
    split; [eapply keepsEntries_trans; eassumption|].
    split; [congruence|].
    intros m Hm. rewrite (Hsaved m Hm), Hr, Ht. reflexivity.
Qed.

Lemma searchTrack_entries t a d st :
  keepsEntries st (stateOf (searchTrack t a d st)) /\
  storeReachable (stateOf (searchTrack t a d st)) = storeReachable st.
Proof.
  destruct (cache st !! cacheKeyOf t a) as [cached|] eqn:Hmem.
  { rewrite (searchTrack_memory_hit _ _ _ _ _ Hmem).
    split; [apply keepsEntries_refl|reflexivity]. }
  destruct (resultOf (checkDatabaseCache t a st)) as [found|] eqn:Hdb.
  { rewrite (searchTrack_durable_hit _ _ _ _ _ Hmem Hdb).
    unfold stateOf. simpl. split; [split|reflexivity].
    - now apply insert_subseteq.
    - reflexivity. }
  unfold searchTrack, bind, get. simpl. rewrite Hmem.
  destruct (checkDatabaseCache_state t a st) as [Hs He].
  destruct (checkDatabaseCache t a st) as [[found st1] ev1].
  unfold resultOf, stateOf, eventsOf in Hdb, Hs, He. simpl in *. subst.
  destruct (getCurrentApiKey_state st) as [Hs _].
  destruct (getCurrentApiKey st) as [[apiKey st1] ev1].
  unfold stateOf in Hs. simpl in Hs. subst st1.
  destruct apiKey as [key|];
    [|split; [apply keepsEntries_refl|reflexivity]].
  destruct (Str.truthy key);
    [|split; [apply keepsEntries_refl|reflexivity]].
  pose proof (searchTrackLoop_entries t a d (cacheKeyOf t a)
                (length (apiKeys st)) _ 0%nat st eq_refl Hmem) as Hloop.
  destruct (searchTrackLoop _ _ _ _ _ _ _) as [[result st2] ev2].
  unfold stateOf in *. simpl in *. destruct Hloop as (H1 & H2 & _).
  split; assumption.
Qed.

(** X5: a batch never touches the keys or the connection of the store,
    and it leaves the cursor of the pool in range. *)
Theorem batch_keeps_pool tracks onProgress st :
  keepsPool st (stateOf (searchTracks tracks onProgress st)).
Proof.
  unfold searchTracks. rewrite searchTracksFrom_state.
  revert st. induction tracks as [|q later IH]; intros st; simpl.
  - apply keepsPool_refl.
  - eapply keepsPool_trans; [|apply IH].
    destruct (searchTrack_pool (Track.name q) (Track.artist q)
                (Track.duration_ms q) st) as [Hk Hc].
    destruct (searchTrack_entries (Track.name q) (Track.artist q)
                (Track.duration_ms q) st) as [_ Hr].
    repeat split; assumption.
Qed.

(** X6: a batch only adds to the two cache tiers: an entry of the
    memory tier is never removed or replaced, and the rows of the
    durable table stay, in their order, at the head of the table. *)
Theorem batch_keeps_entries tracks onProgress st :
  keepsEntries st (stateOf (searchTracks tracks onProgress st)).
Proof.
  unfold searchTracks. rewrite searchTracksFrom_state.
  revert st. induction tracks as [|q later IH]; intros st; simpl.
  - apply keepsEntries_refl.
  - eapply keepsEntries_trans; [|apply IH].
    apply searchTrack_entries.
Qed.

(** *** The durable tier after [clearCache] *)

Lemma lowerChar_backslash c : Str.lowerChar c = "\"%char -> c = "\"%char.
Proof.
  destruct c as [[] [] [] [] [] [] [] []]; vm_compute; congruence.
Qed.

Lemma toLowerCase_plain s :
  plain s -> ~ In "\"%char (list_ascii_of_string (Str.toLowerCase s)).
Proof.
  unfold plain. induction s as [|c s IH]; simpl; [auto|].
  intros Hs [Hc|Hin].
  - apply Hs. left. now apply lowerChar_backslash.
  - apply IH; [|exact Hin]. intros H. apply Hs. now right.
Qed.

Lemma likeMatch_percent p v :
  likeMatch ("%"%char :: p) v =
    likeMatch p v ||
    match v with [] => false | _ :: v' => likeMatch ("%"%char :: p) v' end.
Proof. destruct v; reflexivity. Qed.

Lemma likeMatch_refl p : ~ In "\"%char p -> likeMatch p p = true.
Proof.
  induction p as [|c p IH]; [reflexivity|].
  intros Hc.
  assert (Hp : likeMatch p p = true)
    by (apply IH; intros H; apply Hc; now right).
  destruct (Ascii.eqb_spec c "%") as [->|Hpercent].
  { rewrite likeMatch_percent, (likeMatch_percent p p), Hp. simpl.
    apply orb_true_r. }
  simpl.
  destruct (Ascii.eqb_spec c "%"); [contradiction|].
  destruct (Ascii.eqb_spec c "_"); [exact Hp|].
  destruct (Ascii.eqb_spec c "\"); [destruct Hc; now left|].
  now rewrite Ascii.eqb_refl.
Qed.

Lemma ilike_refl s : plain s -> ilike s s = true.
Proof. intros Hs. apply likeMatch_refl, toLowerCase_plain, Hs. Qed.

(** X7: the durable tier answers for the memory tier once that is
    cleared.  When a query with plain names, in neither tier, has been
    resolved through the provider with the store in reach, the same
    query after [clearCache] is answered with the same match from the
    durable table: the store is queried once and no provider is
    called. *)
Theorem durable_tier_after_clearCache t a d st m :
  plain t ->
  plain a ->
  storeReachable st = true ->
  missesBoth t a st ->
  resultOf (searchTrack t a d st) = Some m ->
  let cleared := stateOf (clearCache (stateOf (searchTrack t a d st))) in
  cache cleared = ∅ /\
  searchTrack t a d cleared =
    (Some m, setCache (<[cacheKeyOf t a := m]>) cleared, [EvSelect t a]).
Proof.
  intros Ht Ha Hreach [Hmem Hdb] Hres cleared.
  split; [reflexivity|].
  apply searchTrack_durable_hit; [apply lookup_empty|].
  set (row := {| track_name := t; artist_name := a; duration_ms := d;
                 video_id := videoId m; video_title := title m;
                 video_duration := duration m; thumbnail_url := thumbnailUrl m;
                 channel_title := channelTitle m |}).
  assert (Hnone : selectRows (youtube_cache st) t a = []).
  { unfold checkDatabaseCache in Hdb. unfold_method. rewrite Hreach in Hdb.
    destruct (selectRows (youtube_cache st) t a); [reflexivity|discriminate]. }
  assert (Htable : youtube_cache cleared = (youtube_cache st ++ [row])%list /\
                   storeReachable cleared = true).
  { subst cleared. unfold clearCache, modify, stateOf at 1 3. simpl.
    revert Hres. unfold searchTrack, bind, get. simpl. rewrite Hmem.
    destruct (checkDatabaseCache_state t a st) as [Hs He].
    destruct (checkDatabaseCache t a st) as [[found st1] ev1].
    unfold resultOf, stateOf, eventsOf in Hdb, Hs, He. simpl in *. subst.
    destruct (getCurrentApiKey_state st) as [Hs _].
    destruct (getCurrentApiKey st) as [[apiKey st1] ev1].
    unfold stateOf in Hs. simpl in Hs. subst st1.
    destruct apiKey as [key|]; [|discriminate].
    destruct (Str.truthy key); [|discriminate].
    pose proof (searchTrackLoop_entries t a d (cacheKeyOf t a)
                  (length (apiKeys st)) _ 0%nat st eq_refl Hmem) as Hloop.
    destruct (searchTrackLoop _ _ _ _ _ _ _) as [[result st2] ev2].
    unfold stateOf, resultOf in *. simpl in *.
    destruct Hloop as (_ & Hr & Hsaved). intros ->.
    rewrite (Hsaved m eq_refl), Hr, Hreach. split; [|reflexivity].
    unfold insertRow. fold row.
    destruct (existsb _ (youtube_cache st)) eqn:Hex; [|reflexivity].
    apply existsb_exists in Hex. destruct Hex as (r & Hin & Heq).
    apply andb_prop in Heq. destruct Heq as [Hn Hart].
    apply String.eqb_eq in Hn, Hart. simpl in Hn, Hart.
    assert (Hsel : In r (selectRows (youtube_cache st) t a)).
    { unfold selectRows. apply list_elem_of_In, list_elem_of_filter.
      split; [|now apply list_elem_of_In].
      rewrite Hn, Hart, !ilike_refl by assumption. reflexivity. }
    rewrite Hnone in Hsel. destruct Hsel. }
  destruct Htable as [Htable Hr].
  unfold checkDatabaseCache. unfold_method. rewrite Hr, Htable.
  unfold selectRows in *. rewrite filter_app, Hnone. simpl.
  rewrite filter_cons_True
    by (simpl; rewrite !ilike_refl by assumption; reflexivity).
  simpl. destruct m; reflexivity.
Qed.

(** *** The durable tier acts through its lookup only *)

Lemma searchWithYouTube_same t a d st1 st2 :
  sameService st1 st2 ->
  resultOf (searchWithYouTube t a d st1) = resultOf (searchWithYouTube t a d st2) /\
  eventsOf (searchWithYouTube t a d st1) = eventsOf (searchWithYouTube t a d st2).
Proof.
  intros (_ & Hc & Hk).
  unfold searchWithYouTube, getCurrentApiKey, bind, get. simpl.
  rewrite Hk, Hc.
  destruct (length (apiKeys st2) =? 0)%nat; unfold ret, emit; simpl;
    (destruct (fetchSearch _ _) as [|status [reason|]|[[|item items]|]];
     simpl; try (split; reflexivity);
     [destruct (String.eqb reason "quotaExceeded"); split; reflexivity
     |destruct (fetchDetails _ _); split; reflexivity]).
Qed.

Lemma searchTrackPass_same t a d key st1 st2 :
  sameService st1 st2 ->
  let out1 := searchTrackPass t a d key st1 in
  let out2 := searchTrackPass t a d key st2 in
  resultOf out1 = resultOf out2 /\
  eventsOf out1 = eventsOf out2 /\
  sameService (stateOf out1) (stateOf out2).
Proof.
  intros Hsame. simpl. rewrite !searchTrackPass_eq.
  destruct (searchWithYouTube_same t a d st1 st2 Hsame) as [Hr He].
  destruct Hsame as (Hcache & Hc & Hk).
  destruct (searchWithYouTube t a d st1) as [[o1 s1] ev1],
           (searchWithYouTube t a d st2) as [[o2 s2] ev2].
  unfold resultOf, eventsOf in Hr, He. simpl in Hr, He. subst o2 ev2.
  destruct o1 as [error|[result|]].
  - rewrite Hk, Hc. destruct (_ && _); unfold resultOf, eventsOf, stateOf;
      simpl; repeat split; assumption.
  - destruct (saveToDatabaseCache_service t a d result
                (setCache (<[key := result]>) st1)) as (Hc1 & Hi1 & Hk1 & _).
    destruct (saveToDatabaseCache_service t a d result
                (setCache (<[key := result]>) st2)) as (Hc2 & Hi2 & Hk2 & _).
    assert (Hev : eventsOf (saveToDatabaseCache t a d result
                              (setCache (<[key := result]>) st1)) =
                  eventsOf (saveToDatabaseCache t a d result
                              (setCache (<[key := result]>) st2))).
    { unfold saveToDatabaseCache. unfold_method.
      destruct (storeReachable st1), (storeReachable st2); reflexivity. }
    unfold resultOf, eventsOf, stateOf in *. simpl in *.
    split; [reflexivity|]. split; [now rewrite Hev|].
    repeat split; congruence.
  - unfold resultOf, eventsOf, stateOf; simpl. repeat split; assumption.
Qed.

Lemma searchTrackLoop_same t a d key maxAttempts :
  forall n attempts st1 st2,
    (maxAttempts - attempts = n)%nat ->
    sameService st1 st2 ->
    let out1 := searchTrackLoop t a d key maxAttempts attempts st1 in
    let out2 := searchTrackLoop t a d key maxAttempts attempts st2 in
    resultOf out1 = resultOf out2 /\
    eventsOf out1 = eventsOf out2 /\
    sameService (stateOf out1) (stateOf out2).
Proof.
  induction n as [|n IH]; intros attempts st1 st2 Hn Hsame; simpl;
    rewrite !searchTrackLoop_eq;
    destruct (Nat.ltb_spec attempts maxAttempts); try lia;
    try (repeat split; apply Hsame).
  pose proof (searchTrackPass_same t a d key st1 st2 Hsame) as Hpass.
  destruct (searchTrackPass t a d key st1) as [[p1 s1] ev1],
           (searchTrackPass t a d key st2) as [[p2 s2] ev2].
  unfold resultOf, eventsOf, stateOf in Hpass. simpl in Hpass.
  destruct Hpass as (<- & <- & Hsame1).
  destruct p1 as [result|]; [exact (conj eq_refl (conj eq_refl Hsame1))|].
  specialize (IH (S attempts) s1 s2 ltac:(lia) Hsame1).
  destruct (searchTrackLoop t a d key maxAttempts (S attempts) s1)
    as [[r1 t1] e1],
    (searchTrackLoop t a d key maxAttempts (S attempts) s2) as [[r2 t2] e2].
  unfold resultOf, eventsOf, stateOf in *. simpl in *.
  destruct IH as (-> & -> & Hsame2). auto.
Qed.

(** X8: the durable table acts on a resolution through the answer to
    its lookup only.  Two services with the same memory tier and the
    same key pool whose stores answer the lookup alike, one of which may
    be out of reach, give the same result for a query, cause the same
    events and end with the same memory tier and cursor. *)
Theorem store_acts_through_lookup t a d st1 st2 :
  sameService st1 st2 ->
  resultOf (checkDatabaseCache t a st1) = resultOf (checkDatabaseCache t a st2) ->
  let out1 := searchTrack t a d st1 in
  let out2 := searchTrack t a d st2 in
  resultOf out1 = resultOf out2 /\
  eventsOf out1 = eventsOf out2 /\
  sameService (stateOf out1) (stateOf out2).
Proof.
  intros Hsame Hlookup. simpl.
  pose proof Hsame as (Hcache & Hc & Hk).
  unfold searchTrack, bind, get. simpl. rewrite Hcache.
  destruct (cache st2 !! cacheKeyOf t a) as [cached|];
    [repeat split; assumption|].
  destruct (checkDatabaseCache_state t a st1) as [Hs1 He1],
           (checkDatabaseCache_state t a st2) as [Hs2 He2].
  destruct (checkDatabaseCache t a st1) as [[found1 s1] ev1],
           (checkDatabaseCache t a st2) as [[found2 s2] ev2].
  unfold resultOf, stateOf, eventsOf in Hlookup, Hs1, He1, Hs2, He2.
  simpl in *. subst.
  destruct found2 as [found|].
  { unfold resultOf, eventsOf, stateOf, sameService. simpl.
    rewrite Hcache. auto. }
  unfold getCurrentApiKey, bind, get. simpl. rewrite Hk, Hc.
  destruct (length (apiKeys st2) =? 0)%nat; unfold ret; simpl;
    [repeat split; assumption|].
  destruct (apiKeys st2 !! currentKeyIndex st2) as [key|];
    [|repeat split; assumption].
  destruct (Str.truthy key); [|repeat split; assumption].
  rewrite ?Hk.
  pose proof (searchTrackLoop_same t a d (cacheKeyOf t a)
                (length (apiKeys st2)) _ 0%nat st1 st2 eq_refl Hsame) as Hloop.
  destruct (searchTrackLoop _ _ _ _ _ _ st1) as [[r1 t1] e1],
           (searchTrackLoop _ _ _ _ _ _ st2) as [[r2 t2] e2].
  unfold resultOf, eventsOf, stateOf in *. simpl in *.
  destruct Hloop as (-> & -> & Hsame2). auto.
Qed.

End ResolverMore.

(** ** The fallback over the mirrors *)

Section FallbackFacts.

Context {number : Number} {mirrors : Mirrors}.

Lemma searchWithInvidiousFrom_down t a d current : forall down rest,
  Forall (fun i => mirrorDown (fetchMirror i (queryOf t a))) down ->
  searchWithInvidiousFrom (down ++ rest) t a d current =
    let '(result, current', ev) := searchWithInvidiousFrom rest t a d current in
    (result, current', (mirrorRequests down t a ++ ev)%list).
Proof.
  induction down as [|i down IH]; intros rest Hdown.
  - simpl. now destruct (searchWithInvidiousFrom rest t a d current) as [[? ?] ?].
  - apply Forall_cons in Hdown. destruct Hdown as [Hi Hdown].
    simpl. rewrite (IH rest Hdown).
    destruct (searchWithInvidiousFrom rest t a d current) as [[r c] ev].
    unfold queryOf in Hi.
    destruct (fetchMirror i _); [reflexivity|reflexivity|destruct Hi].
Qed.

(** X9: the fallback asks the instances in the order of the list and
    stops at the first that answers: the instances before it, which gave
    no answer or one that is not [ok], are each asked once, those after
    it are not asked.  The result is the best match among what that
    instance returned, [null] when it returned nothing or nothing
    within the tolerance, and the instance is remembered only when
    there is a match. *)
Theorem fallback_stops_at_first_answer t a d current down instance later results :
  INVIDIOUS_INSTANCES = (down ++ instance :: later)%list ->
  Forall (fun i => mirrorDown (fetchMirror i (queryOf t a))) down ->
  fetchMirror instance (queryOf t a) = MirrorResults results ->
  let best :=
    match results with
    | Some videos => findBestMatchInvidious videos d t a
    | None => None
    end in
  searchWithInvidious t a d current =
    (best,
     match best with Some _ => Some instance | None => current end,
     mirrorRequests (down ++ [instance]) t a).
Proof.
  intros Hlist Hdown Hanswer best. unfold searchWithInvidious.
  rewrite Hlist, (searchWithInvidiousFrom_down t a d current down _ Hdown).
  simpl. unfold queryOf in Hanswer. rewrite Hanswer.
  unfold mirrorRequests. rewrite fmap_app. subst best.
  destruct results as [[|video videos]|]; try reflexivity.
  destruct (findBestMatchInvidious (video :: videos) d t a); reflexivity.
Qed.

(** X10: when no instance answers, each of the five is asked once, in
    the order of the list; the result is [null] and the instance
    remembered stays what it was. *)
Theorem fallback_exhausts_instances t a d current :
  Forall (fun i => mirrorDown (fetchMirror i (queryOf t a))) INVIDIOUS_INSTANCES ->
  searchWithInvidious t a d current =
    (None, current, mirrorRequests INVIDIOUS_INSTANCES t a) /\
  length (mirrorRequests INVIDIOUS_INSTANCES t a) = 5%nat.
Proof.
  intros Hdown. split; [|reflexivity]. unfold searchWithInvidious.
  rewrite <- (app_nil_r INVIDIOUS_INSTANCES) at 1.
  rewrite (searchWithInvidiousFrom_down t a d current _ [] Hdown).
  simpl. rewrite ?app_nil_r. reflexivity.
Qed.

End FallbackFacts.

(** ** The playlist service *)

#[local] Arguments String.append !s1 s2 : simpl nomatch.

Lemma takeAlnum_app id rest :
  allAlnum id = true ->
  headNotAlnum rest ->
  Spotify.takeAlnum (id ++ rest) = id.
Proof.
  intros Hid Hrest. induction id as [|c id IH]; simpl in *.
  - destruct rest as [|c rest]; simpl in *; [reflexivity|now rewrite Hrest].
  - apply andb_prop in Hid. destruct Hid as [Hc Hid].
    now rewrite Hc, IH.
Qed.

Lemma takeAlnum_split s :
  exists rest,
    s = Spotify.takeAlnum s ++ rest /\
    allAlnum (Spotify.takeAlnum s) = true /\
    headNotAlnum rest.
Proof.
  induction s as [|c s (rest & Hs & Hall & Hrest)]; simpl.
  - exists "". repeat split.
  - destruct (Spotify.isAlnum c) eqn:Hc.
    + exists rest. simpl. rewrite Hc, Hall. repeat split; [congruence|assumption].
    + exists (String c s). simpl. auto.
Qed.

Lemma startsWith_split term : forall s,
  Str.startsWith s term = true ->
  s = term ++ Spotify.drop (String.length term) s.
Proof.
  induction term as [|c term IH]; intros s H; simpl in *.
  - now destruct s.
  - destruct s as [|c' s]; [discriminate|].
    destruct (Ascii.eqb_spec c' c); [|discriminate]. subst.
    simpl. f_equal. now apply IH.
Qed.

Lemma split_noColon s :
  ~ In ":"%char (list_ascii_of_string s) ->
  Spotify.split ":" s = [s].
Proof.
  induction s as [|c s IH]; simpl; [reflexivity|].
  intros Hs. destruct (Ascii.eqb_spec c ":"); [destruct Hs; now left|].
  rewrite IH; [reflexivity|]. intros H. apply Hs. now right.
Qed.

Lemma allAlnum_noColon s :
  allAlnum s = true -> ~ In ":"%char (list_ascii_of_string s).
Proof.
  induction s as [|c s IH]; simpl; [auto|].
  intros H [Hc|Hin]; apply andb_prop in H; destruct H as [Hc' Hs].
  - subst c. discriminate.
  - now apply IH.
Qed.

(** X11: the three documented forms of a playlist address give the
    playlist id: the address of the web player, with or without a query
    string or anything else that does not go on with a letter or a
    digit, and the URI. *)
Theorem extractPlaylistId_documented id rest :
  Str.truthy id = true ->
  allAlnum id = true ->
  headNotAlnum rest ->
  Spotify.extractPlaylistId ("https://open.spotify.com/playlist/" ++ id ++ rest)
    = Some id /\
  Spotify.extractPlaylistId ("spotify:playlist:" ++ id) = Some id.
Proof.
  intros Hid Hall Hrest. split.
  - unfold Spotify.extractPlaylistId. simpl.
    rewrite (takeAlnum_app id rest Hall Hrest), Hid. reflexivity.
  - unfold Spotify.extractPlaylistId. simpl.
    rewrite (split_noColon id (allAlnum_noColon id Hall)). reflexivity.
Qed.

Lemma matchPlaylist_sound : forall url id,
  Spotify.matchPlaylist url = Some id ->
  Str.truthy id = true /\
  allAlnum id = true /\
  exists lead rest,
    url = lead ++ "playlist/" ++ id ++ rest /\ headNotAlnum rest.
Proof.
  induction url as [|c url IH]; intros id.
  - simpl. discriminate.
  - intros H.
    assert (Hcase :
      (Str.startsWith (String c url) "playlist/" = true /\
       id = Spotify.takeAlnum (Spotify.drop 9 (String c url)) /\
       Str.truthy id = true) \/
      Spotify.matchPlaylist url = Some id).
    { revert H. cbn [Spotify.matchPlaylist].
      destruct (Str.startsWith (String c url) "playlist/"); [|now right].
      destruct (Str.truthy (Spotify.takeAlnum (Spotify.drop 9 (String c url))))
        eqn:Ht; [|now right].
      intros [= <-]. left. auto. }
    destruct Hcase as [(Hstart & -> & Ht)|Htail].
    + split; [exact Ht|].
      destruct (takeAlnum_split (Spotify.drop 9 (String c url)))
        as (rest & Hs & Hall & Hrest).
      split; [exact Hall|]. exists "", rest. split; [|exact Hrest].
      rewrite <- Hs. apply (startsWith_split "playlist/" _ Hstart).
    + destruct (IH id Htail) as (Ht & Hall & lead & rest & -> & Hrest).
      split; [exact Ht|]. split; [exact Hall|].
      exists (String c lead), rest. split; [reflexivity|exact Hrest].
Qed.

(** X12: from an address that is not a URI the extraction returns
    letters and digits only, at least one, and they stand in the address
    right after ["playlist/"], up to the first other character. *)
Theorem extractPlaylistId_alphanumeric url id :
  Str.startsWith url "spotify:playlist:" = false ->
  Spotify.extractPlaylistId url = Some id ->
  Str.truthy id = true /\
  allAlnum id = true /\
  exists lead rest,
    url = lead ++ "playlist/" ++ id ++ rest /\ headNotAlnum rest.
Proof.
  unfold Spotify.extractPlaylistId. intros ->. apply matchPlaylist_sound.
Qed.

Lemma matchPlaylist_none : forall url,
  Str.includes url "playlist/" = false -> Spotify.matchPlaylist url = None.
Proof.
  induction url as [|c url IH]; intros H; [reflexivity|].
  cbn [Str.includes] in H. apply orb_false_elim in H. destruct H as [Hs Hi].
  cbn [Spotify.matchPlaylist]. rewrite Hs. now apply IH.
Qed.

Section SpotifyFacts.

Context {api : Spotify.Api}.

(** X13: a text that is no playlist URI and does not hold
    ["playlist/"] is refused as an invalid address: no token is asked
    for, no playlist is requested, and the service keeps its token.  The
    same holds for the URI without an id. *)
Theorem getPlaylistFromUrl_invalid env now received url service :
  (Str.startsWith url "spotify:playlist:" = false /\
   Str.includes url "playlist/" = false) \/
  url = "spotify:playlist:" ->
  Spotify.getPlaylistFromUrl env now received url service =
    (inl Spotify.InvalidUrl, service, []).
Proof.
  unfold Spotify.getPlaylistFromUrl, Spotify.extractPlaylistId.
  intros [[Huri Hurl]| ->].
  - rewrite Huri, (matchPlaylist_none url Hurl). reflexivity.
  - reflexivity.
Qed.

(** X14: a token is fetched once and handed out again, without a
    request, as long as more than 300 s of its lifetime are left; from
    then on the next call fetches a new one. *)
Theorem token_reused_until_margin env now received now' received' service
    clientId clientSecret token expires_in :
  env "REACT_APP_SPOTIFY_CLIENT_ID" = Some clientId ->
  env "REACT_APP_SPOTIFY_CLIENT_SECRET" = Some clientSecret ->
  Str.truthy clientId = true ->
  Str.truthy clientSecret = true ->
  Spotify.tokenValid now service = false ->
  Spotify.requestToken clientId clientSecret =
    Spotify.TokenOk (Some token) expires_in ->
  Str.truthy token = true ->
  0 <= now' ->
  let first := Spotify.getAccessToken env now received service in
  let second := Spotify.getAccessToken env now' received' first.1.2 in
  first.1.1 = inr (Some token) /\
  first.2 = [Spotify.EvToken clientId clientSecret] /\
  (now' + 300000 < received + expires_in * 1000 ->
   second = (inr (Some token), first.1.2, [])) /\
  (received + expires_in * 1000 <= now' + 300000 ->
   second.2 = [Spotify.EvToken clientId clientSecret]).
Proof.
  intros Hid Hsecret Htid Htsecret Hinvalid Hanswer Htoken Hnow first second.
  assert (Hfirst : first =
            (inr (Some token),
             {| Spotify.accessToken := Some token;
                Spotify.tokenExpiry :=
                  Some (received + (expires_in - 300) * 1000) |},
             [Spotify.EvToken clientId clientSecret])).
  { subst first. unfold Spotify.getAccessToken.
    now rewrite Hinvalid, Hid, Hsecret, Htid, Htsecret, Hanswer. }
  subst second. rewrite Hfirst. simpl.
  split; [reflexivity|]. split; [reflexivity|].
  unfold Spotify.getAccessToken, Spotify.tokenValid. simpl. rewrite Htoken.
  simpl. split; intros H.
  - destruct (Z.eqb_spec (received + (expires_in - 300) * 1000) 0); [lia|].
    destruct (Z.ltb_spec now' (received + (expires_in - 300) * 1000)); [|lia].
    reflexivity.
  - destruct (Z.ltb_spec now' (received + (expires_in - 300) * 1000)); [lia|].
    rewrite andb_false_r, Hid, Hsecret, Htid, Htsecret, Hanswer. reflexivity.
Qed.

End SpotifyFacts.

(** ** The player *)

Lemma handleNext_data s :
  MixTape.playlistData (MixTape.handleNext s) = MixTape.playlistData s /\
  (MixTape.playlistData s <> None -> MixTape.isPlaying (MixTape.handleNext s) = false).
Proof.
  unfold MixTape.handleNext.
  destruct (MixTape.playlistData s) eqn:E; simpl; [auto|].
  split; [exact E|]. now intros [].
Qed.

Lemma handlePrevious_data s :
  MixTape.playlistData (MixTape.handlePrevious s) = MixTape.playlistData s /\
  (MixTape.playlistData s <> None ->
   MixTape.isPlaying (MixTape.handlePrevious s) = false).
Proof.
  unfold MixTape.handlePrevious.
  destruct (MixTape.playlistData s) eqn:E; simpl; [auto|].
  split; [exact E|]. now intros [].
Qed.

Section Ring.

Variable tracks : list ResolvedTrack.

Local Abbreviation n := (Z.of_nat (length tracks)).

Hypothesis some_track : 0 < n.

Lemma next_inRange x :
  0 <= x < n -> MixTape.next n (MixTape.Idx x) = MixTape.Idx ((x + 1) mod n).
Proof.
  intros Hx. unfold MixTape.next, MixTape.plus, MixTape.remainder.
  destruct (Z.eqb_spec n 0); [lia|].
  now rewrite Z.rem_mod_nonneg by lia.
Qed.

Lemma previous_inRange x :
  0 <= x < n -> MixTape.previous n (MixTape.Idx x) = MixTape.Idx ((x + -1) mod n).
Proof.
  intros Hx. unfold MixTape.previous, MixTape.plus.
  destruct x as [|p|p]; [|now rewrite Z.mod_small by lia|lia].
  f_equal. apply (Z.mod_unique _ _ (-1)); lia.
Qed.

Section Shift.

(** A step that moves by [c] places around the list. *)
Variable step : MixTape.Index -> MixTape.Index.
Variable c : Z.
Hypothesis step_shift : forall x,
  0 <= x < n -> step (MixTape.Idx x) = MixTape.Idx ((x + c) mod n).

Lemma skip_eq remaining index :
  MixTape.skip step tracks remaining index =
    if MixTape.playable tracks index then index
    else
      match remaining with
      | O => index
      | S remaining' => MixTape.skip step tracks remaining' (step index)
      end.
Proof. destruct remaining; reflexivity. Qed.

Lemma shift_shift x k :
  (((x + c) mod n) + Z.of_nat k * c) mod n = (x + Z.of_nat (S k) * c) mod n.
Proof. rewrite Zplus_mod_idemp_l. f_equal. lia. Qed.

(** The loop stops at the first index that can be played. *)
Lemma skip_finds : forall a remaining x,
  0 <= x < n ->
  (a <= remaining)%nat ->
  playableAt tracks (x + Z.of_nat a * c) = true ->
  (forall k, (k < a)%nat -> playableAt tracks (x + Z.of_nat k * c) = false) ->
  MixTape.skip step tracks remaining (MixTape.Idx x) =
    MixTape.Idx ((x + Z.of_nat a * c) mod n).
Proof.
  unfold playableAt.
  induction a as [|a IH]; intros remaining x Hx Ha Hplay Hmin.
  - replace (x + Z.of_nat 0 * c) with x in * by lia.
    rewrite Z.mod_small in * by lia.
    now rewrite skip_eq, Hplay.
  - destruct remaining as [|remaining]; [lia|].
    pose proof (Hmin 0%nat ltac:(lia)) as H0.
    replace (x + Z.of_nat 0 * c) with x in H0 by lia.
    rewrite Z.mod_small in H0 by lia.
    rewrite skip_eq, H0, (step_shift x Hx), <- shift_shift.
    apply IH.
    + apply Z.mod_pos_bound. lia.
    + lia.
    + now rewrite shift_shift.
    + intros k Hk. rewrite shift_shift. apply Hmin. lia.
Qed.

(** When it finds none, it stops after [remaining] steps. *)
Lemma skip_exhausts : forall remaining x,
  0 <= x < n ->
  (forall k, (k <= remaining)%nat ->
     playableAt tracks (x + Z.of_nat k * c) = false) ->
  MixTape.skip step tracks remaining (MixTape.Idx x) =
    MixTape.Idx ((x + Z.of_nat remaining * c) mod n).
Proof.
  unfold playableAt.
  induction remaining as [|remaining IH]; intros x Hx Hnone;
    pose proof (Hnone 0%nat ltac:(lia)) as H0;
    replace (x + Z.of_nat 0 * c) with x in * by lia;
    rewrite Z.mod_small in H0 by lia; rewrite skip_eq, H0.
  - now rewrite Z.mod_small by lia.
  - rewrite (step_shift x Hx), <- shift_shift. apply IH.
    + apply Z.mod_pos_bound. lia.
    + intros k Hk. rewrite shift_shift. apply Hnone. lia.
Qed.

Lemma skip_inRange : forall remaining x,
  0 <= x < n ->
  exists y,
    MixTape.skip step tracks remaining (MixTape.Idx x) = MixTape.Idx y /\
    0 <= y < n.
Proof.
  induction remaining as [|remaining IH]; intros x Hx; rewrite skip_eq;
    destruct (MixTape.playable tracks (MixTape.Idx x)); eauto.
  rewrite (step_shift x Hx). apply IH, Z.mod_pos_bound. lia.
Qed.

End Shift.

(** The least number with a property that holds for some number. *)
Lemma first_true (P : nat -> bool) : forall a0,
  P a0 = true ->
  exists a, (a <= a0)%nat /\ P a = true /\ forall k, (k < a)%nat -> P k = false.
Proof.
  induction a0 as [a0 IH] using lt_wf_ind. intros Ha0.
  destruct (List.existsb P (List.seq 0 a0)) eqn:E.
  - apply List.existsb_exists in E. destruct E as (b & Hb & HPb).
    apply List.in_seq in Hb.
    destruct (IH b ltac:(lia) HPb) as (a & Hle & Ha & Hmin).
    exists a. split; [lia|auto].
  - exists a0. split; [lia|]. split; [exact Ha0|].
    intros k Hk. destruct (P k) eqn:Hpk; [|reflexivity].
    assert (List.existsb P (List.seq 0 a0) = true); [|congruence].
    apply List.existsb_exists. exists k. split; [|exact Hpk].
    apply List.in_seq. lia.
Qed.

Lemma playable_inRange j :
  MixTape.playable tracks (MixTape.Idx j) = true -> 0 <= j < n.
Proof.
  unfold MixTape.playable.
  destruct (Z.ltb_spec j 0); [discriminate|].
  destruct (tracks !! Z.to_nat j) eqn:E; [|discriminate].
  apply lookup_lt_Some in E. intros _. lia.
Qed.

(** From an index of the list, with a track that can be played
    somewhere, [handleNext] and [handlePrevious] find the nearest one in
    their direction. *)
Lemma nearest_ahead s i j :
  playing s tracks i ->
  MixTape.playable tracks (MixTape.Idx j) = true ->
  exists d,
    1 <= d <= n /\
    MixTape.currentTrackIndex (MixTape.handleNext s) = MixTape.Idx ((i + d) mod n) /\
    playableAt tracks (i + d) = true /\
    (forall k, 1 <= k < d -> playableAt tracks (i + k) = false).
Proof.
  intros ((playlist & Hdata & Htracks) & Hi & Hrange) Hj.
  pose proof (playable_inRange j Hj) as Hjr.
  set (a0 := Z.to_nat ((j - i - 1) mod n)).
  assert (Ha0 : 0 <= (j - i - 1) mod n < n) by (apply Z.mod_pos_bound; lia).
  assert (Hat : playableAt tracks (i + 1 + Z.of_nat a0 * 1) = true).
  { unfold playableAt. subst a0. rewrite Z2Nat.id by lia.
    rewrite Z.mul_1_r, Zplus_mod_idemp_r.
    replace (i + 1 + (j - i - 1)) with j by lia.
    now rewrite Z.mod_small by lia. }
  destruct (first_true (fun a => playableAt tracks (i + 1 + Z.of_nat a * 1)) a0 Hat)
    as (a & Hle & Ha & Hmin).
  exists (Z.of_nat a + 1).
  assert (Hshift : forall k, playableAt tracks ((i + 1) mod n + Z.of_nat k * 1)
                             = playableAt tracks (i + 1 + Z.of_nat k * 1)).
  { intros k. unfold playableAt. now rewrite Zplus_mod_idemp_l. }
  split; [subst a0; lia|]. split; [|split].
  - unfold MixTape.handleNext. rewrite Hdata, Htracks, Hi. simpl.
    rewrite (next_inRange i Hrange).
    rewrite (skip_finds (MixTape.next n) 1 next_inRange a).
    + rewrite Zplus_mod_idemp_l. f_equal. f_equal. lia.
    + apply Z.mod_pos_bound. lia.
    + subst a0. lia.
    + now rewrite Hshift.
    + intros k Hk. rewrite Hshift. now apply Hmin.
  - replace (i + (Z.of_nat a + 1)) with (i + 1 + Z.of_nat a * 1) by lia.
    exact Ha.
  - intros k Hk.
    replace (i + k) with (i + 1 + Z.of_nat (Z.to_nat (k - 1)) * 1) by lia.
    apply Hmin. lia.
Qed.

Lemma nearest_behind s i j :
  playing s tracks i ->
  MixTape.playable tracks (MixTape.Idx j) = true ->
  exists d,
    1 <= d <= n /\
    MixTape.currentTrackIndex (MixTape.handlePrevious s)
      = MixTape.Idx ((i - d) mod n) /\
    playableAt tracks (i - d) = true /\
    (forall k, 1 <= k < d -> playableAt tracks (i - k) = false).
Proof.
  intros ((playlist & Hdata & Htracks) & Hi & Hrange) Hj.
  pose proof (playable_inRange j Hj) as Hjr.
  set (a0 := Z.to_nat ((i - 1 - j) mod n)).
  assert (Ha0 : 0 <= (i - 1 - j) mod n < n) by (apply Z.mod_pos_bound; lia).
  assert (Hat : playableAt tracks (i + -1 + Z.of_nat a0 * -1) = true).
  { unfold playableAt. subst a0. rewrite Z2Nat.id by lia.
    replace (i + -1 + (i - 1 - j) mod n * -1)
      with (i - 1 - (i - 1 - j) mod n) by lia.
    rewrite Zminus_mod_idemp_r.
    replace (i - 1 - (i - 1 - j)) with j by lia.
    now rewrite Z.mod_small by lia. }
  destruct (first_true (fun a => playableAt tracks (i + -1 + Z.of_nat a * -1)) a0 Hat)
    as (a & Hle & Ha & Hmin).
  exists (Z.of_nat a + 1).
  assert (Hshift : forall k, playableAt tracks ((i + -1) mod n + Z.of_nat k * -1)
                             = playableAt tracks (i + -1 + Z.of_nat k * -1)).
  { intros k. unfold playableAt. now rewrite Zplus_mod_idemp_l. }
  split; [subst a0; lia|]. split; [|split].
  - unfold MixTape.handlePrevious. rewrite Hdata, Htracks, Hi.
    cbv zeta.
    rewrite (previous_inRange i Hrange).
    unfold MixTape.currentTrackIndex, MixTape.setPlayer.
    rewrite (skip_finds (MixTape.previous n) (-1) previous_inRange a).
    + rewrite Zplus_mod_idemp_l. f_equal. f_equal. lia.
    + apply Z.mod_pos_bound. lia.
    + subst a0. lia.
    + now rewrite Hshift.
    + intros k Hk. rewrite Hshift. now apply Hmin.
  - replace (i - (Z.of_nat a + 1)) with (i + -1 + Z.of_nat a * -1) by lia.
    exact Ha.
  - intros k Hk.
    replace (i - k) with (i + -1 + Z.of_nat (Z.to_nat (k - 1)) * -1) by lia.
    apply Hmin. lia.
Qed.

(** On a track that can be played, the step back after [handleNext]
    and the step forth after [handlePrevious] end on that track. *)
Lemma previous_after_next s i :
  playing s tracks i ->
  MixTape.playable tracks (MixTape.Idx i) = true ->
  MixTape.currentTrackIndex (MixTape.handlePrevious (MixTape.handleNext s))
    = MixTape.Idx i.
Proof.
  intros Hs Hi.
  pose proof Hs as ((playlist & Hdata & Htracks) & Hcur & Hrange).
  destruct (nearest_ahead s i i Hs Hi) as (d & Hd & Hidx & Hplay & Hmin).
  destruct (handleNext_data s) as [Hsame _].
  unfold MixTape.handlePrevious. rewrite Hsame, Hdata, Htracks, Hidx.
  cbv zeta.
  assert (Hj : 0 <= (i + d) mod n < n) by (apply Z.mod_pos_bound; lia).
  rewrite (previous_inRange _ Hj).
  unfold MixTape.currentTrackIndex, MixTape.setPlayer.
  assert (Hback : forall k,
            (((i + d) mod n + -1) mod n + Z.of_nat k * -1) mod n
            = (i + (d - 1 - Z.of_nat k)) mod n).
  { intros k. rewrite Zplus_mod_idemp_l, <- Z.add_assoc, Zplus_mod_idemp_l.
    f_equal. lia. }
  rewrite (skip_finds (MixTape.previous n) (-1) previous_inRange
             (Z.to_nat (d - 1))).
  - rewrite Hback. f_equal.
    replace (i + (d - 1 - Z.of_nat (Z.to_nat (d - 1)))) with i by lia.
    apply Z.mod_small. lia.
  - apply Z.mod_pos_bound. lia.
  - lia.
  - unfold playableAt. rewrite Hback.
    replace (i + (d - 1 - Z.of_nat (Z.to_nat (d - 1)))) with i by lia.
    now rewrite Z.mod_small by lia.
  - intros k Hk. unfold playableAt. rewrite Hback.
    apply (Hmin (d - 1 - Z.of_nat k)). lia.
Qed.

Lemma next_after_previous s i :
  playing s tracks i ->
  MixTape.playable tracks (MixTape.Idx i) = true ->
  MixTape.currentTrackIndex (MixTape.handleNext (MixTape.handlePrevious s))
    = MixTape.Idx i.
Proof.
  intros Hs Hi.
  pose proof Hs as ((playlist & Hdata & Htracks) & Hcur & Hrange).
  destruct (nearest_behind s i i Hs Hi) as (d & Hd & Hidx & Hplay & Hmin).
  destruct (handlePrevious_data s) as [Hsame _].
  unfold MixTape.handleNext. rewrite Hsame, Hdata, Htracks, Hidx.
  cbv zeta.
  assert (Hj : 0 <= (i - d) mod n < n) by (apply Z.mod_pos_bound; lia).
  rewrite (next_inRange _ Hj).
  unfold MixTape.currentTrackIndex, MixTape.setPlayer.
  assert (Hforth : forall k,
            (((i - d) mod n + 1) mod n + Z.of_nat k * 1) mod n
            = (i - (d - 1 - Z.of_nat k)) mod n).
  { intros k. rewrite Zplus_mod_idemp_l, <- Z.add_assoc, Zplus_mod_idemp_l.
    f_equal. lia. }
  rewrite (skip_finds (MixTape.next n) 1 next_inRange (Z.to_nat (d - 1))).
  - rewrite Hforth. f_equal.
    replace (i - (d - 1 - Z.of_nat (Z.to_nat (d - 1)))) with i by lia.
    apply Z.mod_small. lia.
  - apply Z.mod_pos_bound. lia.
  - lia.
  - unfold playableAt. rewrite Hforth.
    replace (i - (d - 1 - Z.of_nat (Z.to_nat (d - 1)))) with i by lia.
    now rewrite Z.mod_small by lia.
  - intros k Hk. unfold playableAt. rewrite Hforth.
    apply (Hmin (d - 1 - Z.of_nat k)). lia.
Qed.

(** With no track that can be played the loops run to their bound. *)
Lemma none_playable s i :
  playing s tracks i ->
  (forall j, MixTape.playable tracks (MixTape.Idx j) = false) ->
  MixTape.currentTrackIndex (MixTape.handleNext s) = MixTape.Idx ((i + 1) mod n) /\
  MixTape.currentTrackIndex (MixTape.handlePrevious s) = MixTape.Idx ((i - 1) mod n).
Proof.
  intros ((playlist & Hdata & Htracks) & Hcur & Hrange) Hnone.
  split.
  - unfold MixTape.handleNext. rewrite Hdata, Htracks, Hcur. cbv zeta.
    rewrite (next_inRange _ Hrange).
    unfold MixTape.currentTrackIndex, MixTape.setPlayer.
    rewrite (skip_exhausts (MixTape.next n) 1 next_inRange).
    + f_equal. rewrite Z.mul_1_r.
      rewrite Zplus_mod_idemp_l.
      replace (i + 1 + n) with (i + 1 + 1 * n) by lia.
      apply Z_mod_plus_full.
    + apply Z.mod_pos_bound. lia.
    + intros k _. apply Hnone.
  - unfold MixTape.handlePrevious. rewrite Hdata, Htracks, Hcur. cbv zeta.
    rewrite (previous_inRange _ Hrange).
    unfold MixTape.currentTrackIndex, MixTape.setPlayer.
    rewrite (skip_exhausts (MixTape.previous n) (-1) previous_inRange).
    + f_equal. rewrite Zplus_mod_idemp_l.
      replace (i + -1 + n * -1) with (i - 1 + -1 * n) by lia.
      apply Z_mod_plus_full.
    + apply Z.mod_pos_bound. lia.
    + intros k _. apply Hnone.
Qed.

Lemma press_playing s i b :
  playing s tracks i -> exists i', playing (press s b) tracks i'.
Proof.
  intros ((playlist & Hdata & Htracks) & Hcur & Hrange).
  destruct b; simpl.
  - destruct (skip_inRange (MixTape.next n) 1 next_inRange (length tracks)
                ((i + 1) mod n) ltac:(apply Z.mod_pos_bound; lia))
      as (y & Hy & Hyr).
    exists y. unfold MixTape.handleNext. rewrite Hdata, Htracks, Hcur.
    cbv zeta. rewrite (next_inRange _ Hrange), Hy.
    split; [|split; [reflexivity|exact Hyr]].
    exists playlist. split; [exact Hdata|exact Htracks].
  - destruct (skip_inRange (MixTape.previous n) (-1) previous_inRange
                (length tracks) ((i + -1) mod n)
                ltac:(apply Z.mod_pos_bound; lia)) as (y & Hy & Hyr).
    exists y. unfold MixTape.handlePrevious. rewrite Hdata, Htracks, Hcur.
    cbv zeta. rewrite (previous_inRange _ Hrange), Hy.
    split; [|split; [reflexivity|exact Hyr]].
    exists playlist. split; [exact Hdata|exact Htracks].
Qed.

End Ring.

Lemma playing_some_track s tracks i :
  playing s tracks i -> 0 < Z.of_nat (length tracks).
Proof. intros (_ & _ & H). lia. Qed.

(** X15: from an index of the list, when some track can be played,
    [handleNext] moves to the nearest track after the current one,
    around the end of the list, that can be played: it skips every track
    without a video on the way, and it clears the playing flag.  When
    the current track is the only one that can be played, it comes back
    to it. *)
Theorem handleNext_nearest s tracks i j :
  playing s tracks i ->
  MixTape.playable tracks (MixTape.Idx j) = true ->
  let n := Z.of_nat (length tracks) in
  exists d,
    1 <= d <= n /\
    playing (MixTape.handleNext s) tracks ((i + d) mod n) /\
    playableAt tracks (i + d) = true /\
    (forall k, 1 <= k < d -> playableAt tracks (i + k) = false) /\
    MixTape.isPlaying (MixTape.handleNext s) = false.
Proof.
  intros Hs Hj n.
  pose proof (playing_some_track s tracks i Hs) as Hn.
  destruct (nearest_ahead tracks Hn s i j Hs Hj) as (d & Hd & Hidx & Hplay & Hmin).
  exists d. split; [exact Hd|].
  destruct Hs as ((playlist & Hdata & Htracks) & Hi & Hrange).
  destruct (handleNext_data s) as [Hsame Hflag].
  split; [|split; [exact Hplay|split; [exact Hmin|]]].
  - split; [|split; [exact Hidx|apply Z.mod_pos_bound; lia]].
    exists playlist. now rewrite Hsame.
  - apply Hflag. now rewrite Hdata.
Qed.

(** X16: [handlePrevious] does the same in the other direction: it
    moves to the nearest track before the current one, around the head
    of the list, that can be played. *)
Theorem handlePrevious_nearest s tracks i j :
  playing s tracks i ->
  MixTape.playable tracks (MixTape.Idx j) = true ->
  let n := Z.of_nat (length tracks) in
  exists d,
    1 <= d <= n /\
    playing (MixTape.handlePrevious s) tracks ((i - d) mod n) /\
    playableAt tracks (i - d) = true /\
    (forall k, 1 <= k < d -> playableAt tracks (i - k) = false) /\
    MixTape.isPlaying (MixTape.handlePrevious s) = false.
Proof.
  intros Hs Hj n.
  pose proof (playing_some_track s tracks i Hs) as Hn.
  destruct (nearest_behind tracks Hn s i j Hs Hj) as (d & Hd & Hidx & Hplay & Hmin).
  exists d. split; [exact Hd|].
  destruct Hs as ((playlist & Hdata & Htracks) & Hi & Hrange).
  destruct (handlePrevious_data s) as [Hsame Hflag].
  split; [|split; [exact Hplay|split; [exact Hmin|]]].
  - split; [|split; [exact Hidx|apply Z.mod_pos_bound; lia]].
    exists playlist. now rewrite Hsame.
  - apply Hflag. now rewrite Hdata.
Qed.

(** X17: on a track that can be played, Previous undoes Next and Next
    undoes Previous: the two buttons walk the same ring of playable
    tracks in opposite directions. *)
Theorem next_previous_round_trip s tracks i :
  playing s tracks i ->
  MixTape.playable tracks (MixTape.Idx i) = true ->
  MixTape.currentTrackIndex (MixTape.handlePrevious (MixTape.handleNext s))
    = MixTape.Idx i /\
  MixTape.currentTrackIndex (MixTape.handleNext (MixTape.handlePrevious s))
    = MixTape.Idx i.
Proof.
  intros Hs Hi.
  pose proof (playing_some_track s tracks i Hs) as Hn.
  split.
  - exact (previous_after_next tracks Hn s i Hs Hi).
  - exact (next_after_previous tracks Hn s i Hs Hi).
Qed.

(** X18: when no track of the list can be played, the loops give up
    after as many steps as there are tracks, and the buttons move by one
    place: Next to the track after the current one, Previous to the
    track before it, around the ends. *)
Theorem buttons_without_playable_track s tracks i :
  playing s tracks i ->
  (forall j, MixTape.playable tracks (MixTape.Idx j) = false) ->
  let n := Z.of_nat (length tracks) in
  MixTape.currentTrackIndex (MixTape.handleNext s) = MixTape.Idx ((i + 1) mod n) /\
  MixTape.currentTrackIndex (MixTape.handlePrevious s) = MixTape.Idx ((i - 1) mod n).
Proof.
  intros Hs Hnone n.
  exact (none_playable tracks (playing_some_track s tracks i Hs) s i Hs Hnone).
Qed.

(** X19: whatever buttons are pressed, and whatever tracks can be
    played, the current index stays an index of the list once it is
    one. *)
Theorem buttons_keep_index_in_list s tracks i buttons :
  playing s tracks i ->
  exists i', playing (foldl press s buttons) tracks i'.
Proof.
  revert s i. induction buttons as [|b buttons IH]; intros s i Hs; simpl.
  - eauto.
  - destruct (press_playing tracks (playing_some_track s tracks i Hs) s i b Hs)
      as (i' & Hs'). eauto.
Qed.

Lemma skip_NaN step tracks remaining :
  step MixTape.NaN = MixTape.NaN ->
  MixTape.skip step tracks remaining MixTape.NaN = MixTape.NaN.
Proof.
  intros Hstep. induction remaining as [|remaining IH]; simpl; [reflexivity|].
  now rewrite Hstep.
Qed.

Lemma press_NaN s b :
  MixTape.playlistData s <> None ->
  MixTape.currentTrackIndex s = MixTape.NaN ->
  MixTape.playlistData (press s b) <> None /\
  MixTape.currentTrackIndex (press s b) = MixTape.NaN.
Proof.
  intros Hdata Hcur.
  destruct b; simpl; unfold MixTape.handleNext, MixTape.handlePrevious;
    destruct (MixTape.playlistData s) as [playlist|] eqn:E; try (now destruct Hdata);
    rewrite Hcur; simpl; rewrite ?E; (split; [discriminate|]);
    apply skip_NaN; reflexivity.
Qed.

(** X20: with a playlist that has no track, Next makes the current
    index [NaN], and no button brings it back to a number. *)
Theorem empty_playlist_index s playlist buttons :
  MixTape.playlistData s = Some playlist ->
  MixTape.tracks playlist = [] ->
  MixTape.currentTrackIndex (foldl press (MixTape.handleNext s) buttons)
    = MixTape.NaN.
Proof.
  intros Hdata Hempty.
  assert (Hnext : MixTape.playlistData (MixTape.handleNext s) <> None /\
                  MixTape.currentTrackIndex (MixTape.handleNext s) = MixTape.NaN).
  { unfold MixTape.handleNext. rewrite Hdata, Hempty. simpl.
    rewrite Hdata. split; [discriminate|].
    destruct (MixTape.currentTrackIndex s); reflexivity. }
  revert Hnext. generalize (MixTape.handleNext s). clear.
  induction buttons as [|b buttons IH]; intros s [Hdata Hcur]; simpl.
  - exact Hcur.
  - apply IH. now apply press_NaN.
Qed.

(** ** Sharing a mixtape *)

Lemma colorMatch_preset c :
  In c MixTape.CASSETTE_COLORS ->
  String.eqb (Cassette.id c) "custom" = false /\
  List.find (fun c' => String.eqb (Cassette.id c') (Cassette.id c))
    MixTape.CASSETTE_COLORS = Some c.
Proof.
  unfold MixTape.CASSETTE_COLORS. simpl.
  intros H. repeat (destruct H as [<-|H]; [split; reflexivity|]). destruct H.
Qed.

Lemma fontMatch_preset f :
  In f MixTape.FONT_STYLES ->
  List.find (fun f' => String.eqb (Font.id f') (Font.id f))
    MixTape.FONT_STYLES = Some f.
Proof.
  unfold MixTape.FONT_STYLES. simpl.
  intros H. repeat (destruct H as [<-|H]; [reflexivity|]). destruct H.
Qed.

#[local] Arguments MixTape.CASSETTE_COLORS : simpl never.
#[local] Arguments MixTape.BACKGROUND_COLORS : simpl never.
#[local] Arguments MixTape.FONT_STYLES : simpl never.
#[local] Arguments List.find : simpl never.

Lemma restore_background origin mixtapeId mixtape visitor :
  MixTape.getCurrentBgColor (MixTape.restore origin mixtapeId mixtape visitor)
    = Supabase.backgroundColor mixtape.
Proof.
  unfold MixTape.getCurrentBgColor, MixTape.restore. simpl.
  destruct (List.find _ MixTape.BACKGROUND_COLORS) as [b|] eqn:E; [|reflexivity].
  apply List.find_some in E. destruct E as [_ E].
  now apply String.eqb_eq in E.
Qed.

Lemma orEmpty_orNull s :
  MixTape.orEmpty (Str.orElse (MixTape.orNull s) None) = s.
Proof. now destruct s. Qed.

Lemma restore_shown origin mixtapeId s visitor :
  presetsSelected s ->
  MixTape.isCustomColor s = true \/ MixTape.isCustomColor visitor = false ->
  shown (MixTape.restore origin mixtapeId (MixTape.mixtapeDataOf s) visitor)
    = shown s.
Proof.
  intros [Hcolor Hfont] Hflag.
  unfold shown. rewrite restore_background.
  f_equal.
  - unfold MixTape.getCurrentColor, MixTape.restore, MixTape.mixtapeDataOf. simpl.
    unfold MixTape.getCurrentColor.
    destruct (MixTape.isCustomColor s) eqn:Hcustom; simpl; [reflexivity|].
    destruct (colorMatch_preset _ Hcolor) as [-> ->].
    destruct Hflag as [Hflag|Hflag]; [discriminate|now rewrite Hflag].
  - unfold MixTape.restore, MixTape.mixtapeDataOf. simpl.
    now rewrite (fontMatch_preset _ Hfont).
  - unfold MixTape.restore, MixTape.mixtapeDataOf. simpl.
    apply orEmpty_orNull.
  - unfold MixTape.restore, MixTape.mixtapeDataOf. simpl.
    apply orEmpty_orNull.
Qed.

Lemma loadMixtape_stored row mixtapeId mixtapeData :
  stored row (Supabase.insertOf mixtapeId mixtapeData) ->
  exists createdAt viewCount playCount,
    Supabase.loadMixtape (Supabase.SelectRow row) =
      (Some (Supabase.mkMixtape mixtapeId mixtapeData createdAt viewCount playCount),
       None).
Proof.
  destruct row, mixtapeData. unfold stored. simpl.
  intros (-> & -> & -> & -> & -> & -> & -> & -> & -> & -> & -> & ->).
  eauto.
Qed.

(** X21: a mixtape comes back from the store as it was made.  When the
    store returns the row that [createMixtape] inserted for the state of
    the editor, [loadSharedMixtape] shows the same cassette colours,
    background, font, title, sender, message and tracks as the editor
    did, in the player view and with the address that was given to the
    creator, provided the component that loads does not hold the flag
    of a custom colour from before, as a new component does not, or the
    mixtape has a custom colour itself. *)
Theorem shared_mixtape_round_trip origin mixtapeId row s visitor :
  presetsSelected s ->
  Str.truthy mixtapeId = true ->
  stored row (Supabase.insertOf mixtapeId (MixTape.mixtapeDataOf s)) ->
  MixTape.isCustomColor s = true \/ MixTape.isCustomColor visitor = false ->
  let loaded :=
    MixTape.loadSharedMixtape origin (Some mixtapeId)
      (Supabase.SelectRow row) visitor in
  shown loaded = shown s /\
  MixTape.view loaded = MixTape.player /\
  MixTape.error loaded = "" /\
  MixTape.shareableUrl loaded =
    Supabase.created_url (Supabase.createMixtape origin mixtapeId Supabase.InsertOk).
Proof.
  intros Hpresets Hid Hstored Hflag loaded. subst loaded.
  unfold MixTape.loadSharedMixtape. rewrite Hid.
  destruct (loadMixtape_stored row mixtapeId _ Hstored)
    as (createdAt & viewCount & playCount & ->).
  cbn [truthyString Supabase.data].
  split; [now apply restore_shown|]. repeat split.
Qed.

(** X22: the flag of a custom colour outlives a load.  When the
    component that loads a mixtape with a preset colour holds the flag
    from before, the cassette is shown in the custom colours the
    component held, not in the colour of the mixtape. *)
Theorem stale_custom_colour origin mixtapeId row s visitor :
  presetsSelected s ->
  Str.truthy mixtapeId = true ->
  stored row (Supabase.insertOf mixtapeId (MixTape.mixtapeDataOf s)) ->
  MixTape.isCustomColor s = false ->
  MixTape.isCustomColor visitor = true ->
  let loaded :=
    MixTape.loadSharedMixtape origin (Some mixtapeId)
      (Supabase.SelectRow row) visitor in
  MixTape.getCurrentColor loaded = MixTape.getCurrentColor visitor /\
  MixTape.getCurrentColor loaded <> MixTape.getCurrentColor s.
Proof.
  intros [Hcolor Hfont] Hid Hstored Hs Hvisitor loaded. subst loaded.
  unfold MixTape.loadSharedMixtape. rewrite Hid.
  destruct (loadMixtape_stored row mixtapeId _ Hstored)
    as (createdAt & viewCount & playCount & ->).
  cbn [truthyString Supabase.data].
  destruct (colorMatch_preset _ Hcolor) as [Hcustom Hfind].
  assert (Hloaded :
    MixTape.getCurrentColor
      (MixTape.restore origin mixtapeId (MixTape.mixtapeDataOf s) visitor)
    = MixTape.getCurrentColor visitor).
  { unfold MixTape.getCurrentColor, MixTape.restore, MixTape.mixtapeDataOf. simpl.
    unfold MixTape.getCurrentColor. rewrite Hs, Hcustom, Hvisitor. reflexivity. }
  split; [exact Hloaded|]. rewrite Hloaded.
  unfold MixTape.getCurrentColor. rewrite Hs, Hvisitor.
  intros Heq. rewrite <- Heq in Hcustom. discriminate.
Qed.

(** X23: a load that gets no row, whatever the store answers instead,
    ends on the landing view with a message, and the component shows
    what it showed before. *)
Theorem failed_load_lands origin mixtapeId response visitor :
  Str.truthy mixtapeId = true ->
  noRow response ->
  let loaded :=
    MixTape.loadSharedMixtape origin (Some mixtapeId) response visitor in
  MixTape.view loaded = MixTape.landing /\
  Str.truthy (MixTape.error loaded) = true /\
  MixTape.loading loaded = false /\
  shown loaded = shown visitor.
Proof.
  intros Hid Hrow loaded. subst loaded.
  unfold MixTape.loadSharedMixtape. rewrite Hid.
  destruct response as [message|code message|row]; [| |destruct Hrow]; simpl.
  - destruct (Str.truthy message); simpl; [|repeat split].
    destruct (String.eqb message "Mixtape not found"); repeat split.
  - destruct (String.eqb code "PGRST116"); simpl; [repeat split|].
    destruct (Str.truthy message); simpl; [|repeat split].
    destruct (String.eqb message "Mixtape not found"); repeat split.
Qed.

(** ** Names as patterns of the durable lookup *)

Section Wildcard.

Context {number : Number} {provider : Provider}.






End Wildcard.

(** ** The video the player is asked to load *)





(** ** Importing a playlist *)

Section ImportFacts.

Context {number : Number} {provider : Provider} {api : Spotify.Api}.

Lemma resolveAll_tracks : forall queries st,
  track <$> resolveAll queries st = queries.
Proof.
  induction queries as [|q later IH]; intros st; simpl; [reflexivity|].
  now rewrite IH.
Qed.

Lemma getPlaylistFromUrl_trackCount env now received url service playlist :
  (Spotify.getPlaylistFromUrl env now received url service).1.1 = inr playlist ->
  Spotify.trackCount playlist = Z.of_nat (length (Spotify.tracks playlist)).
Proof.
  unfold Spotify.getPlaylistFromUrl.
  destruct (Spotify.extractPlaylistId url) as [playlistId|]; [|discriminate].
  destruct (Str.truthy playlistId); [|discriminate].
  unfold Spotify.fetchPlaylist.
  destruct (Spotify.getAccessToken env now received service)
    as [[[err|token] service'] ev]; [discriminate|].
  destruct (Spotify.requestPlaylist token playlistId)
    as [message|status statusText|data]; simpl.
  - discriminate.
  - destruct (status =? 404)%Z; [discriminate|].
    destruct (status =? 403)%Z; discriminate.
  - intros [= <-]. reflexivity.
Qed.

(** X26: an import that fails at the playlist service, for whatever
    reason, leaves the editor as it was but for a message that is not
    empty: the view, the playlist and everything shown stay, and the
    resolver is not called, so that no search is spent and its state
    and caches stay as they were. *)
Theorem failed_import_spends_nothing env now received url s service st err :
  (Spotify.getPlaylistFromUrl env now received url service).1.1 = inl err ->
  let '(s', service', st', requests, ev) :=
    MixTape.fetchPlaylistData env now received url s service st in
  MixTape.view s' = MixTape.view s /\
  MixTape.playlistData s' = MixTape.playlistData s /\
  shown s' = shown s /\
  Str.truthy (MixTape.error s') = true /\
  MixTape.loading s' = false /\
  st' = st /\
  ev = [].
Proof.
  unfold MixTape.fetchPlaylistData.
  destruct (Spotify.getPlaylistFromUrl env now received url service)
    as [[[err'|playlist] service'] requests]; simpl; [|discriminate].
  intros _. repeat split.
  destruct (Str.truthy (Spotify.message err')) eqn:E; [exact E|reflexivity].
Qed.

(** X27: an import that succeeds opens the editor on a playlist that
    has one entry for every track the playlist service returned, in the
    same order and for the same track, matched or not; their number is
    the [trackCount] of the playlist, and the title proposed is the name
    of the playlist. *)
Theorem import_keeps_every_track env now received url s service st playlist :
  (Spotify.getPlaylistFromUrl env now received url service).1.1 = inr playlist ->
  let '(s', service', st', requests, ev) :=
    MixTape.fetchPlaylistData env now received url s service st in
  MixTape.view s' = MixTape.create /\
  MixTape.mixtapeTitle s' = Spotify.playlistName playlist /\
  MixTape.error s' = "" /\
  exists imported,
    MixTape.playlistData s' = Some imported /\
    track <$> MixTape.tracks imported =
      MixTape.toQuery <$> Spotify.tracks playlist /\
    Z.of_nat (length (MixTape.tracks imported)) = Spotify.trackCount playlist.
Proof.
  intros Hok.
  pose proof (getPlaylistFromUrl_trackCount _ _ _ _ _ _ Hok) as Hcount.
  unfold MixTape.fetchPlaylistData.
  destruct (Spotify.getPlaylistFromUrl env now received url service)
    as [[[err|playlist'] service'] requests]; simpl in Hok; [discriminate|].
  injection Hok as ->.
  pose proof (searchTracksFrom_result
                (length (MixTape.toQuery <$> Spotify.tracks playlist)) true
                (MixTape.toQuery <$> Spotify.tracks playlist) 0 [] st) as Hres.
  unfold searchTracks.
  destruct (searchTracksFrom _ true 0 _ [] st) as [[resolved st'] ev].
  unfold resultOf in Hres. simpl in Hres. subst resolved.
  repeat split. eexists. split; [reflexivity|]. simpl.
  split; [apply resolveAll_tracks|].
  now rewrite resolveAll_length, length_fmap, Hcount.
Qed.

End ImportFacts.

(** ** The creator's own view of a new mixtape *)

(** X28: when the store accepts a new mixtape, the creator is sent to
    its address, and the load that follows in the same component, from
    the row that was inserted, shows what the editor showed; the
    address shown for sharing is the one [createMixtape] returned. *)
Theorem creator_sees_own_mixtape origin mixtapeId row s :
  presetsSelected s ->
  Str.truthy mixtapeId = true ->
  stored row (Supabase.insertOf mixtapeId (MixTape.mixtapeDataOf s)) ->
  let created := Supabase.createMixtape origin mixtapeId Supabase.InsertOk in
  let '(creator, path) := MixTape.handleCreateMixtape created s in
  let loaded :=
    MixTape.loadSharedMixtape origin (Some mixtapeId)
      (Supabase.SelectRow row) creator in
  path = Some ("/mixtape/" ++ mixtapeId) /\
  MixTape.view creator = MixTape.player /\
  shown creator = shown s /\
  shown loaded = shown s /\
  MixTape.shareableUrl loaded = MixTape.shareableUrl creator.
Proof.
  intros Hpresets Hid Hstored created. subst created.
  unfold Supabase.createMixtape, MixTape.handleCreateMixtape.
  cbn [truthyString]. cbv beta iota zeta.
  split; [reflexivity|]. split; [reflexivity|]. split; [reflexivity|].
  unfold MixTape.loadSharedMixtape. rewrite Hid.
  destruct (loadMixtape_stored row mixtapeId _ Hstored)
    as (createdAt & viewCount & playCount & ->).
  cbn [truthyString Supabase.data].
  split; [|reflexivity].
  apply restore_shown; [exact Hpresets|].
  simpl. destruct (MixTape.isCustomColor s); auto.
Qed.

(** ** A batch run again *)

Section BatchAgain.

Context {number : Number} {provider : Provider}.

Lemma serviceAfter_entries : forall queries st,
  keepsEntries st (serviceAfter queries st).
Proof.
  induction queries as [|q later IH]; intros st; simpl.
  - apply keepsEntries_refl.
  - eapply keepsEntries_trans; [|apply IH]. apply searchTrack_entries.
Qed.

(** A query the memory tier holds is answered with what it holds,
    wherever it stands in the batch. *)
Lemma resolveAll_cached : forall queries st i q m,
  queries !! i = Some q ->
  cache st !! cacheKeyOf (Track.name q) (Track.artist q) = Some m ->
  resolveAll queries st !! i = Some (annotate q (Some m)).
Proof.
  induction queries as [|q0 later IH]; intros st i q m Hq Hm; [discriminate|].
  destruct i as [|i]; simpl in *.
  - injection Hq as ->.
    now rewrite (searchTrack_memory_hit _ _ _ _ _ Hm).
  - apply IH; [exact Hq|].
    destruct (searchTrack_entries (Track.name q0) (Track.artist q0)
                (Track.duration_ms q0) st) as [[Hsub _] _].
    eapply lookup_weaken; eassumption.
Qed.

(** An entry that is matched is in the memory tier when the batch
    ends. *)
Lemma resolveAll_matched : forall queries st i r,
  resolveAll queries st !! i = Some r ->
  matched r = true ->
  exists q m,
    queries !! i = Some q /\
    r = annotate q (Some m) /\
    cache (serviceAfter queries st)
      !! cacheKeyOf (Track.name q) (Track.artist q) = Some m.
Proof.
  induction queries as [|q0 later IH]; intros st i r Hr Hmatched; [discriminate|].
  destruct i as [|i]; simpl in *.
  - injection Hr as <-.
    destruct (resultOf (searchTrack (Track.name q0) (Track.artist q0)
                          (Track.duration_ms q0) st)) as [m|] eqn:Hres;
      [|discriminate].
    exists q0, m. split; [reflexivity|]. split; [reflexivity|].
    destruct (serviceAfter_entries later
                (stateOf (searchTrack (Track.name q0) (Track.artist q0)
                            (Track.duration_ms q0) st))) as [Hsub _].
    eapply lookup_weaken; [|exact Hsub].
    now apply searchTrack_some_cached.
  - now apply IH.
Qed.

(** A batch of queries that the memory tier holds leaves the service as
    it is and calls no search. *)
Lemma pacedTrace_memory callback total : forall queries position st,
  Forall (fun q => is_Some (cache st !! cacheKeyOf (Track.name q) (Track.artist q)))
         queries ->
  serviceAfter queries st = st /\
  searchAttempts (pacedTrace callback total position queries st) = 0%nat.
Proof.
  induction queries as [|q later IH]; intros position st Hall; simpl; [auto|].
  apply Forall_cons in Hall. destruct Hall as [[m Hm] Hlater].
  rewrite (searchTrack_memory_hit _ _ (Track.duration_ms q) _ _ Hm).
  unfold stateOf, eventsOf. simpl.
  destruct (IH (S position) st Hlater) as [Hs He].
  split; [exact Hs|].
  rewrite !searchAttempts_app, He. destruct callback, later; reflexivity.
Qed.

(** X29: a batch that is run again on the service it left returns, for
    every query it had matched, the same entry as before; when it had
    matched them all, the second run calls no search, leaves the
    service as it is, and returns the same list. *)
Theorem second_batch_from_memory tracks onProgress onProgress' st :
  let first := searchTracks tracks onProgress st in
  let second := searchTracks tracks onProgress' (stateOf first) in
  (forall i r,
     resultOf first !! i = Some r ->
     matched r = true ->
     resultOf second !! i = Some r) /\
  (Forall (fun r => matched r = true) (resultOf first) ->
   resultOf second = resultOf first /\
   stateOf second = stateOf first /\
   searchAttempts (eventsOf second) = 0%nat).
Proof.
  intros first second. subst first second. unfold searchTracks.
  rewrite !searchTracksFrom_result, !searchTracksFrom_state,
    searchTracksFrom_events by reflexivity.
  simpl.
  assert (Hentry : forall i r,
            resolveAll tracks st !! i = Some r ->
            matched r = true ->
            resolveAll tracks (serviceAfter tracks st) !! i = Some r).
  { intros i r Hr Hmatched.
    destruct (resolveAll_matched tracks st i r Hr Hmatched)
      as (q & m & Hq & -> & Hm).
    now apply resolveAll_cached. }
  split; [exact Hentry|].
  intros Hall.
  assert (Hheld : Forall (fun q => is_Some (cache (serviceAfter tracks st)
                            !! cacheKeyOf (Track.name q) (Track.artist q)))
                         tracks).
  { apply Forall_lookup. intros i q Hq.
    destruct (resolveAll tracks st !! i) as [r|] eqn:Hr.
    - rewrite Forall_lookup in Hall.
      destruct (resolveAll_matched tracks st i r Hr (Hall i r Hr))
        as (q' & m & Hq' & _ & Hm).
      rewrite Hq in Hq'. injection Hq' as <-. eauto.
    - apply lookup_ge_None in Hr. rewrite resolveAll_length in Hr.
      apply lookup_lt_Some in Hq. lia. }
  destruct (pacedTrace_memory onProgress' (length tracks) tracks 1%nat
              (serviceAfter tracks st) Hheld) as [Hs He].
  split; [|split; [exact Hs|exact He]].
  apply list_eq. intros i.
  destruct (resolveAll tracks st !! i) as [r|] eqn:Hr.
  - rewrite Forall_lookup in Hall. apply Hentry; [exact Hr|]. exact (Hall i r Hr).
  - apply lookup_ge_None in Hr. apply lookup_ge_None.
    rewrite resolveAll_length in *. exact Hr.
Qed.

Lemma annotate_youtubeId q m video :
  youtubeId (annotate q m) = Some video -> Str.truthy video = true.
Proof.
  unfold annotate. simpl. destruct m as [r|]; simpl; [|discriminate].
  destruct (Str.truthy (videoId r)) eqn:E; [|discriminate].
  now intros [= <-].
Qed.

Lemma resolveAll_youtubeId : forall queries st,
  Forall (fun r => forall video, youtubeId r = Some video -> Str.truthy video = true)
         (resolveAll queries st).
Proof.
  induction queries as [|q later IH]; intros st; simpl; constructor.
  - intros video. apply annotate_youtubeId.
  - apply IH.
Qed.

(** X30: the player can play a track of a batch exactly when the batch
    gave it a video id: an id that is kept is never empty. *)
Theorem batch_video_ids_playable tracks onProgress st i :
  let results := resultOf (searchTracks tracks onProgress st) in
  MixTape.playable results (MixTape.Idx (Z.of_nat i)) = true <->
  exists r, results !! i = Some r /\ youtubeId r <> None.
Proof.
  intros results. subst results. unfold searchTracks.
  rewrite searchTracksFrom_result. simpl.
  pose proof (resolveAll_youtubeId tracks st) as Hids.
  rewrite Forall_lookup in Hids.
  unfold MixTape.playable.
  destruct (Z.ltb_spec (Z.of_nat i) 0); [lia|].
  rewrite Nat2Z.id.
  destruct (resolveAll tracks st !! i) as [r|] eqn:Hr.
  - specialize (Hids i r Hr). split.
    + intros Hplay. exists r. split; [reflexivity|].
      destruct (youtubeId r); [discriminate|discriminate].
    + intros (r' & [= <-] & Hid).
      destruct (youtubeId r) as [video|]; [|now destruct Hid].
      simpl. now apply Hids.
  - split; [discriminate|]. now intros (r & Hr' & _).
Qed.

End BatchAgain.

(** ** Instances *)

Lemma batch_without_keys_witness :
  let st := newService Sample.noKeys [] true in
  let out := searchTracks (number := exact) (provider := Fixture.working)
               Fixture.threeQueries true st in
  resultOf out = unmatched <$> Fixture.threeQueries /\
  searchAttempts (eventsOf out) = 0%nat.
Proof.
  intros st out.
  destruct (batch_without_keys (number := exact) (provider := Fixture.working)
              Fixture.threeQueries true st eq_refl)
    as (Hres & _ & Hcount).
  - repeat (apply Forall_cons; split; [split; reflexivity|]). constructor.
  - split; [exact Hres|exact Hcount].
Defined.

Lemma no_retry_without_quota_witness :
  let st := newService Fixture.threeKeys [] true in
  let out := searchTrack (number := exact) (provider := Fixture.flaky)
               "Missing" "Artist" 200000 st in
  searchAttempts (eventsOf out) = 1%nat /\ stateOf out = st.
Proof.
  intros st out.
  destruct (no_retry_without_quota (number := exact) (provider := Fixture.flaky)
              "Missing" "Artist" 200000 st "key-one")
    as (Hout & Hcount & _).
  - split; reflexivity.
  - vm_compute. lia.
  - reflexivity.
  - reflexivity.
  - vm_compute. discriminate.
  - intros result. vm_compute. discriminate.
  - split; [exact Hcount|]. subst out. now rewrite Hout.
Defined.

Lemma rotation_reaches_working_key_witness :
  let st := newService Fixture.threeKeys [] true in
  let out := searchTrack (number := exact) (provider := Sample.oneKeySpent)
               "Track" "Artist" 200000 st in
  resultOf out = Some Sample.officialAudioMatch /\
  searchAttempts (eventsOf out) = 2%nat /\
  currentKeyIndex (stateOf out) = 1%nat.
Proof.
  intros st out.
  destruct (rotation_reaches_working_key (number := exact)
              (provider := Sample.oneKeySpent)
              "Track" "Artist" 200000 st 3%nat 1%nat Sample.officialAudioMatch
              "vid-B" ["vid-A"] [Fixture.liveVersion; Fixture.officialAudio])
    as (Hres & Hcount & Hcursor & _).
  - reflexivity.
  - intros _. vm_compute. lia.
  - vm_compute. repeat constructor.
  - split; reflexivity.
  - lia.
  - intros j Hj. assert (j = 0%nat) as -> by lia. exists 403. reflexivity.
  - reflexivity.
  - reflexivity.
  - vm_compute. reflexivity.
  - split; [exact Hres|]. split; [exact Hcount|exact Hcursor].
Defined.

Lemma durable_tier_after_clearCache_witness :
  let st := newService Fixture.threeKeys [] true in
  let first := searchTrack (number := exact) (provider := Fixture.working)
                 "Track" "Artist" 200000 st in
  let cleared := stateOf (clearCache (stateOf first)) in
  eventsOf (searchTrack (number := exact) (provider := Fixture.working)
              "Track" "Artist" 200000 cleared) = [EvSelect "Track" "Artist"].
Proof.
  intros st first cleared.
  destruct (durable_tier_after_clearCache (number := exact)
              (provider := Fixture.working)
              "Track" "Artist" 200000 st Sample.officialAudioMatch)
    as (_ & Hagain).
  - vm_compute. intuition discriminate.
  - vm_compute. intuition discriminate.
  - reflexivity.
  - split; reflexivity.
  - vm_compute. reflexivity.
  - subst cleared first. now rewrite Hagain.
Defined.

Lemma store_acts_through_lookup_witness :
  let reachable := newService Fixture.threeKeys [] true in
  let unreachable := newService Fixture.threeKeys [Fixture.storedRow] false in
  resultOf (searchTrack (number := exact) (provider := Fixture.working)
              "Track" "Artist" 200000 unreachable) =
  resultOf (searchTrack (number := exact) (provider := Fixture.working)
              "Track" "Artist" 200000 reachable).
Proof.
  intros reachable unreachable.
  destruct (store_acts_through_lookup (number := exact)
              (provider := Fixture.working)
              "Track" "Artist" 200000 unreachable reachable)
    as (Hres & _).
  - repeat split.
  - reflexivity.
  - exact Hres.
Defined.

Lemma fallback_stops_at_first_answer_witness :
  searchWithInvidious (number := exact) (mirrors := Sample.thirdMirrorUp)
    "Track" "Artist" 200000 None =
  (findBestMatchInvidious (number := exact)
     [Fixture.liveVersionMirror; Fixture.officialAudioMirror]
     200000 "Track" "Artist",
   match findBestMatchInvidious (number := exact)
           [Fixture.liveVersionMirror; Fixture.officialAudioMirror]
           200000 "Track" "Artist" with
   | Some _ => Some "https://invidious.slipfox.xyz"
   | None => None
   end,
   mirrorRequests
     ["https://invidious.fdn.fr"; "https://inv.riverside.rocks";
      "https://invidious.slipfox.xyz"] "Track" "Artist").
Proof.
  apply (fallback_stops_at_first_answer (number := exact)
           (mirrors := Sample.thirdMirrorUp)
           "Track" "Artist" 200000 None
           ["https://invidious.fdn.fr"; "https://inv.riverside.rocks"]
           "https://invidious.slipfox.xyz"
           ["https://invidious.protokolla.fi"; "https://iv.ggtyler.dev"]
           (Some [Fixture.liveVersionMirror; Fixture.officialAudioMirror])).
  - reflexivity.
  - repeat (apply Forall_cons; split; [vm_compute; exact I|]). constructor.
  - reflexivity.
Defined.

Lemma fallback_exhausts_instances_witness :
  searchWithInvidious (number := exact) (mirrors := Sample.mirrorsDown)
    "Track" "Artist" 200000 None =
  (None, None, mirrorRequests INVIDIOUS_INSTANCES "Track" "Artist").
Proof.
  apply (fallback_exhausts_instances (number := exact)
           (mirrors := Sample.mirrorsDown) "Track" "Artist" 200000 None).
  repeat (apply Forall_cons; split; [vm_compute; exact I|]). constructor.
Defined.

Lemma extractPlaylistId_documented_witness :
  Spotify.extractPlaylistId
    "https://open.spotify.com/playlist/37i9dQZF1DXcBWIGoYBM5M?si=xxx"
    = Some "37i9dQZF1DXcBWIGoYBM5M" /\
  Spotify.extractPlaylistId "spotify:playlist:37i9dQZF1DXcBWIGoYBM5M"
    = Some "37i9dQZF1DXcBWIGoYBM5M".
Proof.
  apply (extractPlaylistId_documented "37i9dQZF1DXcBWIGoYBM5M" "?si=xxx").
  - reflexivity.
  - reflexivity.
  - reflexivity.
Defined.

Lemma extractPlaylistId_alphanumeric_witness :
  allAlnum "37i9dQZF1DXcBWIGoYBM5M" = true.
Proof.
  apply (extractPlaylistId_alphanumeric
           "https://open.spotify.com/playlist/37i9dQZF1DXcBWIGoYBM5M/../me"
           "37i9dQZF1DXcBWIGoYBM5M").
  - reflexivity.
  - reflexivity.
Defined.

Lemma getPlaylistFromUrl_invalid_witness :
  Spotify.getPlaylistFromUrl (api := Sample.hourToken) Sample.credentials
    1000 1200 "https://open.spotify.com/album/37i9dQZF1DXcBWIGoYBM5M"
    Spotify.newService =
  (inl Spotify.InvalidUrl, Spotify.newService, []).
Proof.
  apply (getPlaylistFromUrl_invalid (api := Sample.hourToken)).
  left. split; reflexivity.
Defined.

Lemma token_reused_until_margin_witness :
  let first := Spotify.getAccessToken (api := Sample.hourToken)
                 Sample.credentials 1000 1200 Spotify.newService in
  Spotify.getAccessToken (api := Sample.hourToken) Sample.credentials
    3000000 3000200 first.1.2
  = (inr (Some "token-1"), first.1.2, []).
Proof.
  intros first.
  destruct (token_reused_until_margin (api := Sample.hourToken)
              Sample.credentials 1000 1200 3000000 3000200 Spotify.newService
              "client" "secret" "token-1" 3600)
    as (_ & _ & Hreuse & _).
  - reflexivity.
  - reflexivity.
  - reflexivity.
  - reflexivity.
  - reflexivity.
  - reflexivity.
  - reflexivity.
  - lia.
  - apply Hreuse. lia.
Defined.

Lemma handleNext_nearest_witness :
  exists d,
    1 <= d <= 3 /\
    playing (MixTape.handleNext (Sample.playerOf Sample.threeTracks))
      Sample.threeTracks ((0 + d) mod 3).
Proof.
  destruct (handleNext_nearest (Sample.playerOf Sample.threeTracks)
              Sample.threeTracks 0 2)
    as (d & Hd & Hplaying & _).
  - split; [eexists; split; reflexivity|]. split; [reflexivity|]. simpl. lia.
  - reflexivity.
  - exists d. split; [exact Hd|exact Hplaying].
Defined.

Lemma handlePrevious_nearest_witness :
  exists d,
    1 <= d <= 3 /\
    playing (MixTape.handlePrevious (Sample.playerOf Sample.threeTracks))
      Sample.threeTracks ((0 - d) mod 3).
Proof.
  destruct (handlePrevious_nearest (Sample.playerOf Sample.threeTracks)
              Sample.threeTracks 0 2)
    as (d & Hd & Hplaying & _).
  - split; [eexists; split; reflexivity|]. split; [reflexivity|]. simpl. lia.
  - reflexivity.
  - exists d. split; [exact Hd|exact Hplaying].
Defined.

Lemma next_previous_round_trip_witness :
  MixTape.currentTrackIndex
    (MixTape.handlePrevious
       (MixTape.handleNext (Sample.playerOf Sample.threeTracks)))
  = MixTape.Idx 0.
Proof.
  apply (next_previous_round_trip (Sample.playerOf Sample.threeTracks)
           Sample.threeTracks 0).
  - split; [eexists; split; reflexivity|]. split; [reflexivity|]. simpl. lia.
  - reflexivity.
Defined.

Lemma buttons_without_playable_track_witness :
  MixTape.currentTrackIndex (MixTape.handleNext (Sample.playerOf Sample.noVideos))
    = MixTape.Idx ((0 + 1) mod 2).
Proof.
  apply (buttons_without_playable_track (Sample.playerOf Sample.noVideos)
           Sample.noVideos 0).
  - split; [eexists; split; reflexivity|]. split; [reflexivity|]. simpl. lia.
  - intros j. unfold MixTape.playable.
    destruct (j <? 0)%Z; [reflexivity|].
    destruct (Z.to_nat j) as [|[|k]]; reflexivity.
Defined.

Lemma buttons_keep_index_in_list_witness :
  exists i,
    playing (foldl press (Sample.playerOf Sample.threeTracks)
               [Next; Next; Previous; Next])
      Sample.threeTracks i.
Proof.
  apply (buttons_keep_index_in_list (Sample.playerOf Sample.threeTracks)
           Sample.threeTracks 0).
  split; [eexists; split; reflexivity|]. split; [reflexivity|]. simpl. lia.
Defined.

Lemma empty_playlist_index_witness :
  MixTape.currentTrackIndex
    (foldl press (MixTape.handleNext (Sample.playerOf [])) [Previous; Next])
  = MixTape.NaN.
Proof.
  apply (empty_playlist_index (Sample.playerOf []) _ [Previous; Next] eq_refl).
  reflexivity.
Defined.

Lemma shared_mixtape_round_trip_witness :
  let s := Sample.playerOf Sample.threeTracks in
  let row := Sample.rowOf (Supabase.insertOf "abc123" (MixTape.mixtapeDataOf s)) in
  shown (MixTape.loadSharedMixtape "https://mixtape.love" (Some "abc123")
           (Supabase.SelectRow row) MixTape.initial)
  = shown s.
Proof.
  intros s row.
  apply (shared_mixtape_round_trip "https://mixtape.love" "abc123" row s
           MixTape.initial).
  - split; simpl; auto.
  - reflexivity.
  - repeat split.
  - right. reflexivity.
Defined.

Lemma stale_custom_colour_witness :
  let s := Sample.playerOf Sample.threeTracks in
  let row := Sample.rowOf (Supabase.insertOf "abc123" (MixTape.mixtapeDataOf s)) in
  MixTape.getCurrentColor
    (MixTape.loadSharedMixtape "https://mixtape.love" (Some "abc123")
       (Supabase.SelectRow row) Sample.customColours)
  <> MixTape.getCurrentColor s.
Proof.
  intros s row.
  apply (stale_custom_colour "https://mixtape.love" "abc123" row s
           Sample.customColours).
  - split; simpl; auto.
  - reflexivity.
  - repeat split.
  - reflexivity.
  - reflexivity.
Defined.

Lemma failed_load_lands_witness :
  MixTape.view
    (MixTape.loadSharedMixtape "https://mixtape.love" (Some "abc123")
       (Supabase.SelectThrows "") (Sample.playerOf Sample.threeTracks))
  = MixTape.landing.
Proof.
  apply (failed_load_lands "https://mixtape.love" "abc123"
           (Supabase.SelectThrows "") (Sample.playerOf Sample.threeTracks)).
  - reflexivity.
  - exact I.
Defined.



Lemma failed_import_spends_nothing_witness :
  (MixTape.fetchPlaylistData (number := exact) (provider := Fixture.working)
     (api := Sample.hourToken) Sample.credentials 1000 1200
     "https://open.spotify.com/album/37i9dQZF1DXcBWIGoYBM5M"
     MixTape.initial Spotify.newService
     (newService Fixture.threeKeys [] true)).2 = [].
Proof.
  pose proof (failed_import_spends_nothing (number := exact)
                (provider := Fixture.working) (api := Sample.hourToken)
                Sample.credentials 1000 1200
                "https://open.spotify.com/album/37i9dQZF1DXcBWIGoYBM5M"
                MixTape.initial Spotify.newService
                (newService Fixture.threeKeys [] true)
                Spotify.InvalidUrl eq_refl) as H.
  destruct (MixTape.fetchPlaylistData _ _ _ _ _ _ _)
    as [[[[s' service'] st'] requests] ev].
  apply H.
Defined.

Lemma import_keeps_every_track_witness :
  MixTape.view
    (MixTape.fetchPlaylistData (number := exact) (provider := Fixture.flaky)
       (api := Sample.twoSongs) Sample.credentials 1000 1200
       "spotify:playlist:37i9dQZF1DXcBWIGoYBM5M"
       MixTape.initial Spotify.newService
       (newService Fixture.threeKeys [] true)).1.1.1.1
  = MixTape.create.
Proof.
  pose proof (import_keeps_every_track (number := exact)
                (provider := Fixture.flaky) (api := Sample.twoSongs)
                Sample.credentials 1000 1200
                "spotify:playlist:37i9dQZF1DXcBWIGoYBM5M"
                MixTape.initial Spotify.newService
                (newService Fixture.threeKeys [] true)
                _ eq_refl) as H.
  destruct (MixTape.fetchPlaylistData _ _ _ _ _ _ _)
    as [[[[s' service'] st'] requests] ev].
  apply H.
Defined.

Lemma creator_sees_own_mixtape_witness :
  let s := Sample.playerOf Sample.threeTracks in
  let row := Sample.rowOf (Supabase.insertOf "abc123" (MixTape.mixtapeDataOf s)) in
  let creator :=
    (MixTape.handleCreateMixtape
       (Supabase.createMixtape "https://mixtape.love" "abc123" Supabase.InsertOk)
       s).1 in
  shown (MixTape.loadSharedMixtape "https://mixtape.love" (Some "abc123")
           (Supabase.SelectRow row) creator)
  = shown s.
Proof.
  intros s row creator.
  pose proof (creator_sees_own_mixtape "https://mixtape.love" "abc123" row s) as H.
  simpl in H. apply H.
  - split; simpl; auto.
  - reflexivity.
  - repeat split.
Defined.

Lemma second_batch_from_memory_witness :
  let st := newService Fixture.threeKeys [] true in
  let first := searchTracks (number := exact) (provider := Fixture.working)
                 Fixture.twoSpellings true st in
  let second := searchTracks (number := exact) (provider := Fixture.working)
                  Fixture.twoSpellings false (stateOf first) in
  resultOf second = resultOf first /\
  searchAttempts (eventsOf second) = 0%nat.
Proof.
  intros st first second.
  destruct (second_batch_from_memory (number := exact)
              (provider := Fixture.working) Fixture.twoSpellings true false st)
    as [_ Hall].
  destruct Hall as (Hres & _ & Hcount).
  - vm_compute. repeat constructor.
  - split; [exact Hres|exact Hcount].
Defined.
